(** * Minesweeper probability engine: a shallow embedding and its properties

    The development follows [ProbabilityCalculator] (constraint extraction,
    iterative propagation with subset analysis, union-find partitioning,
    exhaustive enumeration, averaging fallback) and the parts of
    [MinesweeperBoard] it reads.

    Conventions of the embedding:
    - a cell key is the [string] built by [cellKey];
    - a JavaScript [Set<string>] is a duplicate-free [list string] in
      insertion order, a [Map] and a plain object are association lists in
      insertion order (iteration order is observable in the source);
    - mine counts are [Z] (they are decremented below zero before being
      clamped), lengths and indices are [nat];
    - probabilities are exact rationals [Q] where the source computes
      doubles, and equality of probabilities is [Qeq] ([==]).  The two
      agree on the values written as they are (0, 1, 0.5) and, up to the
      rounding of one division, on a single quotient; they differ where
      the source adds rounded values up: [expectedFrontierMines] in
      [fillRest] is an exact sum here, so a difference
      [minesLeftTotal - expectedFrontierMines] that is exactly 0 here can
      be a tiny positive double in the source.  The statements below are
      about keys, ranges, equalities between entries and values written
      without such a sum;
    - the recursive [find] of the union-find carries a fuel argument and
      returns [None] when the fuel is exhausted. *)

From Stdlib Require Import String Ascii List Bool Arith NArith ZArith QArith Qminmax.
From Stdlib Require Import Lia Permutation DecimalString DecimalNat Decimal.
Import ListNotations.
Open Scope nat_scope.

(* ------------------------------------------------------------------ *)
(** ** JavaScript containers *)

Module JS.

(** [Set<string>]: [has] and [add] (insertion order, no duplicates). *)
Definition has (s : list string) (k : string) : bool :=
  existsb (String.eqb k) s.

Definition add (s : list string) (k : string) : list string :=
  if has s k then s else s ++ [k].

(** [new Set(array)] / repeated [add] over an array. *)
Definition addAll (s : list string) (ks : list string) : list string :=
  fold_left add ks s.

(** Plain object / [Record<string, V>] used as a map. *)
Definition Obj (V : Type) := list (string * V).

Fixpoint get {V} (o : Obj V) (k : string) : option V :=
  match o with
  | [] => None
  | (k', v) :: o' => if String.eqb k k' then Some v else get o' k
  end.

(** [o[k] = v]: overwrite in place or append a new property. *)
Fixpoint set {V} (o : Obj V) (k : string) (v : V) : Obj V :=
  match o with
  | [] => [(k, v)]
  | (k', v') :: o' =>
      if String.eqb k k' then (k', v) :: o' else (k', v') :: set o' k v
  end.

Definition keys {V} (o : Obj V) : list string := map fst o.

(** [Map<number, V>] keyed by array indices, insertion ordered. *)
Fixpoint getN {V} (o : list (nat * V)) (k : nat) : option V :=
  match o with
  | [] => None
  | (k', v) :: o' => if Nat.eqb k k' then Some v else getN o' k
  end.

Fixpoint setN {V} (o : list (nat * V)) (k : nat) (v : V) : list (nat * V) :=
  match o with
  | [] => [(k, v)]
  | (k', v') :: o' =>
      if Nat.eqb k k' then (k', v) :: o' else (k', v') :: setN o' k v
  end.

(** [array[i] = v] for an index inside the array. *)
Fixpoint upd {A} (l : list A) (i : nat) (v : A) : list A :=
  match l, i with
  | [], _ => []
  | _ :: t, O => v :: t
  | h :: t, S j => h :: upd t j v
  end.

End JS.

(* ------------------------------------------------------------------ *)
(** ** The board ([types.ts], [Board.ts]) *)

Record Cell := mkCell {
  row : nat;
  col : nat;
  isMine : bool;
  adjacentMines : Z;
  isRevealed : bool;
  isFlagged : bool
}.

Record Board := mkBoard {
  rows : nat;
  cols : nat;
  boardMines : nat;
  boardCells : list (list Cell);
  minesGenerated : bool
}.

(** Rendering of a natural number by a template literal. *)
Definition natToString (n : nat) : string :=
  NilEmpty.string_of_uint (Nat.to_uint n).

Definition cellKey (r c : nat) : string :=
  (natToString r ++ "," ++ natToString c)%string.

Definition isValidCell (b : Board) (r c : Z) : bool :=
  ((0 <=? r) && (r <? Z.of_nat (rows b)) &&
   (0 <=? c) && (c <? Z.of_nat (cols b)))%Z.

(** [board.cells[row][col]]; [None] is [undefined]. *)
Definition cellAt (b : Board) (r c : nat) : option Cell :=
  match nth_error (boardCells b) r with
  | Some line => nth_error line c
  | None => None
  end.

Definition getCell (b : Board) (r c : Z) : option Cell :=
  if isValidCell b r c then cellAt b (Z.to_nat r) (Z.to_nat c) else None.

Definition directions : list (Z * Z) :=
  [(-1, -1); (-1, 0); (-1, 1);
   (0, -1);           (0, 1);
   (1, -1);  (1, 0);  (1, 1)]%Z.

(** On a board whose [cells] array has the declared shape every valid
    position holds a cell; a missing one contributes nothing here. *)
Definition getNeighbors (b : Board) (r c : nat) : list Cell :=
  flat_map
    (fun d : Z * Z =>
       let newRow := (Z.of_nat r + fst d)%Z in
       let newCol := (Z.of_nat c + snd d)%Z in
       if isValidCell b newRow newCol then
         match cellAt b (Z.to_nat newRow) (Z.to_nat newCol) with
         | Some n => [n]
         | None => []
         end
       else [])
    directions.

(** Shape invariant established by [initializeBoard] and kept by every
    method of the class: [rows] lines of [cols] cells, each cell carrying
    its own coordinates. *)
Definition wfLine (r : nat) (cs : nat) (line : list Cell) : bool :=
  (length line =? cs) &&
  forallb (fun p : nat * Cell => (row (snd p) =? r) && (col (snd p) =? fst p))
          (combine (seq 0 cs) line).

Definition wfBoard (b : Board) : bool :=
  (length (boardCells b) =? rows b) &&
  forallb (fun p : nat * list Cell => wfLine (fst p) (cols b) (snd p))
          (combine (seq 0 (rows b)) (boardCells b)).

(* ------------------------------------------------------------------ *)
(** ** Constraints and their extraction *)

Record Constraint := mkConstraint {
  cells : list string;
  mines : Z
}.

Definition isUnknown (n : Cell) : bool :=
  negb (isRevealed n) && negb (isFlagged n).

Definition keyOf (n : Cell) : string := cellKey (row n) (col n).

(** Body of the double scan loop for one position. *)
Definition scanCell (b : Board) (acc : list string * list Constraint)
           (r c : nat) : list string * list Constraint :=
  match getCell b (Z.of_nat r) (Z.of_nat c) with
  | None => acc
  | Some cell =>
      let unrevealed :=
        if negb (isRevealed cell) && negb (isFlagged cell)
        then JS.add (fst acc) (cellKey r c) else fst acc in
      let constraints :=
        if isRevealed cell && (0 <? adjacentMines cell)%Z then
          let neighbors := getNeighbors b r c in
          let unknown := filter isUnknown neighbors in
          let flagged := filter isFlagged neighbors in
          let remainingMines :=
            (adjacentMines cell - Z.of_nat (length flagged))%Z in
          if (0 <? length unknown) && (0 <=? remainingMines)%Z then
            snd acc ++ [mkConstraint (map keyOf unknown) remainingMines]
          else snd acc
        else snd acc in
      (unrevealed, constraints)
  end.

Definition positions (b : Board) : list (nat * nat) :=
  list_prod (seq 0 (rows b)) (seq 0 (cols b)).

Definition extract (b : Board) : list string * list Constraint :=
  fold_left (fun acc p => scanCell b acc (fst p) (snd p)) (positions b) ([], []).

(* ------------------------------------------------------------------ *)
(** ** Iterative propagation *)

(** The two known sets together with the [changed] flag of the pass. *)
Record Known := mkKnown {
  knownSafe : list string;
  knownMines : list string;
  changed : bool
}.

Definition addSafe (k : Known) (key : string) : Known :=
  mkKnown (knownSafe k ++ [key]) (knownMines k) true.

Definition addMine (k : Known) (key : string) : Known :=
  mkKnown (knownSafe k) (knownMines k ++ [key]) true.

(** Inner loop over [constraint.cells]: drops known cells, counts the
    known mines among them. *)
Fixpoint narrow (k : Known) (keys : list string) (minesLeft : Z)
  : list string * Z :=
  match keys with
  | [] => ([], minesLeft)
  | key :: rest =>
      if JS.has (knownSafe k) key then narrow k rest minesLeft
      else if JS.has (knownMines k) key then narrow k rest (minesLeft - 1)
      else let r := narrow k rest minesLeft in (key :: fst r, snd r)
  end.

(** Basic deductions ([if (!knownSafe.has(key))], [if (!knownMines.has(key))]). *)
Definition basicSafe (k : Known) (key : string) : Known :=
  if JS.has (knownSafe k) key then k else addSafe k key.

Definition basicMine (k : Known) (key : string) : Known :=
  if JS.has (knownMines k) key then k else addMine k key.

(** Body of [for (const constraint of constraints)]: the constraint is
    overwritten by its narrowed form. *)
Definition processConstraint (k : Known) (c : Constraint) : Known * Constraint :=
  let r := narrow k (cells c) (mines c) in
  let remainingCells := fst r in
  let minesLeft := Z.max 0 (snd r) in
  let c' := mkConstraint remainingCells minesLeft in
  if length remainingCells =? 0 then (k, c')
  else if (minesLeft =? 0)%Z then (fold_left basicSafe remainingCells k, c')
  else if (minesLeft =? Z.of_nat (length remainingCells))%Z
       then (fold_left basicMine remainingCells k, c')
  else (k, c').

Fixpoint narrowAll (k : Known) (cs : list Constraint) : Known * list Constraint :=
  match cs with
  | [] => (k, [])
  | c :: rest =>
      let r1 := processConstraint k c in
      let r2 := narrowAll (fst r1) rest in
      (fst r2, snd r1 :: snd r2)
  end.

(** Immediate deductions of the subset analysis (both sets are consulted). *)
Definition subsetSafe (k : Known) (key : string) : Known :=
  if negb (JS.has (knownSafe k) key) && negb (JS.has (knownMines k) key)
  then addSafe k key else k.

Definition subsetMine (k : Known) (key : string) : Known :=
  if negb (JS.has (knownMines k) key) && negb (JS.has (knownSafe k) key)
  then addMine k key else k.

(** The predicate passed to [derivedConstraints.some]. *)
Definition sameDerived (difference : list string) (diffMines : Z)
           (dc : Constraint) : bool :=
  if negb (length (cells dc) =? length difference)
     || negb (mines dc =? diffMines)%Z
  then false
  else forallb (fun c => JS.has difference c) (cells dc).

Definition maxCompare : nat := 50.

(** Body of the inner loop over [j] for a fixed non-empty [c1 = constraints[i]]. *)
Definition subsetPair (cs : list Constraint) (i : nat) (c1 : Constraint)
           (st : Known * list Constraint) (j : nat) : Known * list Constraint :=
  if i =? j then st else
  match nth_error cs j with
  | None => st
  | Some c2 =>
      if length (cells c2) =? 0 then st else
      let c1IsSubsetOfC2 := forallb (JS.has (cells c2)) (cells c1) in
      if c1IsSubsetOfC2 && (length (cells c1) <? length (cells c2)) then
        let difference :=
          filter (fun cell => negb (JS.has (cells c1) cell)) (cells c2) in
        let diffMines := (mines c2 - mines c1)%Z in
        if (0 <? length difference) && (0 <=? diffMines)%Z then
          if (diffMines =? 0)%Z then
            (fold_left subsetSafe difference (fst st), snd st)
          else if (diffMines =? Z.of_nat (length difference))%Z then
            (fold_left subsetMine difference (fst st), snd st)
          else if existsb (sameDerived difference diffMines) (snd st) then st
          else (fst st, snd st ++ [mkConstraint difference diffMines])
        else st
      else st
  end.

(** Body of the outer loop over [i]. *)
Definition subsetFor (cs : list Constraint) (st : Known * list Constraint)
           (i : nat) : Known * list Constraint :=
  match nth_error cs i with
  | None => st
  | Some c1 =>
      if length (cells c1) =? 0 then st
      else fold_left (subsetPair cs i c1) (seq 0 (length cs)) st
  end.

Definition subsetAnalysis (cs : list Constraint) (k : Known)
  : Known * list Constraint :=
  fold_left (subsetFor cs) (seq 0 (Nat.min (length cs) maxCompare)) (k, []).

Record PState := mkPState {
  constraints : list Constraint;
  known : Known
}.

(** One iteration of the [while] loop. *)
Definition pass (st : PState) : PState :=
  let k0 := mkKnown (knownSafe (known st)) (knownMines (known st)) false in
  let r1 := narrowAll k0 (constraints st) in
  let r2 := subsetAnalysis (snd r1) (fst r1) in
  let derivedConstraints := snd r2 in
  if 0 <? length derivedConstraints then
    mkPState (snd r1 ++ derivedConstraints)
             (mkKnown (knownSafe (fst r2)) (knownMines (fst r2)) true)
  else mkPState (snd r1) (fst r2).

Definition maxIterations : nat := 100.

(** [while (changed && iterations < maxIterations)]; [fuel] is
    [maxIterations - iterations]. *)
Fixpoint propagateLoop (fuel : nat) (st : PState) : PState :=
  match fuel with
  | O => st
  | S fuel' => if changed (known st) then propagateLoop fuel' (pass st) else st
  end.

Definition propagate (cs : list Constraint) : PState :=
  propagateLoop maxIterations (mkPState cs (mkKnown [] [] true)).

(* ------------------------------------------------------------------ *)
(** ** Partitioning with union-find *)

Definition obind {A B} (o : option A) (f : A -> option B) : option B :=
  match o with
  | Some a => f a
  | None => None
  end.

Notation "x <- e ;; k" := (obind e (fun x => k))
  (at level 61, e at next level, right associativity).

(** [cellToConstraints.get(cell).push(idx)], creating the entry if needed. *)
Definition pushIdx (m : JS.Obj (list nat)) (idx : nat) (cell : string)
  : JS.Obj (list nat) :=
  match JS.get m cell with
  | None => JS.set m cell [idx]
  | Some l => JS.set m cell (l ++ [idx])
  end.

Definition indexed {A} (l : list A) : list (nat * A) :=
  combine (seq 0 (length l)) l.

Definition cellToConstraints (cs : list Constraint) : JS.Obj (list nat) :=
  fold_left (fun m p => fold_left (fun m' cell => pushIdx m' (fst p) cell)
                                  (cells (snd p)) m)
            (indexed cs) [].

(** [find] with path compression; returns the updated [parent] array and
    the root.  [None]: fuel exhausted or index outside the array. *)
Fixpoint findFuel (fuel : nat) (parent : list nat) (x : nat)
  : option (list nat * nat) :=
  match fuel with
  | O => None
  | S fuel' =>
      px <- nth_error parent x ;;
      if px =? x then Some (parent, x)
      else
        r <- findFuel fuel' parent px ;;
        Some (JS.upd (fst r) x (snd r), snd r)
  end.

Definition find (parent : list nat) (x : nat) : option (list nat * nat) :=
  findFuel (length parent) parent x.

Definition union (parent : list nat) (x y : nat) : option (list nat) :=
  rx <- find parent x ;;
  ry <- find (fst rx) y ;;
  Some (if snd rx =? snd ry then fst ry else JS.upd (fst ry) (snd rx) (snd ry)).

(** [for (let i = 1; i < constraintIndices.length; i++) union(ci[0], ci[i])]. *)
Definition unionIndices (parent : option (list nat)) (constraintIndices : list nat)
  : option (list nat) :=
  match constraintIndices with
  | [] => parent
  | first :: others =>
      fold_left (fun po i => p <- po ;; union p first i) others parent
  end.

Definition unionAll (cs : list Constraint) : option (list nat) :=
  fold_left unionIndices (map snd (cellToConstraints cs))
            (Some (seq 0 (length cs))).

(** Body of the grouping [forEach]. *)
Definition groupStep (st : option (list nat * list (nat * list Constraint)))
           (p : nat * Constraint)
  : option (list nat * list (nat * list Constraint)) :=
  s <- st ;;
  r <- find (fst s) (fst p) ;;
  let root := snd r in
  let groups := snd s in
  Some (fst r,
        match JS.getN groups root with
        | None => JS.setN groups root [snd p]
        | Some g => JS.setN groups root (g ++ [snd p])
        end).

Definition partitionConstraints (cs : list Constraint)
  : option (list (list Constraint)) :=
  if length cs =? 0 then Some []
  else
    parent <- unionAll cs ;;
    s <- fold_left groupStep (indexed cs) (Some (parent, [])) ;;
    Some (map snd (snd s)).

(* ------------------------------------------------------------------ *)
(** ** Exhaustive enumeration *)

(** [for (let i = 0; i < n; i++) if (mask & (1 << i)) mines.push(cells[i])]. *)
Definition assignment (cellArray : list string) (mask : N) : list string :=
  map snd (filter (fun p : nat * string => N.testbit mask (N.of_nat (fst p)))
                  (indexed cellArray)).

Definition mineCount (mineSet : list string) (c : Constraint) : Z :=
  Z.of_nat (length (filter (JS.has mineSet) (cells c))).

Definition validAssignment (group : list Constraint) (mineSet : list string) : bool :=
  forallb (fun c => (mineCount mineSet c =? mines c)%Z) group.

Definition maxSolutions : N := 10000.

(** The loop over [mask]; [todo] masks remain, starting at [mask]. *)
Fixpoint solveLoop (cellArray : list string) (group : list Constraint)
         (todo : nat) (mask : N) (solutions : list (list string))
  : list (list string) :=
  match todo with
  | O => solutions
  | S todo' =>
      if (maxSolutions <=? N.of_nat (length solutions))%N then solutions
      else
        let mineSet := assignment cellArray mask in
        solveLoop cellArray group todo' (N.succ mask)
                  (if validAssignment group mineSet
                   then solutions ++ [mineSet] else solutions)
  end.

Definition solveConstraints (cellArray : list string) (group : list Constraint)
  : list (list string) :=
  let n := length cellArray in
  let maxCombinations := (2 ^ N.of_nat n)%N in
  if (1048576 <? maxCombinations)%N then []
  else solveLoop cellArray group (N.to_nat maxCombinations) 0%N [].

(* ------------------------------------------------------------------ *)
(** ** Probabilities *)

Definition ProbabilityMap := JS.Obj Q.

Definition clamp01 (q : Q) : Q := Qmax 0%Q (Qmin 1%Q q).

Definition ofNat (n : nat) : Q := inject_Z (Z.of_nat n).

Definition groupCells (group : list Constraint) : list string :=
  fold_left (fun s c => JS.addAll s (cells c)) group [].

(** [mineCounts[key]++] for a key that has an entry. *)
Definition bump (mineCounts : JS.Obj nat) (key : string) : JS.Obj nat :=
  match JS.get mineCounts key with
  | Some n => JS.set mineCounts key (S n)
  | None => mineCounts
  end.

Definition countMines (cellArray : list string) (solutions : list (list string))
  : JS.Obj nat :=
  fold_left (fun mc solution => fold_left bump solution mc) solutions
            (fold_left (fun mc key => JS.set mc key 0) cellArray []).

Definition getOr {V} (o : JS.Obj V) (k : string) (d : V) : V :=
  match JS.get o k with
  | Some v => v
  | None => d
  end.

(** Branch for groups of at most 20 cells. *)
Definition solveExact (result : ProbabilityMap) (cellArray : list string)
           (group : list Constraint) : ProbabilityMap :=
  let solutions := solveConstraints cellArray group in
  if 0 <? length solutions then
    let mineCounts := countMines cellArray solutions in
    fold_left (fun res key =>
                 JS.set res key (ofNat (getOr mineCounts key 0%nat)
                                 / ofNat (length solutions))%Q)
              cellArray result
  else
    fold_left (fun res key => JS.set res key (1 # 2)%Q) cellArray result.

(** Branch for larger groups: unweighted mean of the local ratios. *)
Definition averageStep (acc : JS.Obj Q * JS.Obj nat) (c : Constraint)
  : JS.Obj Q * JS.Obj nat :=
  let localProb := (inject_Z (mines c) / ofNat (length (cells c)))%Q in
  fold_left (fun a key =>
               (JS.set (fst a) key (getOr (fst a) key 0 + localProb)%Q,
                JS.set (snd a) key (S (getOr (snd a) key 0))))
            (cells c) acc.

Definition solveAverage (result : ProbabilityMap) (cellArray : list string)
           (group : list Constraint) : ProbabilityMap :=
  let sums := fold_left averageStep group ([], []) in
  fold_left (fun res key =>
               match JS.get res key with
               | Some _ => res
               | None =>
                   let average :=
                     match JS.get (snd sums) key with
                     | Some n =>
                         if 0 <? n then (getOr (fst sums) key 0 / ofNat n)%Q
                         else (1 # 2)%Q
                     | None => (1 # 2)%Q
                     end in
                   JS.set res key (clamp01 average)
               end)
            cellArray result.

(** Body of [for (const group of constraintGroups)]. *)
Definition solveGroup (result : ProbabilityMap) (group : list Constraint)
  : ProbabilityMap :=
  let cellArray := groupCells group in
  let n := length cellArray in
  if (0 <? n) && (n <=? 20) then solveExact result cellArray group
  else if 20 <? n then solveAverage result cellArray group
  else result.

Definition recordKnown (k : Known) : ProbabilityMap :=
  fold_left (fun res key => JS.set res key 1%Q) (knownMines k)
            (fold_left (fun res key => JS.set res key 0%Q) (knownSafe k) []).

Definition frontierOf (k : Known) (active : list Constraint) : list string :=
  fold_left (fun s c =>
               fold_left (fun s' key =>
                            if negb (JS.has (knownSafe k) key)
                               && negb (JS.has (knownMines k) key)
                            then JS.add s' key else s')
                         (cells c) s)
            active [].

(** Everything after the partitioning: the global budget, the cells
    outside every constraint, the final catch-all. *)
Definition fillRest (result : ProbabilityMap) (k : Known)
           (unrevealedCells frontierCells : list string) (minesRemaining : Z)
  : ProbabilityMap :=
  let minesLeftTotal :=
    Z.max 0 (minesRemaining - Z.of_nat (length (knownMines k))) in
  let expectedFrontierMines :=
    fold_left (fun s key => (s + getOr result key 0)%Q) frontierCells 0%Q in
  let nonFrontierCells :=
    filter (fun key => negb (JS.has frontierCells key)
                       && match JS.get result key with
                          | None => true
                          | Some _ => false
                          end)
           unrevealedCells in
  let result1 :=
    if 0 <? length nonFrontierCells then
      let nonFrontierMines :=
        Qmax 0 (inject_Z minesLeftTotal - expectedFrontierMines)%Q in
      let nonFrontierProb :=
        (nonFrontierMines / ofNat (length nonFrontierCells))%Q in
      fold_left (fun res key => JS.set res key (clamp01 nonFrontierProb))
                nonFrontierCells result
    else result in
  let baseProbability :=
    if 0 <? length unrevealedCells
    then (inject_Z minesLeftTotal / ofNat (length unrevealedCells))%Q
    else 0%Q in
  fold_left (fun res key =>
               match JS.get res key with
               | None => JS.set res key (clamp01 baseProbability)
               | Some _ => res
               end)
            unrevealedCells result1.

Definition activeOf (cs : list Constraint) : list Constraint :=
  filter (fun c => 0 <? length (cells c)) cs.

(** The part of [calculateProbabilities] that follows the extraction. *)
Definition probabilitiesFrom (unrevealedCells : list string)
           (cs : list Constraint) (minesRemaining : Z)
  : option ProbabilityMap :=
  let st := propagate cs in
  let k := known st in
  let result := recordKnown k in
  let activeConstraints := activeOf (constraints st) in
  let frontierCells := frontierOf k activeConstraints in
  constraintGroups <- partitionConstraints activeConstraints ;;
  let result' := fold_left solveGroup constraintGroups result in
  Some (fillRest result' k unrevealedCells frontierCells minesRemaining).

Definition calculateProbabilities (b : Board) (minesRemaining : Z)
  : option ProbabilityMap :=
  let e := extract b in
  probabilitiesFrom (fst e) (snd e) minesRemaining.

(* ------------------------------------------------------------------ *)
(** ** Definitive cells *)

(** [key.split(',')]. *)
Fixpoint splitComma (s : string) : list string :=
  match s with
  | EmptyString => [EmptyString]
  | String a s' =>
      if Ascii.eqb a ","%char then EmptyString :: splitComma s'
      else match splitComma s' with
           | [] => [String a EmptyString]
           | h :: t => String a h :: t
           end
  end.

(** [Number] on a string of decimal digits (the empty string is 0).  Any
    other string is outside the natural numbers handled here: [None]. *)
Definition Number (s : string) : option nat :=
  option_map Nat.of_uint (NilEmpty.uint_of_string s).

(** [const [row, col] = key.split(',').map(Number)]; a missing component
    is [None] as well. *)
Definition parseKey (key : string) : option nat * option nat :=
  let parts := map Number (splitComma key) in
  (nth 0 parts None, nth 1 parts None).

Record Definitive := mkDefinitive {
  safe : list (option nat * option nat);
  mineCells : list (option nat * option nat)
}.

Definition definitiveOf (probabilities : ProbabilityMap) : Definitive :=
  fold_left (fun d (e : string * Q) =>
               if Qeq_bool (snd e) 0%Q
               then mkDefinitive (safe d ++ [parseKey (fst e)]) (mineCells d)
               else if Qeq_bool (snd e) 1%Q
               then mkDefinitive (safe d) (mineCells d ++ [parseKey (fst e)])
               else d)
            probabilities (mkDefinitive [] []).

Definition getDefinitiveCells (b : Board) (minesRemaining : Z)
  : option Definitive :=
  option_map definitiveOf (calculateProbabilities b minesRemaining).

(* ------------------------------------------------------------------ *)
(** ** Board construction ([initializeBoard] and the helpers of the test suite) *)

(** [new MinesweeperBoard(rows, cols, mines)]. *)
Definition newBoard (rs cs ms : nat) : Board :=
  mkBoard rs cs ms
    (map (fun r => map (fun c => mkCell r c false 0 false false) (seq 0 cs))
         (seq 0 rs))
    false.

Definition mapCellAt (f : Cell -> Cell) (b : Board) (r c : nat) : Board :=
  mkBoard (rows b) (cols b) (boardMines b)
    (map (fun p : nat * list Cell =>
            if fst p =? r
            then map (fun q : nat * Cell => if fst q =? c then f (snd q) else snd q)
                     (indexed (snd p))
            else snd p)
         (indexed (boardCells b)))
    (minesGenerated b).

(** [setRevealed(board, row, col, adjacentMines)] of the test suite. *)
Definition setRevealed (b : Board) (r c : nat) (adj : Z) : Board :=
  match getCell b (Z.of_nat r) (Z.of_nat c) with
  | None => b
  | Some _ =>
      mapCellAt (fun x => mkCell (row x) (col x) (isMine x) adj true false) b r c
  end.

(* ------------------------------------------------------------------ *)
(** ** The remaining operations of [MinesweeperBoard] *)

(** [setMine]: the returned flag and the board after the call. *)
Definition setMine (b : Board) (r c : Z) : bool * Board :=
  if negb (isValidCell b r c) then (false, b)
  else (true,
        mapCellAt (fun x => mkCell (row x) (col x) true (adjacentMines x)
                                   (isRevealed x) (isFlagged x))
                  b (Z.to_nat r) (Z.to_nat c)).

Definition getAdjacentMineCount (b : Board) (r c : nat) : nat :=
  length (filter isMine (getNeighbors b r c)).

(** Body of the double loop of [calculateAdjacentMines]; the board is
    updated in place, cell by cell. *)
Definition adjacentStep (b : Board) (p : nat * nat) : Board :=
  match cellAt b (fst p) (snd p) with
  | None => b
  | Some cell =>
      if negb (isMine cell) then
        mapCellAt (fun x => mkCell (row x) (col x) (isMine x)
                                   (Z.of_nat (getAdjacentMineCount b (fst p) (snd p)))
                                   (isRevealed x) (isFlagged x))
                  b (fst p) (snd p)
      else b
  end.

Definition calculateAdjacentMines (b : Board) : Board :=
  fold_left adjacentStep (positions b) b.

Definition cellHas (f : Cell -> bool) (b : Board) (p : nat * nat) : bool :=
  match cellAt b (fst p) (snd p) with
  | Some cell => f cell
  | None => false
  end.

Definition getMineLocations (b : Board) : list (nat * nat) :=
  filter (cellHas isMine b) (positions b).

Definition getUnrevealedCount (b : Board) : nat :=
  length (filter (cellHas (fun cell => negb (isRevealed cell)) b) (positions b)).

Definition getForbiddenCells (b : Board) (r c : Z) : list string :=
  match getCell b r c with
  | None => []
  | Some _ =>
      fold_left (fun s n => JS.add s (cellKey (row n) (col n)))
                (getNeighbors b (Z.to_nat r) (Z.to_nat c))
                (JS.add [] (cellKey (Z.to_nat r) (Z.to_nat c)))
  end.

(* ================================================================== *)
(** * Specification vocabulary *)

(** Two constraints share a cell. *)
Definition shares (c1 c2 : Constraint) : Prop :=
  exists key, In key (cells c1) /\ In key (cells c2).

(** A string without a comma. *)
Definition noComma (s : string) : Prop :=
  forall a, In a (list_ascii_of_string s) -> a <> ","%char.

(** The known-safe and known-mine sets have no common member. *)
Definition disjointKnown (k : Known) : Prop :=
  forall key, In key (knownSafe k) -> In key (knownMines k) -> False.

(** [k'] extends [k]: both sets only grow. *)
Definition extendsKnown (k k' : Known) : Prop :=
  incl (knownSafe k) (knownSafe k') /\ incl (knownMines k) (knownMines k').

(** A cell that is in neither known set. *)
Definition unresolved (k : Known) (key : string) : bool :=
  negb (JS.has (knownSafe k) key) && negb (JS.has (knownMines k) key).

(** State of the [while] loop after [n] iterations. *)
Definition afterPasses (cs : list Constraint) (n : nat) : PState :=
  Nat.iter n pass (mkPState cs (mkKnown [] [] true)).

(** Result of the first inner loop of a pass started in state [st]. *)
Definition narrowed (st : PState) : Known * list Constraint :=
  narrowAll (mkKnown (knownSafe (known st)) (knownMines (known st)) false)
            (constraints st).

(** The program points of the propagation at which the known sets can be
    observed: between two passes, after each constraint of the narrowing
    loop and after each key of its deduction loops, after each pair of the
    subset analysis and after each key of its deduction loops. *)
Inductive point (cs0 : list Constraint) : Known -> Prop :=
| pt_pass n :
    point cs0 (known (afterPasses cs0 n))
| pt_constraint n m :
    let st := afterPasses cs0 n in
    point cs0
      (fst (narrowAll (mkKnown (knownSafe (known st)) (knownMines (known st)) false)
                      (firstn m (constraints st))))
| pt_basic_key n m c j :
    let st := afterPasses cs0 n in
    let k := fst (narrowAll (mkKnown (knownSafe (known st))
                                     (knownMines (known st)) false)
                            (firstn m (constraints st))) in
    nth_error (constraints st) m = Some c ->
    let remainingCells := fst (narrow k (cells c) (mines c)) in
    point cs0 (fold_left (if (Z.max 0 (snd (narrow k (cells c) (mines c))) =? 0)%Z
                          then basicSafe else basicMine)
                         (firstn j remainingCells) k)
| pt_pair n i j c1 :
    let st := afterPasses cs0 n in
    let cs := snd (narrowed st) in
    nth_error cs i = Some c1 ->
    point cs0
      (fst (fold_left (subsetPair cs i c1) (seq 0 j)
                      (fold_left (subsetFor cs) (seq 0 i) (fst (narrowed st), []))))
| pt_subset_key n i j c1 c2 m :
    let st := afterPasses cs0 n in
    let cs := snd (narrowed st) in
    nth_error cs i = Some c1 ->
    nth_error cs j = Some c2 ->
    let k := fst (fold_left (subsetPair cs i c1) (seq 0 j)
                   (fold_left (subsetFor cs) (seq 0 i) (fst (narrowed st), []))) in
    let difference :=
      filter (fun cell => negb (JS.has (cells c1) cell)) (cells c2) in
    point cs0 (fold_left (if (mines c2 - mines c1 =? 0)%Z
                          then subsetSafe else subsetMine)
                         (firstn m difference) k).

(** Structural identity as tested by the deduplication: same number of
    cells, same mine count, every cell of the first among the cells of the
    second. *)
Definition identical (c d : Constraint) : Prop :=
  length (cells c) = length (cells d) /\ mines c = mines d /\
  incl (cells c) (cells d).

(** [c1]'s cell set is a strict subset of [c2]'s. *)
Definition strictSubset (c1 c2 : Constraint) : Prop :=
  incl (cells c1) (cells c2) /\ ~ incl (cells c2) (cells c1).

(** [c2.cells - c1.cells] with [c2.mines - c1.mines]. *)
Definition differenceOf (c1 c2 : Constraint) : Constraint :=
  mkConstraint (filter (fun cell => negb (JS.has (cells c1) cell)) (cells c2))
               (mines c2 - mines c1).

(** The difference constraint of the pair has been derived: its immediate
    deduction has been applied (every cell of the difference is resolved,
    into the deduced set unless it was already in the other one), or a
    structurally identical constraint is among the derived ones. *)
Definition derivedFrom (c1 c2 : Constraint) (r : Known * list Constraint) : Prop :=
  let d := differenceOf c1 c2 in
  if (mines d =? 0)%Z then
    forall key, In key (cells d) ->
                In key (knownSafe (fst r)) \/ In key (knownMines (fst r))
  else if (mines d =? Z.of_nat (length (cells d)))%Z then
    forall key, In key (cells d) ->
                In key (knownMines (fst r)) \/ In key (knownSafe (fst r))
  else exists dc, In dc (snd r) /\ identical dc d.

(** The subset analysis of the pass that follows [n] completed passes. *)
Definition subsetPhase (cs0 : list Constraint) (n : nat) : Known * list Constraint :=
  let st := afterPasses cs0 n in
  subsetAnalysis (snd (narrowed st)) (fst (narrowed st)).

(** The reading of "no ordered pair is skipped": in every pass every
    strict-subset pair of the current list has its difference derived. *)
Definition everyPairDerived (cs0 : list Constraint) : Prop :=
  forall n i j c1 c2,
    let cs := snd (narrowed (afterPasses cs0 n)) in
    i <> j -> nth_error cs i = Some c1 -> nth_error cs j = Some c2 ->
    strictSubset c1 c2 ->
    derivedFrom c1 c2 (subsetPhase cs0 n).

(** The reading of "never two structurally identical derived constraints":
    beyond the [n0] extracted constraints, no two entries of the list are
    structurally identical. *)
Definition noIdenticalDerived (n0 : nat) (cs : list Constraint) : Prop :=
  forall i j ci cj,
    n0 <= i -> i < j ->
    nth_error cs i = Some ci -> nth_error cs j = Some cj ->
    ~ identical ci cj.

(** Order on the states of the subset analysis: known sets and derived
    list only grow. *)
Definition extendsState (s s' : Known * list Constraint) : Prop :=
  extendsKnown (fst s) (fst s') /\ incl (snd s) (snd s').

(** The board of the subset-derivation scenario: a revealed middle row
    between two hidden rows. *)
Definition boardThreeRows : Board :=
  setRevealed (setRevealed (setRevealed (newBoard 3 3 2) 1 0 1) 1 1 2) 1 2 1.

(** A row of [n] blocks "revealed 1, hidden, revealed 1": [2 n] constraints
    on [n] isolated hidden cells. *)
Fixpoint revealBlocks (b : Board) (r n : nat) : Board :=
  match n with
  | O => b
  | S n' =>
      setRevealed (setRevealed (revealBlocks b r n') r (3 * n') 1)
                  r (3 * n' + 2) 1
  end.

Fixpoint revealZeros (b : Board) (r : nat) (cs : list nat) : Board :=
  match cs with
  | [] => b
  | c :: cs' => setRevealed (revealZeros b r cs') r c 0
  end.

(** A 4 x 75 board: fifty constraints from the first row, a row of
    revealed zeros, then two clues over the hidden cells (3,0), (3,1) and
    (3,0), (3,1), (3,2). *)
Definition boardFiftyTwo : Board :=
  let b0 := revealBlocks (newBoard 4 75 26) 0 25 in
  let b1 := revealZeros b0 1 (seq 0 75) in
  let b2 := revealZeros (setRevealed (setRevealed b1 2 0 1) 2 1 1) 2 (seq 2 73) in
  revealZeros b2 3 (seq 3 72).

(** No entry of the list is structurally identical to a later one. *)
Definition pairwiseDistinct (l : list Constraint) : Prop :=
  forall i j di dj,
    i < j -> nth_error l i = Some di -> nth_error l j = Some dj ->
    ~ identical di dj.

(** Neither deduction applies to the constraint: its mine count is
    neither 0 nor the number of its cells. *)
Definition undecided (c : Constraint) : Prop :=
  mines c <> 0%Z /\ mines c <> Z.of_nat (length (cells c)).

(** [x] reaches the root [r] of its tree in [k] parent steps. *)
Inductive path (p : list nat) : nat -> nat -> nat -> Prop :=
| path_root x : nth_error p x = Some x -> path p x x 0
| path_step x y r k :
    nth_error p x = Some y -> y <> x -> path p y r k -> path p x r (S k).

Definition rootOf (p : list nat) (x r : nat) : Prop := exists k, path p x r k.

(** Every index of the array leads to a root. *)
Definition rooted (p : list nat) : Prop :=
  forall x, x < length p -> exists r, rootOf p x r.

Definition sameClass (p : list nat) (a b : nat) : Prop :=
  exists r, rootOf p a r /\ rootOf p b r.

(** Two constraints of the list are connected by a chain of constraints
    of the list in which neighbours share a cell. *)
Inductive linked (cs : list Constraint) : Constraint -> Constraint -> Prop :=
| linked_refl c : In c cs -> linked cs c c
| linked_step c1 c2 c3 :
    In c1 cs -> In c2 cs -> shares c1 c2 -> linked cs c2 c3 -> linked cs c1 c3.

(** The constraints at two indices of the list are linked. *)
Definition connIdx (cs : list Constraint) (i j : nat) : Prop :=
  exists ci cj, nth_error cs i = Some ci /\ nth_error cs j = Some cj /\
                linked cs ci cj.

(** A parent array over the indices of [cs] that is a forest and only
    joins linked constraints. *)
Definition goodParent (cs : list Constraint) (p : list nat) : Prop :=
  length p = length cs /\ rooted p /\
  forall a b, sameClass p a b -> connIdx cs a b.

(** Every entry already in the cell map stays, possibly extended. *)
Definition extendsMap (m m' : JS.Obj (list nat)) : Prop :=
  forall cell idxs i, JS.get m cell = Some idxs -> In i idxs ->
                      exists idxs', JS.get m' cell = Some idxs' /\ In i idxs'.

(** Step relation of the union loops: from a good parent array the loop
    produces a good parent array with coarser classes. *)
Definition coarsens (cs : list Constraint) (po po' : option (list nat)) : Prop :=
  forall p, po = Some p -> goodParent cs p ->
            exists p', po' = Some p' /\ goodParent cs p' /\
                       forall a b, sameClass p a b -> sameClass p' a b.

(** State of the grouping loop after the entries [done] of [indexed cs]:
    the roots of [p0] are kept, group keys are distinct roots, each group
    holds constraints whose index has that root, and the groups hold the
    processed constraints exactly once each. *)
Definition groupsInv (p0 : list nat) (done : list (nat * Constraint))
           (s : list nat * list (nat * list Constraint)) : Prop :=
  length (fst s) = length p0 /\
  (forall y r, rootOf p0 y r -> rootOf (fst s) y r) /\
  NoDup (map fst (snd s)) /\
  (forall r g c, In (r, g) (snd s) -> In c g ->
                 exists idx, In (idx, c) done /\ rootOf p0 idx r) /\
  Permutation (concat (map snd (snd s))) (map snd done).

(** The indices recorded for one cell: all inside the list and pairwise
    linked. *)
Definition okIndices (cs : list Constraint) (idxs : list nat) : Prop :=
  forall i j, In i idxs -> In j idxs ->
              i < length cs /\ j < length cs /\ connIdx cs i j.

(** All subsets of a list of cells, each as the sub-list of its members. *)
Fixpoint subsets (l : list string) : list (list string) :=
  match l with
  | [] => [[]]
  | x :: l' => flat_map (fun s => [s; x :: s]) (subsets l')
  end.

(** An assignment satisfies a constraint when the number of the
    constraint's cells it marks as mines is the constraint's mine count,
    and a group when it satisfies each of its constraints. *)
Definition satisfies (mineSet : list string) (group : list Constraint) : Prop :=
  forall c, In c group ->
            Z.of_nat (length (filter (fun key => JS.has mineSet key) (cells c)))
            = mines c.

(** The satisfying assignments of a group over its cells, and how many
    of a list of assignments mark a given cell. *)
Definition satisfying (cellArray : list string) (group : list Constraint)
  : list (list string) :=
  filter (validAssignment group) (subsets cellArray).

Definition minesOn (key : string) (solutions : list (list string)) : nat :=
  length (filter (fun s => JS.has s key) solutions).

(** The masks [mask, mask + todo) in increasing order. *)
Fixpoint masksFrom (mask : N) (todo : nat) : list N :=
  match todo with
  | O => []
  | S todo' => mask :: masksFrom (N.succ mask) todo'
  end.

(** [assignment] with the indices of the cells starting at [s]. *)
Definition assignmentFrom (s : nat) (l : list string) (mask : N) : list string :=
  map snd (filter (fun p : nat * string => N.testbit mask (N.of_nat (fst p)))
                  (combine (seq s (length l)) l)).

(** [maxSolutions] as a length. *)
Definition cap : nat := N.to_nat maxSolutions.

(** A probability. *)
Definition inUnit (q : Q) : Prop := (0 <= q /\ q <= 1)%Q.

Definition allInUnit (res : ProbabilityMap) : Prop :=
  forall key v, In (key, v) res -> inUnit v.

(** Body of the loops that give a value only to keys without one. *)
Definition setIfMissing {V} (f : string -> V) (res : JS.Obj V) (key : string)
  : JS.Obj V :=
  match JS.get res key with
  | Some _ => res
  | None => JS.set res key (f key)
  end.

(** The key of a hidden, unflagged cell of the board. *)
Definition unknownKey (b : Board) (key : string) : Prop :=
  exists r c cell,
    r < rows b /\ c < cols b /\ cellAt b r c = Some cell /\
    isUnknown cell = true /\ key = cellKey r c.

(** All cells of the constraints lie in the set [u]. *)
Definition cellsWithin (u : list string) (cs : list Constraint) : Prop :=
  forall c key, In c cs -> In key (cells c) -> In key u.

Definition knownWithin (u : list string) (k : Known) : Prop :=
  incl (knownSafe k) u /\ incl (knownMines k) u.

(** The value written by the averaging branch. *)
Definition averageOf (group : list Constraint) (key : string) : Q :=
  let sums := fold_left averageStep group ([], []) in
  clamp01 match JS.get (snd sums) key with
          | Some n =>
              if 0 <? n then (getOr (fst sums) key 0 / ofNat n)%Q else (1 # 2)%Q
          | None => (1 # 2)%Q
          end.

(** The value written by the exhaustive branch when there are solutions. *)
Definition exactRatio (cellArray : list string) (group : list Constraint)
           (key : string) : Q :=
  (ofNat (getOr (countMines cellArray (solveConstraints cellArray group)) key 0%nat)
   / ofNat (length (solveConstraints cellArray group)))%Q.

(** The components the solver works on: the groups of the constraints
    that still have cells after propagation. *)
Definition componentsOf (cs : list Constraint) : option (list (list Constraint)) :=
  partitionConstraints (activeOf (constraints (propagate cs))).

(** The board of the shared-clue scenario of the test suite: the clue at
    (0,0) covers (1,0) and (1,1), the clue at (2,0) covers them and (2,1). *)
Definition boardSharedClue : Board :=
  setRevealed (setRevealed (setRevealed (newBoard 3 2 1) 0 0 1) 0 1 0) 2 0 1.

(** A clue that asks for two mines among one hidden cell. *)
Definition boardOverClue : Board := setRevealed (newBoard 1 2 2) 0 0 2.

Fixpoint revealAlternate (b : Board) (r start n : nat) (adj : Z) : Board :=
  match n with
  | O => b
  | S n' => setRevealed (revealAlternate b r start n' adj) r (start + 2 * n') adj
  end.

(** A single row of 276 cells: fifty clues on isolated hidden cells, a
    clue "2" at column 75 next to the hidden cell (0,76), then hidden cells
    at the even columns 76, 78, ..., 274 alternating with clues "1"; the
    last clue, at column 275, sees one hidden cell only, and its deduction
    travels leftwards by one cell per pass. *)
Definition boardLongChain : Board :=
  revealAlternate
    (setRevealed (revealBlocks (newBoard 1 276 126) 0 25) 0 75 2)
    0 77 100 1.

(** The reading of certainty soundness: whenever a constraint of the
    propagated list has as many mines as cells, its cells get exactly 1,
    and when it has no mine they get exactly 0. *)
Definition certaintyHolds (b : Board) (minesRemaining : Z) : Prop :=
  forall c key res,
    In c (constraints (propagate (snd (extract b)))) -> In key (cells c) ->
    calculateProbabilities b minesRemaining = Some res ->
    (mines c = Z.of_nat (length (cells c)) ->
     exists p, JS.get res key = Some p /\ (p == 1)%Q) /\
    (mines c = 0%Z -> exists p, JS.get res key = Some p /\ (p == 0)%Q).

(** The same row with a revealed zero at column 75: the cell (0,76) is
    only covered by the clue at column 77. *)
Definition boardLongChainFree : Board :=
  revealAlternate
    (setRevealed (revealBlocks (newBoard 1 276 125) 0 25) 0 75 0)
    0 77 100 1.

(** The cell at a position next to (r, c), diagonals included. *)
Definition adjacent (r c r' c' : nat) : Prop :=
  (r' <= r + 1 /\ r <= r' + 1) /\ (c' <= c + 1 /\ c <= c' + 1) /\
  (r', c') <> (r, c).

(** Two boards with the same dimensions and the same mines. *)
Definition sameMines (b b' : Board) : Prop :=
  rows b' = rows b /\ cols b' = cols b /\
  forall r c, option_map isMine (cellAt b' r c) = option_map isMine (cellAt b r c).

(** A step that either reports a change or leaves both known sets as
    they were. *)
Definition quiet (k k' : Known) : Prop :=
  changed k' = false ->
  knownSafe k' = knownSafe k /\ knownMines k' = knownMines k /\
  changed k = false.

(** The cells mentioned by a list of constraints. *)
Definition cellsOf (cs : list Constraint) : list string := flat_map cells cs.

(** Number of times [key] occurs among the cells of the constraints. *)
Definition hits (group : list Constraint) (key : string) : nat :=
  fold_right (fun c n => count_occ string_dec (cells c) key + n) 0 group.

(** Sum, over the occurrences of [key], of the local ratio mines / cells
    of the constraint it occurs in. *)
Definition ratioSum (group : list Constraint) (key : string) : Q :=
  fold_right (fun c q =>
                (ofNat (count_occ string_dec (cells c) key)
                 * (inject_Z (mines c) / ofNat (length (cells c))) + q)%Q)
             0%Q group.

(** A mine layout says of every key whether it holds a mine.  The number
    of mines it puts on a list of cells, the constraints it makes true,
    and the known sets it agrees with. *)
Definition minesIn (M : string -> bool) (keys : list string) : Z :=
  Z.of_nat (length (filter M keys)).

Definition holds (M : string -> bool) (c : Constraint) : Prop :=
  minesIn M (cells c) = mines c.

Definition agrees (M : string -> bool) (k : Known) : Prop :=
  (forall key, In key (knownMines k) -> M key = true) /\
  (forall key, In key (knownSafe k) -> M key = false).

Definition soundFor (M : string -> bool) (cs : list Constraint) : Prop :=
  forall c, In c cs -> NoDup (cells c) /\ holds M c.

(** The mine layout of a board, read through the cell keys. *)
Definition layoutOf (b : Board) (key : string) : bool :=
  match parseKey key with
  | (Some r, Some c) => cellHas isMine b (r, c)
  | _ => false
  end.

(** A board that shows the truth: a flag only stands on a mine, a
    revealed cell without a flag holds no mine, and a revealed positive
    number is the number of mines around its cell. *)
Definition truthful (b : Board) : Prop :=
  forall r c cell, cellAt b r c = Some cell ->
    (isFlagged cell = true -> isMine cell = true) /\
    (isRevealed cell = true -> isFlagged cell = false -> isMine cell = false) /\
    (isRevealed cell = true -> (0 < adjacentMines cell)%Z ->
     adjacentMines cell = Z.of_nat (getAdjacentMineCount b r c)).

(** A one-row board with a mine under the hidden cell and the clue 1
    beside it. *)
Definition boardOneMine : Board :=
  setRevealed (snd (setMine (newBoard 1 2 1) 0 1)) 0 0 1.

(** The state of the subset analysis is right about a layout. *)
Definition soundState (M : string -> bool) (st : Known * list Constraint) : Prop :=
  agrees M (fst st) /\ soundFor M (snd st).

(** A one-row board with the clue 1 between two hidden cells, the mine
    under the left one. *)
Definition boardTwoHidden : Board :=
  setRevealed (snd (setMine (newBoard 1 3 1) 0 0)) 0 1 1.

(** A position next to (r, c), diagonals included, as a test; the number
    of positions of the board next to (r, c) that hold a mine. *)
Definition nextTo (r c : nat) (p : nat * nat) : bool :=
  (fst p <=? r + 1) && (r <=? fst p + 1) &&
  (snd p <=? c + 1) && (c <=? snd p + 1) &&
  negb ((fst p =? r) && (snd p =? c)).

Definition minesAround (b : Board) (r c : nat) : nat :=
  length (filter (fun p => nextTo r c p && cellHas isMine b p) (positions b)).

(** The state of the subset analysis of a list [cs], started with the
    known sets [k], when its loops reach the pair (i, j): the pairs with a
    smaller first index and the pairs (i, j') with j' < j have been
    handled. *)
Definition beforePair (cs : list Constraint) (k : Known) (i : nat)
           (c1 : Constraint) (j : nat) : Known * list Constraint :=
  fold_left (subsetPair cs i c1) (seq 0 j)
            (fold_left (subsetFor cs) (seq 0 i) (k, [])).

(** The pair's own deduction has been applied, between the state [before]
    in which the loops reach the pair and the state [after]: with no mine
    in the difference every cell of it is known safe afterwards, unless it
    was a known mine before; with as many mines as cells every cell of it
    is a known mine afterwards, unless it was known safe before; otherwise
    a structurally identical constraint is among the derived ones. *)
Definition deductionApplied (c1 c2 : Constraint)
           (before after : Known * list Constraint) : Prop :=
  let d := differenceOf c1 c2 in
  (mines d = 0%Z ->
   forall key, In key (cells d) ->
     In key (knownSafe (fst after)) \/ In key (knownMines (fst before))) /\
  (mines d <> 0%Z -> mines d = Z.of_nat (length (cells d)) ->
   forall key, In key (cells d) ->
     In key (knownMines (fst after)) \/ In key (knownSafe (fst before))) /\
  (mines d <> 0%Z -> mines d <> Z.of_nat (length (cells d)) ->
   exists dc, In dc (snd after) /\ identical dc d).

(** A 2 x 2 board with the clue 1 in a corner: the three other cells are
    hidden and share the one mine. *)
Definition boardCorner : Board := setRevealed (newBoard 2 2 1) 0 0 1.


(* ================================================================== *)
(** * Properties *)

(** ** Containers *)

Lemma has_true s k : JS.has s k = true <-> In k s.
Proof.
  unfold JS.has. rewrite existsb_exists. split.
  - intros [x [Hx He]]. apply String.eqb_eq in He. now subst.
  - intros H. exists k. split; [assumption | apply String.eqb_refl].
Qed.

Lemma has_false s k : JS.has s k = false <-> ~ In k s.
Proof.
  rewrite <- has_true. destruct (JS.has s k); split; intros; congruence.
Qed.

Lemma in_add s k x : In x (JS.add s k) <-> In x s \/ x = k.
Proof.
  unfold JS.add. destruct (JS.has s k) eqn:E.
  - apply has_true in E. split; [tauto | intros [H | ->]; assumption].
  - rewrite in_app_iff. simpl. intuition.
Qed.

Lemma nodup_add s k : NoDup s -> NoDup (JS.add s k).
Proof.
  intros H. unfold JS.add. destruct (JS.has s k) eqn:E; [assumption |].
  apply has_false in E. apply NoDup_app; [assumption | repeat constructor; auto | ].
  intros a Ha [<- | []]. exact (E Ha).
Qed.

Lemma in_addAll ks : forall s x, In x (JS.addAll s ks) <-> In x s \/ In x ks.
Proof.
  unfold JS.addAll. induction ks as [| k ks IH]; intros s x; simpl.
  - tauto.
  - rewrite IH, in_add. intuition.
Qed.

Lemma nodup_addAll ks : forall s, NoDup s -> NoDup (JS.addAll s ks).
Proof.
  unfold JS.addAll. induction ks as [| k ks IH]; intros s H; simpl; auto.
  apply IH, nodup_add, H.
Qed.

Lemma get_set {V} (o : JS.Obj V) k v k' :
  JS.get (JS.set o k v) k' = if String.eqb k' k then Some v else JS.get o k'.
Proof.
  induction o as [| [k0 v0] o IH]; simpl.
  - reflexivity.
  - destruct (String.eqb k k0) eqn:E; simpl.
    + apply String.eqb_eq in E. subst k0.
      destruct (String.eqb k' k); reflexivity.
    + rewrite IH. destruct (String.eqb k' k0) eqn:E0; [| reflexivity].
      apply String.eqb_eq in E0. subst k0.
      destruct (String.eqb k' k) eqn:E1; [| reflexivity].
      apply String.eqb_eq in E1. subst. rewrite String.eqb_refl in E. discriminate.
Qed.

Lemma get_set_same {V} (o : JS.Obj V) k v : JS.get (JS.set o k v) k = Some v.
Proof. rewrite get_set, String.eqb_refl. reflexivity. Qed.

Lemma get_set_other {V} (o : JS.Obj V) k v k' :
  k' <> k -> JS.get (JS.set o k v) k' = JS.get o k'.
Proof.
  intros H. rewrite get_set. destruct (String.eqb k' k) eqn:E; [| reflexivity].
  apply String.eqb_eq in E. contradiction.
Qed.

Lemma in_set {V} (o : JS.Obj V) k v k' v' :
  In (k', v') (JS.set o k v) -> (k' = k /\ v' = v) \/ In (k', v') o.
Proof.
  induction o as [| [k0 v0] o IH]; simpl.
  - intros [H | []]. inversion H. auto.
  - destruct (String.eqb k k0) eqn:E; simpl.
    + apply String.eqb_eq in E. subst k0.
      intros [H | H]; [inversion H; auto | auto].
    + intros [H | H]; [auto | destruct (IH H); auto].
Qed.

Lemma get_in {V} (o : JS.Obj V) k v : JS.get o k = Some v -> In (k, v) o.
Proof.
  induction o as [| [k0 v0] o IH]; simpl; [discriminate |].
  destruct (String.eqb k k0) eqn:E.
  - apply String.eqb_eq in E. subst. intros [= ->]. auto.
  - auto.
Qed.

Lemma in_get {V} (o : JS.Obj V) k v :
  In (k, v) o -> exists v', JS.get o k = Some v'.
Proof.
  induction o as [| [k0 v0] o IH]; simpl; [tauto |].
  intros [H | H].
  - inversion H. subst. rewrite String.eqb_refl. eauto.
  - destruct (String.eqb k k0); eauto.
Qed.

Lemma get_keys {V} (o : JS.Obj V) k :
  In k (JS.keys o) <-> exists v, JS.get o k = Some v.
Proof.
  unfold JS.keys. rewrite in_map_iff. split.
  - intros [[k0 v0] [E H]]. simpl in E. subst. eapply in_get, H.
  - intros [v H]. exists (k, v). split; [reflexivity | apply get_in, H].
Qed.

Lemma keys_set {V} (o : JS.Obj V) k v x :
  In x (JS.keys (JS.set o k v)) <-> In x (JS.keys o) \/ x = k.
Proof.
  rewrite !get_keys. rewrite get_set. destruct (String.eqb x k) eqn:E.
  - apply String.eqb_eq in E. split; eauto.
  - split; [tauto |]. intros [H | ->]; [assumption |].
    rewrite String.eqb_refl in E. discriminate.
Qed.

Lemma nodup_keys_set {V} (o : JS.Obj V) k v :
  NoDup (JS.keys o) -> NoDup (JS.keys (JS.set o k v)).
Proof.
  unfold JS.keys. induction o as [| [k0 v0] o IH]; simpl; intros H.
  - repeat constructor. auto.
  - inversion H as [| ? ? Hn Hd]. subst.
    destruct (String.eqb k k0) eqn:E; simpl.
    + constructor; assumption.
    + constructor; [| auto].
      intros Hin. apply (keys_set o k v k0) in Hin. destruct Hin as [Hin | ->].
      * exact (Hn Hin).
      * rewrite String.eqb_refl in E. discriminate.
Qed.

(** ** Cell keys *)

Lemma noComma_uint d : noComma (NilEmpty.string_of_uint d).
Proof.
  unfold noComma. induction d; simpl; intros a H;
    try contradiction; (destruct H as [<- | H]; [discriminate | auto]).
Qed.

Lemma noComma_natToString n : noComma (natToString n).
Proof. apply noComma_uint. Qed.

Lemma splitComma_noComma s : noComma s -> splitComma s = [s].
Proof.
  unfold noComma. induction s as [| a s IH]; simpl; intros H; [reflexivity |].
  destruct (Ascii.eqb a ",") eqn:E.
  - apply Ascii.eqb_eq in E. exfalso. apply (H a); auto.
  - rewrite IH; [reflexivity | intros b Hb; apply H; auto].
Qed.

Lemma splitComma_app s t :
  noComma s -> splitComma (s ++ String "," t) = s :: splitComma t.
Proof.
  unfold noComma. induction s as [| a s IH]; simpl; intros H; [reflexivity |].
  destruct (Ascii.eqb a ",") eqn:E.
  - apply Ascii.eqb_eq in E. exfalso. apply (H a); auto.
  - rewrite IH; [reflexivity | intros b Hb; apply H; auto].
Qed.

Lemma Number_natToString n : Number (natToString n) = Some n.
Proof.
  unfold Number, natToString. rewrite NilEmpty.usu. simpl.
  now rewrite DecimalNat.Unsigned.of_to.
Qed.

Lemma parseKey_cellKey r c : parseKey (cellKey r c) = (Some r, Some c).
Proof.
  unfold parseKey, cellKey. simpl append.
  rewrite splitComma_app by apply noComma_natToString.
  rewrite splitComma_noComma by apply noComma_natToString.
  simpl. now rewrite !Number_natToString.
Qed.

Lemma cellKey_inj r c r' c' : cellKey r c = cellKey r' c' -> r = r' /\ c = c'.
Proof.
  intros H. pose proof (parseKey_cellKey r c) as H1.
  rewrite H, parseKey_cellKey in H1. inversion H1. auto.
Qed.

(** ** Known sets during propagation *)

Lemma in_firstn {A} (x : A) n : forall l, In x (firstn n l) -> In x l.
Proof.
  induction n as [| n IH]; intros [| a l]; simpl; try tauto.
  intros [H | H]; [auto | right; apply IH, H].
Qed.

Lemma unresolved_true k key :
  unresolved k key = true <-> ~ In key (knownSafe k) /\ ~ In key (knownMines k).
Proof.
  unfold unresolved. rewrite andb_true_iff, !negb_true_iff, !has_false. tauto.
Qed.

Lemma narrow_fst k keys : forall m,
  fst (narrow k keys m) = filter (unresolved k) keys.
Proof.
  unfold unresolved.
  induction keys as [| key rest IH]; intros m; simpl; [reflexivity |].
  destruct (JS.has (knownSafe k) key); simpl; [apply IH |].
  destruct (JS.has (knownMines k) key); simpl; [apply IH |].
  now rewrite IH.
Qed.

Lemma extendsKnown_refl k : extendsKnown k k.
Proof. split; apply incl_refl. Qed.

Lemma extendsKnown_trans k1 k2 k3 :
  extendsKnown k1 k2 -> extendsKnown k2 k3 -> extendsKnown k1 k3.
Proof. intros [A B] [C D]. split; eapply incl_tran; eassumption. Qed.

Lemma extends_addSafe k key : extendsKnown k (addSafe k key).
Proof. split; simpl; [apply incl_appl | ]; apply incl_refl. Qed.

Lemma extends_addMine k key : extendsKnown k (addMine k key).
Proof. split; simpl; [| apply incl_appl ]; apply incl_refl. Qed.

Lemma disjoint_addSafe k key :
  disjointKnown k -> ~ In key (knownMines k) -> disjointKnown (addSafe k key).
Proof.
  intros D N x Hs Hm. simpl in *. apply in_app_iff in Hs.
  destruct Hs as [Hs | [<- | []]]; [exact (D x Hs Hm) | exact (N Hm)].
Qed.

Lemma disjoint_addMine k key :
  disjointKnown k -> ~ In key (knownSafe k) -> disjointKnown (addMine k key).
Proof.
  intros D N x Hs Hm. simpl in *. apply in_app_iff in Hm.
  destruct Hm as [Hm | [<- | []]]; [exact (D x Hs Hm) | exact (N Hs)].
Qed.

(** A generic fold principle for the four key loops: a step that extends
    the known sets and keeps them disjoint on the keys of the list. *)
Section KeyLoops.
Variable step : Known -> string -> Known.
Variable ok : Known -> string -> Prop.
Hypothesis step_extends : forall k key, extendsKnown k (step k key).
Hypothesis step_disjoint :
  forall k key, disjointKnown k -> ok k key -> disjointKnown (step k key).
Hypothesis ok_step : forall k key x, ok k x -> ok (step k key) x.

Lemma keyloop_extends keys : forall k, extendsKnown k (fold_left step keys k).
Proof.
  induction keys as [| key rest IH]; intros k; simpl.
  - apply extendsKnown_refl.
  - eapply extendsKnown_trans; [apply step_extends | apply IH].
Qed.

Lemma keyloop_disjoint keys : forall k,
  disjointKnown k -> (forall x, In x keys -> ok k x) ->
  disjointKnown (fold_left step keys k).
Proof.
  induction keys as [| key rest IH]; intros k D H; simpl; [assumption |].
  apply IH.
  - apply step_disjoint; [assumption | apply H; left; reflexivity].
  - intros x Hx. apply ok_step, H. right. assumption.
Qed.
End KeyLoops.

Lemma basicSafe_extends k key : extendsKnown k (basicSafe k key).
Proof.
  unfold basicSafe. destruct (JS.has _ _);
    [apply extendsKnown_refl | apply extends_addSafe].
Qed.

Lemma basicMine_extends k key : extendsKnown k (basicMine k key).
Proof.
  unfold basicMine. destruct (JS.has _ _);
    [apply extendsKnown_refl | apply extends_addMine].
Qed.

Lemma subsetSafe_extends k key : extendsKnown k (subsetSafe k key).
Proof.
  unfold subsetSafe. destruct (_ && _);
    [apply extends_addSafe | apply extendsKnown_refl].
Qed.

Lemma subsetMine_extends k key : extendsKnown k (subsetMine k key).
Proof.
  unfold subsetMine. destruct (_ && _);
    [apply extends_addMine | apply extendsKnown_refl].
Qed.

Lemma basicSafe_mines k key : knownMines (basicSafe k key) = knownMines k.
Proof. unfold basicSafe. destruct (JS.has _ _); reflexivity. Qed.

Lemma basicMine_safe k key : knownSafe (basicMine k key) = knownSafe k.
Proof. unfold basicMine. destruct (JS.has _ _); reflexivity. Qed.

Lemma basicSafe_disjoint k key :
  disjointKnown k -> ~ In key (knownMines k) -> disjointKnown (basicSafe k key).
Proof.
  intros D N. unfold basicSafe. destruct (JS.has _ _);
    [assumption | now apply disjoint_addSafe].
Qed.

Lemma basicMine_disjoint k key :
  disjointKnown k -> ~ In key (knownSafe k) -> disjointKnown (basicMine k key).
Proof.
  intros D N. unfold basicMine. destruct (JS.has _ _);
    [assumption | now apply disjoint_addMine].
Qed.

Lemma subsetSafe_disjoint k key : disjointKnown k -> disjointKnown (subsetSafe k key).
Proof.
  intros D. unfold subsetSafe.
  destruct (JS.has (knownSafe k) key) eqn:E1; simpl; [assumption |].
  destruct (JS.has (knownMines k) key) eqn:E2; simpl; [assumption |].
  apply disjoint_addSafe; [assumption | now apply has_false].
Qed.

Lemma subsetMine_disjoint k key : disjointKnown k -> disjointKnown (subsetMine k key).
Proof.
  intros D. unfold subsetMine.
  destruct (JS.has (knownMines k) key) eqn:E1; simpl; [assumption |].
  destruct (JS.has (knownSafe k) key) eqn:E2; simpl; [assumption |].
  apply disjoint_addMine; [assumption | now apply has_false].
Qed.

Lemma fold_basicSafe_disjoint keys k :
  disjointKnown k -> (forall x, In x keys -> ~ In x (knownMines k)) ->
  disjointKnown (fold_left basicSafe keys k).
Proof.
  apply (keyloop_disjoint basicSafe (fun k x => ~ In x (knownMines k))).
  - intros. now apply basicSafe_disjoint.
  - intros. now rewrite basicSafe_mines.
Qed.

Lemma fold_basicMine_disjoint keys k :
  disjointKnown k -> (forall x, In x keys -> ~ In x (knownSafe k)) ->
  disjointKnown (fold_left basicMine keys k).
Proof.
  apply (keyloop_disjoint basicMine (fun k x => ~ In x (knownSafe k))).
  - intros. now apply basicMine_disjoint.
  - intros. now rewrite basicMine_safe.
Qed.

Lemma fold_subsetSafe_disjoint keys k :
  disjointKnown k -> disjointKnown (fold_left subsetSafe keys k).
Proof.
  intros D. apply (keyloop_disjoint subsetSafe (fun _ _ => True));
    auto using subsetSafe_disjoint.
Qed.

Lemma fold_subsetMine_disjoint keys k :
  disjointKnown k -> disjointKnown (fold_left subsetMine keys k).
Proof.
  intros D. apply (keyloop_disjoint subsetMine (fun _ _ => True));
    auto using subsetMine_disjoint.
Qed.

Lemma remaining_unresolved k c x :
  In x (fst (narrow k (cells c) (mines c))) ->
  ~ In x (knownSafe k) /\ ~ In x (knownMines k).
Proof.
  rewrite narrow_fst, filter_In. intros [_ H]. now apply unresolved_true.
Qed.

Lemma basic_keys_disjoint k c (z : bool) j :
  disjointKnown k ->
  disjointKnown (fold_left (if z then basicSafe else basicMine)
                           (firstn j (fst (narrow k (cells c) (mines c)))) k).
Proof.
  intros D. destruct z.
  - apply fold_basicSafe_disjoint; [assumption |].
    intros x Hx. apply in_firstn in Hx. now apply remaining_unresolved in Hx.
  - apply fold_basicMine_disjoint; [assumption |].
    intros x Hx. apply in_firstn in Hx. now apply remaining_unresolved in Hx.
Qed.

Lemma processConstraint_disjoint k c :
  disjointKnown k -> disjointKnown (fst (processConstraint k c)).
Proof.
  intros D. unfold processConstraint.
  destruct (length _ =? 0); simpl; [assumption |].
  destruct (Z.max 0 _ =? 0)%Z; simpl.
  - rewrite <- (firstn_all (fst (narrow k (cells c) (mines c)))).
    now apply (basic_keys_disjoint k c true).
  - destruct (_ =? _)%Z; simpl; [| assumption].
    rewrite <- (firstn_all (fst (narrow k (cells c) (mines c)))).
    now apply (basic_keys_disjoint k c false).
Qed.

Lemma narrowAll_disjoint cs : forall k,
  disjointKnown k -> disjointKnown (fst (narrowAll k cs)).
Proof.
  induction cs as [| c rest IH]; intros k D; simpl; [assumption |].
  apply IH, processConstraint_disjoint, D.
Qed.

Lemma subset_keys_disjoint k (z : bool) keys :
  disjointKnown k ->
  disjointKnown (fold_left (if z then subsetSafe else subsetMine) keys k).
Proof.
  destruct z; [apply fold_subsetSafe_disjoint | apply fold_subsetMine_disjoint].
Qed.

Lemma subsetPair_disjoint cs i c1 st j :
  disjointKnown (fst st) -> disjointKnown (fst (subsetPair cs i c1 st j)).
Proof.
  intros D. unfold subsetPair.
  destruct (i =? j); [assumption |].
  destruct (nth_error cs j) as [c2 |]; [| assumption].
  destruct (length (cells c2) =? 0); [assumption |].
  destruct (_ && _); [| assumption].
  destruct (_ && _); [| assumption].
  destruct (_ =? 0)%Z; simpl; [now apply fold_subsetSafe_disjoint |].
  destruct (_ =? _)%Z; simpl; [now apply fold_subsetMine_disjoint |].
  destruct (existsb _ _); assumption.
Qed.

Lemma fold_subsetPair_disjoint cs i c1 js : forall st,
  disjointKnown (fst st) ->
  disjointKnown (fst (fold_left (subsetPair cs i c1) js st)).
Proof.
  induction js as [| j rest IH]; intros st D; simpl; [assumption |].
  apply IH, subsetPair_disjoint, D.
Qed.

Lemma subsetFor_disjoint cs st i :
  disjointKnown (fst st) -> disjointKnown (fst (subsetFor cs st i)).
Proof.
  intros D. unfold subsetFor.
  destruct (nth_error cs i) as [c1 |]; [| assumption].
  destruct (length (cells c1) =? 0); [assumption |].
  now apply fold_subsetPair_disjoint.
Qed.

Lemma fold_subsetFor_disjoint cs ixs : forall st,
  disjointKnown (fst st) -> disjointKnown (fst (fold_left (subsetFor cs) ixs st)).
Proof.
  induction ixs as [| i rest IH]; intros st D; simpl; [assumption |].
  apply IH, subsetFor_disjoint, D.
Qed.

Lemma pass_disjoint st :
  disjointKnown (known st) -> disjointKnown (known (pass st)).
Proof.
  intros D. unfold pass.
  set (r1 := narrowAll _ _).
  assert (D1 : disjointKnown (fst r1)) by (apply narrowAll_disjoint; exact D).
  assert (D2 : disjointKnown (fst (subsetAnalysis (snd r1) (fst r1))))
    by (apply fold_subsetFor_disjoint; exact D1).
  destruct (0 <? _); simpl; exact D2.
Qed.

Lemma afterPasses_disjoint cs n : disjointKnown (known (afterPasses cs n)).
Proof.
  induction n as [| n IH]; simpl.
  - intros key [].
  - apply pass_disjoint, IH.
Qed.

Lemma propagateLoop_iter fuel : forall st,
  exists n, n <= fuel /\ propagateLoop fuel st = Nat.iter n pass st.
Proof.
  induction fuel as [| fuel IH]; intros st; simpl.
  - exists 0. split; [lia | reflexivity].
  - destruct (changed (known st)).
    + destruct (IH (pass st)) as [n [Hn E]]. exists (S n). split; [lia |].
      rewrite E. symmetry. apply Nat.iter_succ_r.
    + exists 0. split; [lia | reflexivity].
Qed.

Lemma propagateLoop_S fuel st :
  propagateLoop (S fuel) st =
  if changed (known st) then propagateLoop fuel (pass st) else st.
Proof. reflexivity. Qed.

Lemma propagate_afterPasses cs :
  exists n, 1 <= n <= maxIterations /\ propagate cs = afterPasses cs n.
Proof.
  unfold propagate, afterPasses.
  assert (E100 : maxIterations = S 99) by reflexivity.
  rewrite E100, propagateLoop_S. cbn [changed known].
  destruct (propagateLoop_iter 99 (pass (mkPState cs (mkKnown [] [] true))))
    as [n [Hn E]].
  exists (S n). split; [lia |]. rewrite E.
  symmetry. apply Nat.iter_succ_r.
Qed.

(** C5. At every point of the propagation loop, and in the state it ends
    in, the known-safe set and the known-mine set are disjoint, whatever
    the board and whatever the (possibly contradictory) constraints. *)
Theorem C5_known_sets_disjoint (b : Board) :
  (forall k, point (snd (extract b)) k -> disjointKnown k) /\
  disjointKnown (known (propagate (snd (extract b)))).
Proof.
  split.
  - intros k P. destruct P.
    + apply afterPasses_disjoint.
    + apply narrowAll_disjoint. intros x Hs Hm. simpl in *.
      exact (afterPasses_disjoint _ _ _ Hs Hm).
    + subst remainingCells.
      destruct (Z.max 0 _ =? 0)%Z.
      * apply (basic_keys_disjoint k c true). subst k.
        apply narrowAll_disjoint. intros x Hs Hm. simpl in *.
        exact (afterPasses_disjoint _ _ _ Hs Hm).
      * apply (basic_keys_disjoint k c false). subst k.
        apply narrowAll_disjoint. intros x Hs Hm. simpl in *.
        exact (afterPasses_disjoint _ _ _ Hs Hm).
    + apply fold_subsetPair_disjoint, fold_subsetFor_disjoint. simpl.
      apply narrowAll_disjoint. intros x Hs Hm. simpl in *.
      exact (afterPasses_disjoint _ _ _ Hs Hm).
    + destruct (_ =? 0)%Z.
      * apply fold_subsetSafe_disjoint. subst k.
        apply fold_subsetPair_disjoint, fold_subsetFor_disjoint. simpl.
        apply narrowAll_disjoint. intros x Hs Hm. simpl in *.
        exact (afterPasses_disjoint _ _ _ Hs Hm).
      * apply fold_subsetMine_disjoint. subst k.
        apply fold_subsetPair_disjoint, fold_subsetFor_disjoint. simpl.
        apply narrowAll_disjoint. intros x Hs Hm. simpl in *.
        exact (afterPasses_disjoint _ _ _ Hs Hm).
  - destruct (propagate_afterPasses (snd (extract b))) as [n [_ E]].
    rewrite E. apply afterPasses_disjoint.
Qed.

(** ** Subset analysis *)

Lemma sameDerived_identical difference diffMines dc :
  sameDerived difference diffMines dc = true <->
  identical dc (mkConstraint difference diffMines).
Proof.
  unfold sameDerived, identical. simpl.
  destruct (length (cells dc) =? length difference) eqn:E1; simpl.
  - apply Nat.eqb_eq in E1.
    destruct (mines dc =? diffMines)%Z eqn:E2; simpl.
    + apply Z.eqb_eq in E2. rewrite forallb_forall. split.
      * intros H. repeat split; try assumption.
        intros x Hx. apply has_true, H, Hx.
      * intros [_ [_ H]] x Hx. apply has_true, H, Hx.
    + apply Z.eqb_neq in E2. split; [discriminate | tauto].
  - apply Nat.eqb_neq in E1. split; [discriminate | tauto].
Qed.

Lemma extendsState_refl s : extendsState s s.
Proof. split; [apply extendsKnown_refl | apply incl_refl]. Qed.

Lemma extendsState_trans s1 s2 s3 :
  extendsState s1 s2 -> extendsState s2 s3 -> extendsState s1 s3.
Proof.
  intros [A B] [C D]. split;
    [eapply extendsKnown_trans | eapply incl_tran]; eassumption.
Qed.

(** Loops whose body only extends the state. *)
Section MonotoneLoops.
Context {S A : Type}.
Variable R : S -> S -> Prop.
Variable f : S -> A -> S.
Hypothesis R_refl : forall s, R s s.
Hypothesis R_trans : forall s1 s2 s3, R s1 s2 -> R s2 s3 -> R s1 s3.
Hypothesis f_mono : forall s a, R s (f s a).

Lemma loop_extends l : forall s, R s (fold_left f l s).
Proof.
  induction l as [| a l IH]; intros s; simpl; [apply R_refl |].
  eapply R_trans; [apply f_mono | apply IH].
Qed.

Lemma loop_reaches l : forall s x,
  In x l -> exists s1, R s s1 /\ R (f s1 x) (fold_left f l s).
Proof.
  induction l as [| a l IH]; intros s x Hx; simpl; [contradiction |].
  destruct Hx as [<- | Hx].
  - exists s. split; [apply R_refl | apply loop_extends].
  - destruct (IH (f s a) x Hx) as [s1 [H1 H2]].
    exists s1. split; [| assumption].
    eapply R_trans; [apply f_mono | apply H1].
Qed.
End MonotoneLoops.

Lemma fold_subsetSafe_extends keys k :
  extendsKnown k (fold_left subsetSafe keys k).
Proof.
  apply (loop_extends extendsKnown subsetSafe);
    auto using extendsKnown_refl, subsetSafe_extends.
  intros; eapply extendsKnown_trans; eassumption.
Qed.

Lemma fold_subsetMine_extends keys k :
  extendsKnown k (fold_left subsetMine keys k).
Proof.
  apply (loop_extends extendsKnown subsetMine);
    auto using extendsKnown_refl, subsetMine_extends.
  intros; eapply extendsKnown_trans; eassumption.
Qed.

Lemma fold_basicSafe_extends keys k :
  extendsKnown k (fold_left basicSafe keys k).
Proof.
  apply (loop_extends extendsKnown basicSafe);
    auto using extendsKnown_refl, basicSafe_extends.
  intros; eapply extendsKnown_trans; eassumption.
Qed.

Lemma fold_basicMine_extends keys k :
  extendsKnown k (fold_left basicMine keys k).
Proof.
  apply (loop_extends extendsKnown basicMine);
    auto using extendsKnown_refl, basicMine_extends.
  intros; eapply extendsKnown_trans; eassumption.
Qed.

Lemma subsetPair_extends cs i c1 st j :
  extendsState st (subsetPair cs i c1 st j).
Proof.
  unfold subsetPair.
  destruct (i =? j); [apply extendsState_refl |].
  destruct (nth_error cs j) as [c2 |]; [| apply extendsState_refl].
  destruct (length (cells c2) =? 0); [apply extendsState_refl |].
  destruct (_ && _); [| apply extendsState_refl].
  destruct (_ && _); [| apply extendsState_refl].
  destruct (_ =? 0)%Z.
  { split; simpl; [apply fold_subsetSafe_extends | apply incl_refl]. }
  destruct (_ =? _)%Z.
  { split; simpl; [apply fold_subsetMine_extends | apply incl_refl]. }
  destruct (existsb _ _); [apply extendsState_refl |].
  split; simpl; [apply extendsKnown_refl | apply incl_appl, incl_refl].
Qed.

Lemma subsetFor_extends cs st i : extendsState st (subsetFor cs st i).
Proof.
  unfold subsetFor.
  destruct (nth_error cs i) as [c1 |]; [| apply extendsState_refl].
  destruct (length (cells c1) =? 0); [apply extendsState_refl |].
  apply (loop_extends extendsState (subsetPair cs i c1));
    auto using extendsState_refl, subsetPair_extends.
  intros; eapply extendsState_trans; eassumption.
Qed.

Lemma derivedFrom_extends c1 c2 s s' :
  extendsState s s' -> derivedFrom c1 c2 s -> derivedFrom c1 c2 s'.
Proof.
  intros [[Hs Hm] Hd]. unfold derivedFrom.
  destruct (_ =? 0)%Z.
  { intros H key Hk. destruct (H key Hk); [left | right]; auto. }
  destruct (_ =? _)%Z.
  { intros H key Hk. destruct (H key Hk); [left | right]; auto. }
  intros [dc [H1 H2]]. exists dc. split; auto.
Qed.

Lemma fold_subsetSafe_resolves keys : forall k key,
  In key keys ->
  In key (knownSafe (fold_left subsetSafe keys k)) \/
  In key (knownMines (fold_left subsetSafe keys k)).
Proof.
  induction keys as [| a keys IH]; intros k key Hk; simpl; [contradiction |].
  destruct Hk as [-> | Hk]; [| apply IH, Hk].
  destruct (fold_subsetSafe_extends keys (subsetSafe k key)) as [Hs Hm].
  unfold subsetSafe in *.
  destruct (JS.has (knownSafe k) key) eqn:E1; simpl in *.
  { left. apply Hs. now apply has_true. }
  destruct (JS.has (knownMines k) key) eqn:E2; simpl in *.
  { right. apply Hm. now apply has_true. }
  left. apply Hs. simpl. apply in_app_iff. right. left. reflexivity.
Qed.

Lemma fold_subsetMine_resolves keys : forall k key,
  In key keys ->
  In key (knownMines (fold_left subsetMine keys k)) \/
  In key (knownSafe (fold_left subsetMine keys k)).
Proof.
  induction keys as [| a keys IH]; intros k key Hk; simpl; [contradiction |].
  destruct Hk as [-> | Hk]; [| apply IH, Hk].
  destruct (fold_subsetMine_extends keys (subsetMine k key)) as [Hs Hm].
  unfold subsetMine in *.
  destruct (JS.has (knownMines k) key) eqn:E1; simpl in *.
  { left. apply Hm. now apply has_true. }
  destruct (JS.has (knownSafe k) key) eqn:E2; simpl in *.
  { right. apply Hs. now apply has_true. }
  left. apply Hm. simpl. apply in_app_iff. right. left. reflexivity.
Qed.

Lemma not_incl_witness (l1 l2 : list string) :
  ~ incl l2 l1 -> exists x, In x l2 /\ ~ In x l1.
Proof.
  induction l2 as [| a l IH]; intros H.
  - exfalso. apply H. intros x [].
  - destruct (in_dec string_dec a l1) as [Ha | Ha].
    + destruct IH as [x [Hx Hn]].
      * intros Hl. apply H. intros y [<- | Hy]; auto.
      * exists x. split; [right |]; assumption.
    + exists a. split; [left; reflexivity | assumption].
Qed.

Lemma strictSubset_tests c1 c2 :
  NoDup (cells c1) -> strictSubset c1 c2 ->
  forallb (JS.has (cells c2)) (cells c1) = true /\
  length (cells c1) < length (cells c2) /\
  cells (differenceOf c1 c2) <> [].
Proof.
  intros ND [Hin Hnot]. split; [| split].
  - apply forallb_forall. intros x Hx. apply has_true, Hin, Hx.
  - destruct (not_incl_witness _ _ Hnot) as [x [Hx Hn]].
    assert (L : length (x :: cells c1) <= length (cells c2)).
    { apply NoDup_incl_length; [constructor; assumption |].
      intros y [<- | Hy]; auto. }
    simpl in L. lia.
  - simpl. intros E.
    apply Hnot. intros x Hx.
    destruct (in_dec string_dec x (cells c1)) as [Hc | Hc]; [assumption |].
    assert (In x (filter (fun cell => negb (JS.has (cells c1) cell)) (cells c2))).
    { apply filter_In. split; [assumption |].
      apply negb_true_iff, has_false, Hc. }
    rewrite E in H. contradiction.
Qed.

(** What one execution of the inner body does for a pair that passes the
    guards of the source. *)
Lemma subsetPair_derives cs i j c1 c2 st :
  i <> j -> nth_error cs j = Some c2 ->
  NoDup (cells c1) -> strictSubset c1 c2 ->
  (0 <= mines c2 - mines c1)%Z ->
  derivedFrom c1 c2 (subsetPair cs i c1 st j).
Proof.
  intros Hij Hj ND HS Hm.
  destruct (strictSubset_tests c1 c2 ND HS) as [T1 [T2 T3]].
  unfold subsetPair, derivedFrom. rewrite Hj.
  apply Nat.eqb_neq in Hij. rewrite Hij.
  assert (L2 : (length (cells c2) =? 0) = false) by (apply Nat.eqb_neq; lia).
  rewrite L2, T1. apply Nat.ltb_lt in T2. rewrite T2. simpl andb.
  simpl in T3. unfold differenceOf. simpl cells. simpl mines.
  set (difference := filter _ (cells c2)) in *.
  assert (L3 : (0 <? length difference) = true).
  { apply Nat.ltb_lt. destruct difference; [congruence | simpl; lia]. }
  rewrite L3. apply Z.leb_le in Hm. rewrite Hm. simpl andb.
  destruct (_ =? 0)%Z.
  { intros key Hk. simpl. now apply fold_subsetSafe_resolves. }
  destruct (_ =? _)%Z.
  { intros key Hk. simpl. now apply fold_subsetMine_resolves. }
  destruct (existsb _ (snd st)) eqn:E.
  - apply existsb_exists in E. destruct E as [dc [Hdc Hs]].
    exists dc. split; [assumption |]. now apply sameDerived_identical.
  - exists (mkConstraint difference (mines c2 - mines c1)). simpl. split.
    + apply in_app_iff. right. left. reflexivity.
    + repeat split. apply incl_refl.
Qed.

Lemma subsetAnalysis_derives cs k i j c1 c2 :
  i < Nat.min (length cs) maxCompare -> i <> j ->
  nth_error cs i = Some c1 -> nth_error cs j = Some c2 ->
  cells c1 <> [] -> NoDup (cells c1) -> strictSubset c1 c2 ->
  (mines c1 <= mines c2)%Z ->
  derivedFrom c1 c2 (subsetAnalysis cs k).
Proof.
  intros Hi Hij H1 H2 Hne ND HS Hm. unfold subsetAnalysis.
  assert (Tr : forall s1 s2 s3 : Known * list Constraint,
             extendsState s1 s2 -> extendsState s2 s3 -> extendsState s1 s3)
    by (intros; eapply extendsState_trans; eassumption).
  destruct (loop_reaches extendsState (subsetFor cs) extendsState_refl Tr
              (subsetFor_extends cs)
              (seq 0 (Nat.min (length cs) maxCompare)) (k, []) i)
    as [s1 [_ E1]].
  { apply in_seq. lia. }
  eapply derivedFrom_extends; [exact E1 |].
  unfold subsetFor. rewrite H1.
  assert (L1 : (length (cells c1) =? 0) = false).
  { apply Nat.eqb_neq. destruct (cells c1); [congruence | simpl; lia]. }
  rewrite L1.
  destruct (loop_reaches extendsState (subsetPair cs i c1) extendsState_refl Tr
              (subsetPair_extends cs i c1)
              (seq 0 (length cs)) s1 j)
    as [s2 [_ E2]].
  { apply in_seq. assert (j < length cs) by (apply nth_error_Some; congruence). lia. }
  eapply derivedFrom_extends; [exact E2 |].
  apply subsetPair_derives; try assumption. lia.
Qed.

(** C3 (as stated) fails: with more than 50 constraints in the list, a
    strict-subset pair whose first member lies beyond the fiftieth entry
    is never compared. *)
Lemma C3_counterexample : ~ everyPairDerived (snd (extract boardFiftyTwo)).
Proof.
  intros H.
  specialize (H 0 50 51
                (mkConstraint ["3,0"; "3,1"]%string 1)
                (mkConstraint ["3,0"; "3,1"; "3,2"]%string 1)).
  vm_compute in H.
  assert (P : "3,2"%string = "3,2"%string \/ False) by (left; reflexivity).
  destruct (H ltac:(discriminate) eq_refl eq_refl
              ltac:(split; [ intros x Hx; simpl in *; tauto
                           | intros Hc; specialize (Hc "3,2"%string);
                             simpl in Hc; intuition discriminate ])
              "3,2"%string P) as [F | F]; vm_compute in F; intuition discriminate.
Qed.

Lemma pairwiseDistinct_nil : pairwiseDistinct [].
Proof. intros i j di dj _ H. destruct i; discriminate. Qed.

Lemma pairwiseDistinct_snoc l d :
  pairwiseDistinct l -> (forall dc, In dc l -> ~ identical dc d) ->
  pairwiseDistinct (l ++ [d]).
Proof.
  intros P H i j di dj Hij Hi Hj.
  assert (Lj : j < length (l ++ [d])) by (apply nth_error_Some; congruence).
  rewrite length_app in Lj. simpl in Lj.
  assert (Li : i < length l) by lia.
  rewrite nth_error_app1 in Hi by assumption.
  destruct (Nat.lt_ge_cases j (length l)) as [Lt | Ge].
  - rewrite nth_error_app1 in Hj by assumption. exact (P i j di dj Hij Hi Hj).
  - rewrite nth_error_app2 in Hj by assumption.
    replace (j - length l) with 0 in Hj by lia. simpl in Hj.
    injection Hj as <-. apply H. eapply nth_error_In, Hi.
Qed.

Lemma subsetPair_distinct cs i c1 st j :
  pairwiseDistinct (snd st) -> pairwiseDistinct (snd (subsetPair cs i c1 st j)).
Proof.
  intros P. unfold subsetPair.
  destruct (i =? j); [assumption |].
  destruct (nth_error cs j) as [c2 |]; [| assumption].
  destruct (length (cells c2) =? 0); [assumption |].
  destruct (_ && _); [| assumption].
  destruct (_ && _); [| assumption].
  destruct (_ =? 0)%Z; [assumption |].
  destruct (_ =? _)%Z; [assumption |].
  destruct (existsb _ (snd st)) eqn:E; [assumption |]. simpl.
  apply pairwiseDistinct_snoc; [assumption |].
  intros dc Hdc Hid. apply sameDerived_identical in Hid.
  assert (existsb
            (sameDerived
               (filter (fun cell => negb (JS.has (cells c1) cell)) (cells c2))
               (mines c2 - mines c1)) (snd st) = true)
    by (apply existsb_exists; eauto).
  congruence.
Qed.

Lemma subsetPair_undecided cs i c1 st j :
  Forall undecided (snd st) -> Forall undecided (snd (subsetPair cs i c1 st j)).
Proof.
  intros P. unfold subsetPair.
  destruct (i =? j); [assumption |].
  destruct (nth_error cs j) as [c2 |]; [| assumption].
  destruct (length (cells c2) =? 0); [assumption |].
  destruct (_ && _); [| assumption].
  destruct (_ && _); [| assumption].
  destruct (_ =? 0)%Z eqn:Z0; [assumption |].
  destruct (_ =? Z.of_nat _)%Z eqn:Z1; [assumption |].
  destruct (existsb _ (snd st)) eqn:E; [assumption |]. simpl.
  apply Forall_app. split; [assumption |]. constructor; [| constructor].
  apply Z.eqb_neq in Z0, Z1. split; assumption.
Qed.

(** Invariants of the derived list through both loops. *)
Lemma subsetAnalysis_invariant (P : list Constraint -> Prop) cs k :
  P [] ->
  (forall i c1 st j, P (snd st) -> P (snd (subsetPair cs i c1 st j))) ->
  P (snd (subsetAnalysis cs k)).
Proof.
  intros P0 Pstep. unfold subsetAnalysis.
  assert (G : forall ixs st, P (snd st) -> P (snd (fold_left (subsetFor cs) ixs st))).
  { induction ixs as [| i ixs IH]; intros st H; simpl; [assumption |].
    apply IH. unfold subsetFor.
    destruct (nth_error cs i) as [c1 |]; [| assumption].
    destruct (length (cells c1) =? 0); [assumption |].
    generalize (seq 0 (length cs)). intros js. revert st H.
    induction js as [| j js IHj]; intros st H; simpl; [assumption |].
    apply IHj, Pstep, H. }
  apply G. exact P0.
Qed.

Lemma subsetAnalysis_undecided cs k :
  Forall undecided (snd (subsetAnalysis cs k)).
Proof.
  apply subsetAnalysis_invariant; [constructor |].
  intros. now apply subsetPair_undecided.
Qed.

(** C4 (as stated) fails: the deduplication only looks at the constraints
    derived in the current pass, so the same difference is appended again
    in the next pass. *)
Lemma C4_counterexample :
  ~ noIdenticalDerived 3 (constraints (propagate (snd (extract boardThreeRows)))).
Proof.
  intros H.
  apply (H 3 5 (mkConstraint ["0,2"; "2,2"]%string 1)
           (mkConstraint ["0,2"; "2,2"]%string 1)).
  - lia.
  - lia.
  - vm_compute. reflexivity.
  - vm_compute. reflexivity.
  - repeat split. apply incl_refl.
Qed.

(** C4 (amended). A derived constraint that is not immediately deducible
    is appended only if no structurally identical constraint has been
    derived earlier in the same pass: the constraints derived by one pass
    are pairwise structurally different, and none of them is immediately
    deducible. *)
Theorem C4_derived_distinct_within_pass cs k :
  pairwiseDistinct (snd (subsetAnalysis cs k)) /\
  Forall undecided (snd (subsetAnalysis cs k)).
Proof.
  split; [| apply subsetAnalysis_undecided].
  apply subsetAnalysis_invariant; [apply pairwiseDistinct_nil |].
  intros. now apply subsetPair_distinct.
Qed.

(** ** Union-find *)

Lemma length_upd {A} (l : list A) : forall i v, length (JS.upd l i v) = length l.
Proof.
  induction l as [| a l IH]; intros [| i] v; simpl; auto.
Qed.

Lemma nth_error_upd_same {A} (l : list A) : forall i v,
  i < length l -> nth_error (JS.upd l i v) i = Some v.
Proof.
  induction l as [| a l IH]; intros [| i] v H; simpl in *; try lia; auto.
  apply IH. lia.
Qed.

Lemma nth_error_upd_other {A} (l : list A) : forall i j v,
  i <> j -> nth_error (JS.upd l i v) j = nth_error l j.
Proof.
  induction l as [| a l IH]; intros [| i] [| j] v H; simpl; auto; try congruence.
Qed.

Lemma path_lt p x r k : path p x r k -> x < length p.
Proof.
  intros H. destruct H as [x H | x y r k H _ _];
    apply nth_error_Some; congruence.
Qed.

Lemma path_root_fix p x r k : path p x r k -> nth_error p r = Some r.
Proof. induction 1; assumption. Qed.

Lemma path_fun p x r k :
  path p x r k -> forall r' k', path p x r' k' -> r = r' /\ k = k'.
Proof.
  induction 1 as [x Hx | x y r k Hx Hne _ IH]; intros r' k' H'.
  - inversion H'; subst; [auto | congruence].
  - inversion H' as [x0 Hx0 | x0 y0 r0 k0 Hx0 Hne0 Hp0]; subst; [congruence |].
    assert (y0 = y) by congruence. subst y0.
    destruct (IH _ _ Hp0). auto.
Qed.

Lemma rootOf_fun p x r r' : rootOf p x r -> rootOf p x r' -> r = r'.
Proof. intros [k H] [k' H']. now destruct (path_fun _ _ _ _ H _ _ H'). Qed.

Lemma rootOf_lt p x r : rootOf p x r -> x < length p /\ r < length p.
Proof.
  intros [k H]. split; [eapply path_lt, H |].
  apply path_root_fix in H. apply nth_error_Some. congruence.
Qed.

Lemma rootOf_root p x r : rootOf p x r -> rootOf p r r.
Proof. intros [k H]. exists 0. constructor. eapply path_root_fix, H. Qed.

(** The nodes of a path are pairwise different, hence fewer than the
    length of the array. *)
Lemma path_trail p x r k :
  path p x r k ->
  exists l, length l = S k /\ NoDup l /\
            forall y, In y l -> exists j, j <= k /\ path p y r j.
Proof.
  induction 1 as [x Hx | x y r k Hx Hne Hp [l [Hl [Hd Hall]]]].
  - exists [x]. repeat split; [repeat constructor; auto |].
    intros y [<- | []]. exists 0. split; [lia | now constructor].
  - exists (x :: l). repeat split.
    + simpl. congruence.
    + constructor; [| assumption]. intros Hin.
      destruct (Hall x Hin) as [j [Hj Hpj]].
      assert (Hx' : path p x r (S k)) by (econstructor; eassumption).
      destruct (path_fun _ _ _ _ Hx' _ _ Hpj). lia.
    + intros z [<- | Hz].
      * exists (S k). split; [lia | econstructor; eassumption].
      * destruct (Hall z Hz) as [j [Hj Hpj]]. exists j. split; [lia | assumption].
Qed.

Lemma path_bound p x r k : path p x r k -> k < length p.
Proof.
  intros H. destruct (path_trail _ _ _ _ H) as [l [Hl [Hd Hall]]].
  assert (L : length l <= length (seq 0 (length p))).
  { apply NoDup_incl_length; [assumption |].
    intros y Hy. destruct (Hall y Hy) as [j [_ Hp]].
    apply in_seq. apply path_lt in Hp. lia. }
  rewrite length_seq in L. lia.
Qed.

(** Path compression: pointing [x] at its own root keeps every root. *)
Lemma redirect_keeps_roots p x r :
  rootOf p x r ->
  forall y s, rootOf p y s -> rootOf (JS.upd p x r) y s.
Proof.
  intros Hx y s [j Hy]. induction Hy as [y Hy | y z s j Hy Hne Hz IH].
  - exists 0. constructor.
    destruct (Nat.eq_dec x y) as [-> | N].
    + assert (r = y).
      { destruct Hx as [k Hk]. inversion Hk; subst; [reflexivity | congruence]. }
      subst r. apply nth_error_upd_same. apply nth_error_Some. congruence.
    + now rewrite nth_error_upd_other.
  - destruct (Nat.eq_dec x y) as [-> | N].
    + assert (s = r).
      { apply (rootOf_fun p y); [exists (S j); econstructor; eassumption | assumption]. }
      subst s.
      assert (Hr : nth_error p r = Some r)
        by (destruct Hx as [k Hk]; eapply path_root_fix, Hk).
      assert (r <> y) by congruence.
      exists 1. apply path_step with (y := r).
      * apply nth_error_upd_same. apply nth_error_Some. congruence.
      * assumption.
      * constructor. rewrite nth_error_upd_other by auto. assumption.
    + destruct IH as [j' IH]. exists (S j').
      apply path_step with (y := z); [| assumption | assumption].
      now rewrite nth_error_upd_other.
Qed.

Lemma findFuel_spec fuel : forall p x r k,
  path p x r k -> k < fuel ->
  exists p', findFuel fuel p x = Some (p', r) /\
             length p' = length p /\
             forall y s, rootOf p y s -> rootOf p' y s.
Proof.
  induction fuel as [| fuel IH]; intros p x r k Hp Hk; [lia |].
  simpl. inversion Hp as [x0 Hx | x0 y r0 k0 Hx Hne Hy]; subst.
  - rewrite Hx. simpl. rewrite Nat.eqb_refl. exists p. auto.
  - rewrite Hx. simpl.
    assert (E : (y =? x) = false) by now apply Nat.eqb_neq.
    rewrite E.
    destruct (IH p y r k0 Hy ltac:(lia)) as [p1 [E1 [L1 K1]]].
    rewrite E1. simpl. eexists. split; [reflexivity |]. split.
    + rewrite length_upd. assumption.
    + intros z s Hz. apply redirect_keeps_roots.
      * apply K1. exists (S k0). assumption.
      * apply K1, Hz.
Qed.

Lemma find_spec p x r :
  rootOf p x r ->
  exists p', find p x = Some (p', r) /\ length p' = length p /\
             forall y s, rootOf p y s -> rootOf p' y s.
Proof.
  intros [k Hk]. unfold find.
  eapply findFuel_spec; [exact Hk | eapply path_bound, Hk].
Qed.

(** Linking the root [rx] below the root [ry]. *)
Lemma link_roots p rx ry :
  rootOf p rx rx -> rootOf p ry ry -> rx <> ry ->
  forall z s, rootOf p z s ->
              rootOf (JS.upd p rx ry) z (if s =? rx then ry else s).
Proof.
  intros Hrx Hry Hne z s [j Hz].
  assert (Fx : nth_error p rx = Some rx)
    by (destruct Hrx as [k Hk]; eapply path_root_fix, Hk).
  assert (Fy : nth_error p ry = Some ry)
    by (destruct Hry as [k Hk]; eapply path_root_fix, Hk).
  assert (Ry : path (JS.upd p rx ry) ry ry 0).
  { constructor. now rewrite nth_error_upd_other. }
  induction Hz as [z Hz | z w s j Hz Hzw Hw IH].
  - destruct (Nat.eqb_spec z rx) as [-> | N].
    + exists 1. apply path_step with (y := ry); auto.
      apply nth_error_upd_same. apply nth_error_Some. congruence.
    + exists 0. constructor. rewrite nth_error_upd_other by auto. assumption.
  - destruct IH as [j' IH]. exists (S j').
    apply path_step with (y := w); [| assumption | assumption].
    rewrite nth_error_upd_other; [assumption |]. congruence.
Qed.

Lemma union_spec p x y rx ry :
  rootOf p x rx -> rootOf p y ry ->
  exists p', union p x y = Some p' /\ length p' = length p /\
             forall z s, rootOf p z s ->
                         rootOf p' z (if s =? rx then ry else s).
Proof.
  intros Hx Hy. unfold union.
  destruct (find_spec p x rx Hx) as [p1 [E1 [L1 K1]]].
  rewrite E1. simpl.
  destruct (find_spec p1 y ry (K1 _ _ Hy)) as [p2 [E2 [L2 K2]]].
  rewrite E2. simpl. eexists. split; [reflexivity |].
  destruct (Nat.eqb_spec rx ry) as [-> | N].
  - split; [congruence |]. intros z s Hz.
    destruct (Nat.eqb_spec s ry) as [-> | _]; apply K2, K1, Hz.
  - split; [rewrite length_upd; congruence |]. intros z s Hz.
    apply link_roots; auto.
    + apply K2, K1. eapply rootOf_root, Hx.
    + apply K2, K1. eapply rootOf_root, Hy.
Qed.

Lemma rooted_seq n : rooted (seq 0 n).
Proof.
  intros x Hx. rewrite length_seq in Hx. exists x, 0. constructor.
  rewrite nth_error_seq. destruct (Nat.ltb_spec x n); [reflexivity | lia].
Qed.

Lemma rootOf_seq n x r : rootOf (seq 0 n) x r -> x = r.
Proof.
  intros [k H]. inversion H as [x0 Hx | x0 y r0 k0 Hx Hne Hy]; subst; [reflexivity |].
  rewrite nth_error_seq in Hx. destruct (x <? n); simpl in Hx; congruence.
Qed.

(** *** Linked constraints *)

Lemma shares_sym c1 c2 : shares c1 c2 -> shares c2 c1.
Proof. intros [k [H1 H2]]. exists k. auto. Qed.

Lemma linked_in cs c1 c2 : linked cs c1 c2 -> In c1 cs /\ In c2 cs.
Proof. induction 1; tauto. Qed.

Lemma linked_trans cs c1 c2 c3 :
  linked cs c1 c2 -> linked cs c2 c3 -> linked cs c1 c3.
Proof.
  induction 1; intros H'; [assumption |].
  eapply linked_step; eauto.
Qed.

Lemma linked_one cs c1 c2 :
  In c1 cs -> In c2 cs -> shares c1 c2 -> linked cs c1 c2.
Proof. intros. eapply linked_step; eauto. now constructor. Qed.

Lemma linked_sym cs c1 c2 : linked cs c1 c2 -> linked cs c2 c1.
Proof.
  induction 1 as [c Hc | c1 c2 c3 H1 H2 Hs Hl IH]; [now constructor |].
  eapply linked_trans; [exact IH |].
  apply linked_one; auto using shares_sym.
Qed.

Lemma connIdx_sym cs i j : connIdx cs i j -> connIdx cs j i.
Proof.
  intros [ci [cj [Hi [Hj H]]]]. exists cj, ci. auto using linked_sym.
Qed.

Lemma connIdx_trans cs i j k : connIdx cs i j -> connIdx cs j k -> connIdx cs i k.
Proof.
  intros [ci [cj [Hi [Hj H]]]] [cj' [ck [Hj' [Hk H']]]].
  assert (cj' = cj) by congruence. subst.
  exists ci, ck. eauto using linked_trans.
Qed.

Lemma connIdx_refl cs i : i < length cs -> connIdx cs i i.
Proof.
  intros H. destruct (nth_error cs i) as [c |] eqn:E.
  - exists c, c. repeat split; auto. constructor. eapply nth_error_In, E.
  - apply nth_error_None in E. lia.
Qed.

Lemma connIdx_share cs i j ci cj :
  nth_error cs i = Some ci -> nth_error cs j = Some cj -> shares ci cj ->
  connIdx cs i j.
Proof.
  intros Hi Hj Hs. exists ci, cj. repeat split; auto.
  apply linked_one; eauto using nth_error_In.
Qed.

(** *** Union keeps the parent array good *)

Lemma sameClass_lt p a b : sameClass p a b -> a < length p /\ b < length p.
Proof.
  intros [r [Ha Hb]]. apply rootOf_lt in Ha, Hb. tauto.
Qed.

Lemma union_good cs p x y :
  goodParent cs p -> x < length cs -> y < length cs -> connIdx cs x y ->
  exists p', union p x y = Some p' /\ goodParent cs p' /\
             (forall a b, sameClass p a b -> sameClass p' a b) /\
             sameClass p' x y.
Proof.
  intros [L [Rt Snd]] Hx Hy Hc.
  destruct (Rt x ltac:(lia)) as [rx Hrx].
  destruct (Rt y ltac:(lia)) as [ry Hry].
  destruct (union_spec p x y rx ry Hrx Hry) as [p' [E [L' K]]].
  exists p'. split; [assumption |].
  assert (Mono : forall a b, sameClass p a b -> sameClass p' a b).
  { intros a b [r [Ha Hb]]. exists (if r =? rx then ry else r). auto. }
  split; [| split; [assumption |]].
  - split; [congruence |]. split.
    + intros z Hz. destruct (Rt z ltac:(lia)) as [s Hs]. eauto.
    + intros a b Hab.
      destruct (sameClass_lt _ _ _ Hab) as [La Lb].
      destruct (Rt a ltac:(lia)) as [sa Hsa].
      destruct (Rt b ltac:(lia)) as [sb Hsb].
      destruct Hab as [r [Ha Hb]].
      pose proof (rootOf_fun _ _ _ _ (K _ _ Hsa) Ha) as Ea.
      pose proof (rootOf_fun _ _ _ _ (K _ _ Hsb) Hb) as Eb.
      destruct (Nat.eq_dec sa sb) as [-> | Ne].
      { apply Snd. exists sb. auto. }
      destruct (Nat.eqb_spec sa rx) as [-> | Na];
        destruct (Nat.eqb_spec sb rx) as [-> | Nb]; try congruence.
      * subst r. subst sb.
        apply connIdx_trans with x; [apply Snd; exists rx; auto |].
        apply connIdx_trans with y; [assumption |].
        apply Snd. exists ry. auto.
      * subst r. subst sa.
        apply connIdx_trans with y; [apply Snd; exists ry; auto |].
        apply connIdx_trans with x; [now apply connIdx_sym |].
        apply Snd. exists rx. auto.
  - exists ry. split.
    + pose proof (K _ _ Hrx) as H. rewrite Nat.eqb_refl in H. exact H.
    + pose proof (K _ _ Hry) as H.
      destruct (Nat.eqb_spec ry rx) as [-> | _]; exact H.
Qed.

(** Loops whose body is only known to extend the state on the elements
    it actually meets. *)
Section GuardedLoops.
Context {S A : Type}.
Variable R : S -> S -> Prop.
Variable f : S -> A -> S.
Variable ok : A -> Prop.
Hypothesis R_refl : forall s, R s s.
Hypothesis R_trans : forall s1 s2 s3, R s1 s2 -> R s2 s3 -> R s1 s3.
Hypothesis f_mono : forall s a, ok a -> R s (f s a).

Lemma guarded_extends l : (forall a, In a l -> ok a) ->
  forall s, R s (fold_left f l s).
Proof.
  induction l as [| a l IH]; intros H s; simpl; [apply R_refl |].
  eapply R_trans; [apply f_mono, H; left; reflexivity |].
  apply IH. intros b Hb. apply H. right. exact Hb.
Qed.

Lemma guarded_reaches l : (forall a, In a l -> ok a) ->
  forall s x, In x l ->
  exists s1, R s s1 /\ R (f s1 x) (fold_left f l s).
Proof.
  induction l as [| a l IH]; intros H s x Hx; simpl; [contradiction |].
  assert (Hl : forall b, In b l -> ok b) by (intros b Hb; apply H; right; exact Hb).
  destruct Hx as [<- | Hx].
  - exists s. split; [apply R_refl | now apply guarded_extends].
  - destruct (IH Hl (f s a) x Hx) as [s1 [H1 H2]].
    exists s1. split; [| assumption].
    eapply R_trans; [apply f_mono, H; left; reflexivity | apply H1].
Qed.
End GuardedLoops.

Lemma coarsens_refl cs po : coarsens cs po po.
Proof. intros p E G. exists p. auto. Qed.

Lemma coarsens_trans cs p1 p2 p3 :
  coarsens cs p1 p2 -> coarsens cs p2 p3 -> coarsens cs p1 p3.
Proof.
  intros H12 H23 p E G.
  destruct (H12 p E G) as [p' [E' [G' M']]].
  destruct (H23 p' E' G') as [p'' [E'' [G'' M'']]].
  exists p''. auto.
Qed.

Lemma union_step_coarsens cs first po i :
  first < length cs -> i < length cs -> connIdx cs first i ->
  coarsens cs po (p <- po ;; union p first i).
Proof.
  intros Hf Hi Hc p -> G. simpl.
  destruct (union_good cs p first i G Hf Hi Hc) as [p' [E [G' [M _]]]].
  exists p'. auto.
Qed.

Lemma unionIndices_coarsens cs po idxs :
  okIndices cs idxs -> coarsens cs po (unionIndices po idxs).
Proof.
  intros Hok. unfold unionIndices.
  destruct idxs as [| first others]; [apply coarsens_refl |].
  apply (guarded_extends (coarsens cs)
           (fun po i => p <- po ;; union p first i)
           (fun i => In i others)).
  - apply coarsens_refl.
  - intros; eapply coarsens_trans; eassumption.
  - intros s a Ha.
    destruct (Hok first a ltac:(left; reflexivity) ltac:(right; exact Ha))
      as [H1 [H2 H3]].
    now apply union_step_coarsens.
  - auto.
Qed.

Lemma unionIndices_joins cs p idxs :
  okIndices cs idxs -> goodParent cs p ->
  exists p', unionIndices (Some p) idxs = Some p' /\ goodParent cs p' /\
             (forall a b, sameClass p a b -> sameClass p' a b) /\
             forall i j, In i idxs -> In j idxs -> sameClass p' i j.
Proof.
  intros Hok G.
  destruct (unionIndices_coarsens cs (Some p) idxs Hok p eq_refl G)
    as [p' [E [G' M]]].
  exists p'. split; [assumption |]. split; [assumption |]. split; [assumption |].
  assert (Head : forall first others, idxs = first :: others ->
                 forall i, In i idxs -> sameClass p' first i).
  { intros first others -> i Hi.
    destruct Hi as [<- | Hi].
    - destruct G' as [L' [Rt' _]].
      destruct (Hok first first ltac:(left; reflexivity) ltac:(left; reflexivity))
        as [Hf _].
      destruct (Rt' first ltac:(lia)) as [r Hr]. exists r. auto.
    - simpl in E.
      destruct (guarded_reaches (coarsens cs)
                  (fun po i => p <- po ;; union p first i)
                  (fun i => In i others)
                  (coarsens_refl cs)
                  (fun a b c => @coarsens_trans cs a b c)) with
        (l := others) (s := Some p) (x := i) as [s1 [R1 R2]]; auto.
      { intros s a Ha.
        destruct (Hok first a ltac:(left; reflexivity) ltac:(right; exact Ha))
          as [H1 [H2 H3]].
        now apply union_step_coarsens. }
      destruct (R1 p eq_refl G) as [p1 [-> [G1 M1]]].
      destruct (Hok first i ltac:(left; reflexivity) ltac:(right; exact Hi))
        as [H1 [H2 H3]].
      destruct (union_good cs p1 first i G1 H1 H2 H3) as [p2 [E2 [G2 [M2 J2]]]].
      simpl in R2. rewrite E2 in R2.
      destruct (R2 p2 eq_refl G2) as [p3 [E3 [G3 M3]]].
      rewrite E in E3. injection E3 as <-. apply M3, J2. }
  intros i j Hi Hj. destruct idxs as [| first others]; [contradiction |].
  destruct (Head first others eq_refl i Hi) as [r [Hf Hri]].
  destruct (Head first others eq_refl j Hj) as [r' [Hf' Hrj]].
  assert (r' = r) by (apply (rootOf_fun p' first); assumption). subst.
  exists r. auto.
Qed.

(** *** The cell map *)

Lemma in_indexed_from {A} (l : list A) : forall s i a,
  In (i, a) (combine (seq s (length l)) l) <->
  s <= i /\ nth_error l (i - s) = Some a.
Proof.
  induction l as [| x l IH]; intros s i a; simpl.
  - split; [tauto | intros [_ H]; destruct (i - s); discriminate].
  - rewrite IH. split.
    + intros [H | [H1 H2]].
      * inversion H. subst. rewrite Nat.sub_diag. auto.
      * split; [lia |]. replace (i - s) with (S (i - S s)) by lia. exact H2.
    + intros [H1 H2]. destruct (Nat.eq_dec i s) as [-> | N].
      * rewrite Nat.sub_diag in H2. simpl in H2. left. congruence.
      * right. split; [lia |].
        replace (i - s) with (S (i - S s)) in H2 by lia. exact H2.
Qed.

Lemma in_indexed {A} (l : list A) i a :
  In (i, a) (indexed l) <-> nth_error l i = Some a.
Proof.
  unfold indexed. rewrite in_indexed_from, Nat.sub_0_r.
  split; [tauto | split; [lia | assumption]].
Qed.

Lemma map_snd_indexed {A} (l : list A) : map snd (indexed l) = l.
Proof.
  unfold indexed. generalize 0.
  induction l as [| x l IH]; intros s; simpl; [reflexivity |].
  now rewrite IH.
Qed.

Lemma extendsMap_refl m : extendsMap m m.
Proof. intros cell idxs i H Hi. eauto. Qed.

Lemma extendsMap_trans m1 m2 m3 :
  extendsMap m1 m2 -> extendsMap m2 m3 -> extendsMap m1 m3.
Proof.
  intros H12 H23 cell idxs i H Hi.
  destruct (H12 _ _ _ H Hi) as [idxs' [H' Hi']]. eauto.
Qed.

Lemma pushIdx_extends m i cell : extendsMap m (pushIdx m i cell).
Proof.
  intros cell' idxs j H Hj. unfold pushIdx.
  destruct (String.eqb_spec cell' cell) as [-> | N].
  - rewrite H. rewrite get_set_same. eexists. split; [reflexivity |].
    apply in_app_iff. auto.
  - destruct (JS.get m cell); rewrite get_set_other by assumption; eauto.
Qed.

Lemma pushIdx_records m i cell :
  exists idxs, JS.get (pushIdx m i cell) cell = Some idxs /\ In i idxs.
Proof.
  unfold pushIdx. destruct (JS.get m cell) as [l |]; rewrite get_set_same.
  - eexists. split; [reflexivity |]. apply in_app_iff. right. left. reflexivity.
  - eexists. split; [reflexivity |]. left. reflexivity.
Qed.

Lemma pushCells_extends i keys : forall m,
  extendsMap m (fold_left (fun m' cell => pushIdx m' i cell) keys m).
Proof.
  apply (loop_extends extendsMap (fun m' cell => pushIdx m' i cell)).
  - apply extendsMap_refl.
  - intros; eapply extendsMap_trans; eassumption.
  - intros. apply pushIdx_extends.
Qed.

(** Every occurrence of a cell in a constraint is recorded. *)
Lemma cellToConstraints_complete cs i c cell :
  nth_error cs i = Some c -> In cell (cells c) ->
  exists idxs, JS.get (cellToConstraints cs) cell = Some idxs /\ In i idxs.
Proof.
  intros Hi Hc. unfold cellToConstraints.
  set (f := fun (m : JS.Obj (list nat)) (p : nat * Constraint) =>
              fold_left (fun m' cell => pushIdx m' (fst p) cell) (cells (snd p)) m).
  assert (Tr : forall a b c0, extendsMap a b -> extendsMap b c0 -> extendsMap a c0)
    by (intros; eapply extendsMap_trans; eassumption).
  destruct (loop_reaches extendsMap f extendsMap_refl Tr
              (fun s a => pushCells_extends (fst a) (cells (snd a)) s)
              (indexed cs) [] (i, c)) as [m1 [_ R1]].
  { now apply in_indexed. }
  unfold f at 1 in R1. simpl in R1.
  destruct (loop_reaches extendsMap (fun m' cell0 => pushIdx m' i cell0)
              extendsMap_refl Tr (fun s a => pushIdx_extends s i a)
              (cells c) m1 cell Hc) as [m2 [_ R2]].
  destruct (pushIdx_records m2 i cell) as [idxs [G Hin]].
  destruct (R2 _ _ _ G Hin) as [idxs2 [G2 Hin2]].
  exact (R1 _ _ _ G2 Hin2).
Qed.

(** Every recorded index is the index of a constraint holding the cell. *)
Lemma cellToConstraints_sound cs cell idxs i :
  In (cell, idxs) (cellToConstraints cs) -> In i idxs ->
  exists c, nth_error cs i = Some c /\ In cell (cells c).
Proof.
  unfold cellToConstraints.
  set (P := fun m : JS.Obj (list nat) =>
              forall cell idxs i, In (cell, idxs) m -> In i idxs ->
              exists c, nth_error cs i = Some c /\ In cell (cells c)).
  assert (Push : forall m j c0 key, P m -> nth_error cs j = Some c0 ->
                 In key (cells c0) -> P (pushIdx m j key)).
  { intros m j c0 key Pm Hj Hk cell' idxs' i' Hin Hi'.
    unfold pushIdx in Hin. destruct (JS.get m key) as [l |] eqn:G.
    - apply in_set in Hin. destruct Hin as [[-> ->] | Hin]; [| eauto].
      apply in_app_iff in Hi'. destruct Hi' as [Hi' | [<- | []]]; [| eauto].
      apply get_in in G. eauto.
    - apply in_set in Hin. destruct Hin as [[-> ->] | Hin]; [| eauto].
      destruct Hi' as [<- | []]. eauto. }
  assert (Inner : forall j c0 keys m, P m -> nth_error cs j = Some c0 ->
                  incl keys (cells c0) ->
                  P (fold_left (fun m' key => pushIdx m' j key) keys m)).
  { intros j c0 keys. induction keys as [| key keys IH]; intros m Pm Hj Hinc;
      simpl; [assumption |].
    apply IH; [| assumption | intros x Hx; apply Hinc; right; exact Hx].
    eapply Push; eauto. apply Hinc. left. reflexivity. }
  assert (Outer : forall l m, P m ->
                  (forall p, In p l -> nth_error cs (fst p) = Some (snd p)) ->
                  P (fold_left (fun m p =>
                       fold_left (fun m' key => pushIdx m' (fst p) key)
                                 (cells (snd p)) m) l m)).
  { induction l as [| p l IH]; intros m Pm Hl; simpl; [assumption |].
    apply IH; [| intros q Hq; apply Hl; right; exact Hq].
    eapply Inner; [assumption | apply Hl; left; reflexivity | apply incl_refl]. }
  intros Hin Hi. eapply (Outer (indexed cs) []); eauto.
  - intros ? ? ? [].
  - intros [j c0] Hp. now apply in_indexed.
Qed.

Lemma cellToConstraints_ok cs idxs :
  In idxs (map snd (cellToConstraints cs)) -> okIndices cs idxs.
Proof.
  intros H. apply in_map_iff in H. destruct H as [[cell l] [E H]].
  simpl in E. subst l. intros i j Hi Hj.
  destruct (cellToConstraints_sound cs cell idxs i H Hi) as [ci [Ei Ci]].
  destruct (cellToConstraints_sound cs cell idxs j H Hj) as [cj [Ej Cj]].
  split; [apply nth_error_Some; congruence |].
  split; [apply nth_error_Some; congruence |].
  apply connIdx_share with ci cj; auto. exists cell. auto.
Qed.

(** *** All unions *)

Lemma goodParent_seq cs : goodParent cs (seq 0 (length cs)).
Proof.
  split; [apply length_seq |]. split; [apply rooted_seq |].
  intros a b [r [Ha Hb]].
  pose proof (rootOf_lt _ _ _ Ha) as [La _]. rewrite length_seq in La.
  apply rootOf_seq in Ha, Hb. subst. now apply connIdx_refl.
Qed.

Lemma unionAll_spec cs :
  exists p, unionAll cs = Some p /\ goodParent cs p /\
            forall i j ci cj, nth_error cs i = Some ci -> nth_error cs j = Some cj ->
                              shares ci cj -> sameClass p i j.
Proof.
  unfold unionAll.
  assert (Tr : forall a b c, coarsens cs a b -> coarsens cs b c -> coarsens cs a c)
    by (intros; eapply coarsens_trans; eassumption).
  pose proof (guarded_extends (coarsens cs) unionIndices (okIndices cs)
                (coarsens_refl cs) Tr
                (fun s a H => unionIndices_coarsens cs s a H)
                (map snd (cellToConstraints cs))
                (cellToConstraints_ok cs)
                (Some (seq 0 (length cs)))) as All.
  destruct (All _ eq_refl (goodParent_seq cs)) as [p [E [G _]]].
  exists p. split; [assumption |]. split; [assumption |].
  intros i j ci cj Hi Hj [cell [Ci Cj]].
  destruct (cellToConstraints_complete cs i ci cell Hi Ci) as [idxs [Gi Ii]].
  destruct (cellToConstraints_complete cs j cj cell Hj Cj) as [idxs' [Gj Ij]].
  assert (idxs' = idxs) by congruence. subst idxs'.
  assert (Hin : In idxs (map snd (cellToConstraints cs))).
  { apply in_map_iff. exists (cell, idxs). split; [reflexivity |]. now apply get_in. }
  destruct (guarded_reaches (coarsens cs) unionIndices (okIndices cs)
              (coarsens_refl cs) Tr
              (fun s a H => unionIndices_coarsens cs s a H)
              (map snd (cellToConstraints cs))
              (cellToConstraints_ok cs)
              (Some (seq 0 (length cs))) idxs Hin) as [s1 [R1 R2]].
  destruct (R1 _ eq_refl (goodParent_seq cs)) as [p1 [-> [G1 _]]].
  destruct (unionIndices_joins cs p1 idxs (cellToConstraints_ok cs idxs Hin) G1)
    as [p2 [E2 [G2 [_ J2]]]].
  destruct (R2 p2 E2 G2) as [p3 [E3 [_ M3]]].
  rewrite E in E3. injection E3 as <-. apply M3, J2; assumption.
Qed.

(** *** Grouping by root *)

Lemma getN_in {V} (o : list (nat * V)) k v : JS.getN o k = Some v -> In (k, v) o.
Proof.
  induction o as [| [k0 v0] o IH]; simpl; [discriminate |].
  destruct (Nat.eqb_spec k k0) as [-> | N].
  - intros [= ->]. auto.
  - auto.
Qed.

Lemma setN_new {V} (o : list (nat * V)) k v :
  JS.getN o k = None -> JS.setN o k v = o ++ [(k, v)] /\ ~ In k (map fst o).
Proof.
  induction o as [| [k0 v0] o IH]; simpl; [auto |].
  destruct (Nat.eqb_spec k k0) as [-> | N]; [discriminate |].
  intros H. destruct (IH H) as [E Hn]. rewrite E. split; [reflexivity |].
  intros [F | F]; [congruence | contradiction].
Qed.

Lemma setN_old {V} (o : list (nat * V)) k g v :
  JS.getN o k = Some g ->
  exists o1 o2, o = o1 ++ (k, g) :: o2 /\ JS.setN o k v = o1 ++ (k, v) :: o2.
Proof.
  induction o as [| [k0 v0] o IH]; simpl; [discriminate |].
  destruct (Nat.eqb_spec k k0) as [-> | N].
  - intros [= ->]. exists [], o. auto.
  - intros H. destruct (IH H) as [o1 [o2 [E1 E2]]].
    exists ((k0, v0) :: o1), o2. simpl. rewrite <- E1, E2. auto.
Qed.

Lemma groupStep_inv cs p0 done s idx c :
  length p0 = length cs -> rooted p0 ->
  nth_error cs idx = Some c ->
  groupsInv p0 done s ->
  exists s', groupStep (Some s) (idx, c) = Some s' /\
             groupsInv p0 (done ++ [(idx, c)]) s'.
Proof.
  intros L Rt Hc [Ls [Keep [ND [Mem Perm]]]].
  assert (Hidx : idx < length p0).
  { rewrite L. apply nth_error_Some. congruence. }
  destruct (Rt idx Hidx) as [r Hr].
  destruct (find_spec (fst s) idx r (Keep _ _ Hr)) as [p' [E [L' K']]].
  unfold groupStep. simpl. rewrite E. simpl.
  eexists. split; [reflexivity |].
  unfold groupsInv. simpl.
  split; [congruence |]. split; [auto |].
  rewrite map_app. simpl.
  destruct (JS.getN (snd s) r) as [g |] eqn:G.
  - destruct (setN_old (snd s) r g (g ++ [c]) G) as [o1 [o2 [E1 E2]]].
    rewrite E2. rewrite E1 in ND, Mem, Perm. split; [| split].
    + rewrite map_app in *. simpl in *. exact ND.
    + intros r' g' c' Hin Hc'. apply in_app_iff in Hin.
      destruct Hin as [Hin | [Hin | Hin]].
      * destruct (Mem r' g' c') as [i [Hi Ri]]; auto.
        { apply in_app_iff. auto. }
        exists i. split; [apply in_app_iff |]; auto.
      * injection Hin as <- <-. apply in_app_iff in Hc'.
        destruct Hc' as [Hc' | [<- | []]].
        -- destruct (Mem r g c') as [i [Hi Ri]]; auto.
           { apply in_app_iff. right. left. reflexivity. }
           exists i. split; [apply in_app_iff |]; auto.
        -- exists idx. split; [apply in_app_iff; right; left; reflexivity | assumption].
      * destruct (Mem r' g' c') as [i [Hi Ri]]; auto.
        { apply in_app_iff. right. right. exact Hin. }
        exists i. split; [apply in_app_iff |]; auto.
    + rewrite map_app, concat_app in *. simpl in *.
      rewrite <- app_assoc. simpl.
      apply Permutation_trans with
        ((concat (map snd o1) ++ g ++ concat (map snd o2)) ++ [c]).
      * rewrite <- !app_assoc. apply Permutation_app_head, Permutation_app_head.
        apply (Permutation_app_comm [c]).
      * now apply Permutation_app_tail.
  - destruct (setN_new (snd s) r [c] G) as [E1 Hn]. rewrite E1. split; [| split].
    + rewrite map_app. simpl. apply NoDup_app; [assumption | repeat constructor; auto |].
      intros a Ha [<- | []]. exact (Hn Ha).
    + intros r' g' c' Hin Hc'. apply in_app_iff in Hin.
      destruct Hin as [Hin | [Hin | []]].
      * destruct (Mem r' g' c') as [i [Hi Ri]]; auto.
        exists i. split; [apply in_app_iff |]; auto.
      * injection Hin as <- <-. destruct Hc' as [<- | []].
        exists idx. split; [apply in_app_iff; right; left; reflexivity | assumption].
    + rewrite map_app, concat_app. simpl.
      now apply Permutation_app_tail.
Qed.

Lemma grouping_spec cs p0 :
  length p0 = length cs -> rooted p0 ->
  forall todo done s,
    done ++ todo = indexed cs -> groupsInv p0 done s ->
    exists s', fold_left groupStep todo (Some s) = Some s' /\
               groupsInv p0 (indexed cs) s'.
Proof.
  intros L Rt. induction todo as [| [idx c] todo IH]; intros done s E Inv;
    cbn [fold_left].
  - rewrite app_nil_r in E. subst. eauto.
  - assert (Hc : nth_error cs idx = Some c).
    { apply in_indexed. rewrite <- E. apply in_app_iff. right. left. reflexivity. }
    destruct (groupStep_inv cs p0 done s idx c L Rt Hc Inv) as [s' [E' Inv']].
    rewrite E'. apply (IH (done ++ [(idx, c)])); [| assumption].
    rewrite <- app_assoc. exact E.
Qed.

(** The properties of the partition that need no assumption on the list. *)
Lemma partition_spec cs :
  exists gs, partitionConstraints cs = Some gs /\
    Permutation (concat gs) cs /\
    (forall a b g1 g2 c1 c2,
        nth_error gs a = Some g1 -> nth_error gs b = Some g2 ->
        In c1 g1 -> In c2 g2 -> shares c1 c2 -> a = b) /\
    (forall g c1 c2, In g gs -> In c1 g -> In c2 g -> linked cs c1 c2).
Proof.
  unfold partitionConstraints.
  destruct (Nat.eqb_spec (length cs) 0) as [Z | NZ].
  { destruct cs; [| discriminate]. exists []. split; [reflexivity |].
    split; [constructor |]. split.
    - intros a b g1 g2 c1 c2 H. destruct a; discriminate.
    - intros g c1 c2 []. }
  destruct (unionAll_spec cs) as [p0 [E0 [[L [Rt Snd]] Cmp]]].
  rewrite E0. simpl.
  destruct (grouping_spec cs p0 L Rt (indexed cs) [] (p0, [])) as [s [E [Ls [Keep [ND [Mem Perm]]]]]].
  { reflexivity. }
  { unfold groupsInv. simpl. repeat split; auto; try constructor.
    intros r g c []. }
  rewrite E. simpl. eexists. split; [reflexivity |].
  rewrite map_snd_indexed in Perm. split; [assumption |]. split.
  - intros a b g1 g2 c1 c2 Ha Hb H1 H2 Hs.
    rewrite nth_error_map in Ha, Hb.
    destruct (nth_error (snd s) a) as [[r1 g1'] |] eqn:Ea; [| discriminate].
    destruct (nth_error (snd s) b) as [[r2 g2'] |] eqn:Eb; [| discriminate].
    simpl in Ha, Hb. injection Ha as ->. injection Hb as ->.
    destruct (Mem r1 g1 c1 (nth_error_In _ _ Ea) H1) as [i1 [I1 R1]].
    destruct (Mem r2 g2 c2 (nth_error_In _ _ Eb) H2) as [i2 [I2 R2]].
    apply in_indexed in I1, I2.
    destruct (Cmp i1 i2 c1 c2 I1 I2 Hs) as [r [Q1 Q2]].
    assert (r1 = r) by (eapply rootOf_fun; eassumption).
    assert (r2 = r) by (eapply rootOf_fun; eassumption). subst r1 r2.
    apply (proj1 (NoDup_nth_error (map fst (snd s))) ND).
    + rewrite length_map. apply nth_error_Some. congruence.
    + rewrite !nth_error_map, Ea, Eb. reflexivity.
  - intros g c1 c2 Hg H1 H2. apply in_map_iff in Hg.
    destruct Hg as [[r g'] [Eg Hg]]. simpl in Eg. subst g'.
    destruct (Mem r g c1 Hg H1) as [i1 [I1 R1]].
    destruct (Mem r g c2 Hg H2) as [i2 [I2 R2]].
    apply in_indexed in I1, I2.
    destruct (Snd i1 i2) as [d1 [d2 [D1 [D2 Hl]]]]; [exists r; auto |].
    congruence.
Qed.

(** C8. For a non-empty list of constraints with non-empty cell sets,
    [partitionConstraints] returns groups that hold every constraint of
    the list exactly once, every constraint in exactly one group, put any
    two constraints that share a cell in the same group, and only put
    constraints in the same group that are connected by a chain of
    constraints sharing cells. *)
Theorem C8_partition_components cs :
  cs <> [] -> (forall c, In c cs -> cells c <> []) ->
  exists gs, partitionConstraints cs = Some gs /\
    Permutation (concat gs) cs /\
    (forall c, In c cs ->
       exists a, (exists g, nth_error gs a = Some g /\ In c g) /\
                 forall b g', nth_error gs b = Some g' -> In c g' -> b = a) /\
    (forall a b g1 g2 c1 c2,
        nth_error gs a = Some g1 -> nth_error gs b = Some g2 ->
        In c1 g1 -> In c2 g2 -> shares c1 c2 -> a = b) /\
    (forall g c1 c2, In g gs -> In c1 g -> In c2 g -> linked cs c1 c2).
Proof.
  intros _ Hne. destruct (partition_spec cs) as [gs [E [Perm [Sh Lk]]]].
  exists gs. repeat split; auto.
  intros c Hc.
  assert (Hin : In c (concat gs)).
  { eapply Permutation_in; [apply Permutation_sym, Perm | exact Hc]. }
  apply in_concat in Hin. destruct Hin as [g [Hg Hcg]].
  apply In_nth_error in Hg. destruct Hg as [a Ha].
  exists a. split; [eauto |].
  intros b g' Hb Hcg'. apply (Sh b a g' g c c); auto.
  destruct (cells c) as [| key l] eqn:Ec; [exfalso; eapply Hne; eauto |].
  exists key. rewrite Ec. simpl. auto.
Qed.

Lemma C8_partition_components_witness :
  exists gs,
    partitionConstraints (snd (extract boardThreeRows)) = Some gs /\
    Permutation (concat gs) (snd (extract boardThreeRows)).
Proof.
  destruct (C8_partition_components (snd (extract boardThreeRows)))
    as [gs [E [P _]]].
  - vm_compute. discriminate.
  - intros c Hc. vm_compute in Hc.
    destruct Hc as [<- | [<- | [<- | []]]]; discriminate.
  - exists gs. auto.
Defined.

(** ** Enumeration of the assignments *)

Lemma validAssignment_satisfies group mineSet :
  validAssignment group mineSet = true <-> satisfies mineSet group.
Proof.
  unfold validAssignment, satisfies, mineCount. rewrite forallb_forall.
  split; intros H c Hc; [apply Z.eqb_eq | apply Z.eqb_eq]; apply H, Hc.
Qed.

Lemma assignmentFrom_succ l : forall s mask,
  assignmentFrom (S s) l mask = assignmentFrom s l (N.div2 mask).
Proof.
  unfold assignmentFrom.
  induction l as [| x l IH]; intros s mask; [reflexivity |].
  cbn -[N.of_nat N.testbit N.div2].
  rewrite Nat2N.inj_succ, <- N.testbit_div2.
  destruct (N.testbit (N.div2 mask) (N.of_nat s));
    cbn -[N.of_nat N.testbit N.div2]; now rewrite IH.
Qed.

Lemma assignment_cons x l mask :
  assignment (x :: l) mask =
  if N.testbit mask 0 then x :: assignment l (N.div2 mask)
  else assignment l (N.div2 mask).
Proof.
  unfold assignment, indexed. cbn -[N.of_nat N.testbit N.div2].
  pose proof (assignmentFrom_succ l 0 mask) as H. unfold assignmentFrom in H.
  change (N.of_nat 0) with 0%N.
  destruct (N.testbit mask 0); cbn -[N.of_nat N.testbit N.div2]; now rewrite H.
Qed.

Lemma masksFrom_double k : forall a,
  masksFrom (2 * a) (k + k) =
  flat_map (fun m => [(2 * m)%N; (2 * m + 1)%N]) (masksFrom a k).
Proof.
  induction k as [| k IH]; intros a; [reflexivity |].
  replace (S k + S k) with (S (S (k + k))) by lia. cbn [masksFrom flat_map app].
  replace (N.succ (N.succ (2 * a))) with (2 * N.succ a)%N by lia.
  replace (N.succ (2 * a)) with (2 * a + 1)%N by lia.
  now rewrite IH.
Qed.

Lemma pow2_succ n :
  N.to_nat (2 ^ N.of_nat (S n)) = N.to_nat (2 ^ N.of_nat n) + N.to_nat (2 ^ N.of_nat n).
Proof.
  rewrite Nat2N.inj_succ, N.pow_succ_r'. lia.
Qed.

(** Counting the masks up from 0 lists every subset once, in the order
    of [subsets]. *)
Lemma masks_subsets l :
  map (assignment l) (masksFrom 0 (N.to_nat (2 ^ N.of_nat (length l)))) = subsets l.
Proof.
  induction l as [| x l IH].
  - reflexivity.
  - cbn [length subsets]. rewrite pow2_succ.
    change 0%N with (2 * 0)%N. rewrite masksFrom_double.
    rewrite <- IH. generalize (masksFrom 0 (N.to_nat (2 ^ N.of_nat (length l)))).
    intros ms. induction ms as [| m ms IHm]; [reflexivity |].
    cbn [flat_map]. rewrite map_app, IHm. cbn [map app].
    rewrite !assignment_cons, N.testbit_even_0, N.testbit_odd_0,
      N.div2_even, N.div2_odd'. reflexivity.
Qed.

Lemma cap_test n : (maxSolutions <=? N.of_nat n)%N = (cap <=? n).
Proof.
  unfold cap. generalize maxSolutions. intros m.
  destruct (N.leb_spec m (N.of_nat n)) as [H | H];
    destruct (Nat.leb_spec (N.to_nat m) n) as [H' | H'];
    try reflexivity; lia.
Qed.

Section SolveLoop.
Variables (cellArray : list string) (group : list Constraint) (limit : nat).
Hypothesis limit_test :
  forall n, (maxSolutions <=? N.of_nat n)%N = (limit <=? n).

Lemma solveLoop_limit todo : forall mask solutions,
  length solutions <= limit ->
  solveLoop cellArray group todo mask solutions =
  firstn limit (solutions ++
                filter (validAssignment group)
                       (map (assignment cellArray) (masksFrom mask todo))).
Proof.
  induction todo as [| todo IH]; intros mask solutions Hl.
  - cbn [solveLoop masksFrom map filter]. rewrite app_nil_r.
    symmetry. apply firstn_all2. exact Hl.
  - cbn [solveLoop masksFrom map filter]. rewrite limit_test.
    destruct (Nat.leb_spec limit (length solutions)) as [Hc | Hc].
    + assert (E : length solutions = limit) by (apply Nat.le_antisymm; assumption).
      rewrite firstn_app, E, Nat.sub_diag, firstn_O, app_nil_r.
      symmetry. apply firstn_all2. rewrite E. apply Nat.le_refl.
    + destruct (validAssignment group (assignment cellArray mask)).
      * rewrite IH.
        -- rewrite <- app_assoc. reflexivity.
        -- rewrite length_app. cbn [length]. rewrite Nat.add_1_r. exact Hc.
      * apply IH. exact Hl.
Qed.
End SolveLoop.

Lemma solveConstraints_spec cellArray group :
  length cellArray <= 20 ->
  solveConstraints cellArray group = firstn cap (satisfying cellArray group).
Proof.
  intros Hn. unfold solveConstraints, satisfying.
  destruct (N.ltb_spec 1048576 (2 ^ N.of_nat (length cellArray))) as [Hb | Hb].
  - exfalso. assert (H : (2 ^ N.of_nat (length cellArray) <= 2 ^ 20)%N).
    { apply N.pow_le_mono_r; lia. }
    change (2 ^ 20)%N with 1048576%N in H. lia.
  - rewrite (solveLoop_limit cellArray group cap cap_test).
    + cbn [app]. rewrite masks_subsets. reflexivity.
    + apply Nat.le_0_l.
Qed.

Lemma subsets_members l : forall s,
  In s (subsets l) -> incl s l /\ (NoDup l -> NoDup s).
Proof.
  induction l as [| x l IH]; intros s Hs; simpl in Hs.
  - destruct Hs as [<- | []]. split; [apply incl_refl | auto].
  - apply in_flat_map in Hs. destruct Hs as [s0 [H0 Hs]].
    destruct (IH s0 H0) as [Hi Hd].
    destruct Hs as [<- | [<- | []]].
    + split; [apply incl_tl, Hi |]. intros ND. inversion ND. auto.
    + split.
      * intros y [<- | Hy]; [left; reflexivity | right; apply Hi, Hy].
      * intros ND. inversion ND as [| ? ? Hn Hd']. subst.
        constructor; [intros F; apply Hn, Hi, F | auto].
Qed.

(** Every subset of the cells, given by its membership test, is listed. *)
Lemma subsets_complete (f : string -> bool) l : In (filter f l) (subsets l).
Proof.
  induction l as [| x l IH]; simpl; [auto |].
  apply in_flat_map. exists (filter f l). split; [assumption |].
  destruct (f x); simpl; auto.
Qed.

Lemma subsets_nodup l : NoDup l -> NoDup (subsets l).
Proof.
  induction l as [| x l IH]; intros ND; simpl.
  - repeat constructor. auto.
  - inversion ND as [| ? ? Hn Hd]. subst. specialize (IH Hd).
    assert (Hx : forall s, In s (subsets l) -> ~ In x s).
    { intros s Hs F. apply Hn. now apply (proj1 (subsets_members l s Hs)). }
    revert IH Hx. generalize (subsets l). intros L.
    induction L as [| s L IHL]; intros NDL Hx; simpl; [constructor |].
    inversion NDL as [| ? ? Hs HL]. subst.
    assert (Tail : forall t, In t (flat_map (fun s0 => [s0; x :: s0]) L) ->
                   exists s0, In s0 L /\ (t = s0 \/ t = x :: s0)).
    { intros t Ht. apply in_flat_map in Ht. destruct Ht as [s0 [H0 Ht]].
      exists s0. split; [assumption |]. simpl in Ht. intuition. }
    constructor; [| constructor].
    + intros [F | F].
      * apply (f_equal (@length string)) in F. simpl in F. lia.
      * destruct (Tail _ F) as [s0 [H0 [E | E]]].
        -- subst. contradiction.
        -- apply (Hx s); [left; reflexivity |]. rewrite E. left. reflexivity.
    + intros F. destruct (Tail _ F) as [s0 [H0 [E | E]]].
      * apply (Hx s0); [right; assumption |]. rewrite <- E. left. reflexivity.
      * injection E as ->. contradiction.
    + apply IHL; [assumption |]. intros s0 H0. apply Hx. right. assumption.
Qed.

Lemma satisfying_members cellArray group s :
  In s (satisfying cellArray group) ->
  incl s cellArray /\ (NoDup cellArray -> NoDup s) /\ satisfies s group.
Proof.
  unfold satisfying. rewrite filter_In. intros [H1 H2].
  destruct (subsets_members _ _ H1). repeat split; auto.
  now apply validAssignment_satisfies.
Qed.

(** *** Counting the mines of the solutions *)

Lemma fold_set_const {V} (v : V) ks : forall (o : JS.Obj V) k,
  JS.get (fold_left (fun o' key => JS.set o' key v) ks o) k =
  if JS.has ks k then Some v else JS.get o k.
Proof.
  induction ks as [| a ks IH]; intros o k; simpl; [reflexivity |].
  rewrite IH, get_set. unfold JS.has at 2. simpl.
  destruct (JS.has ks k) eqn:E.
  - unfold JS.has in E. rewrite E. now rewrite orb_true_r.
  - unfold JS.has in E. rewrite E, orb_false_r. reflexivity.
Qed.

Lemma get_bump mc k k' :
  JS.get (bump mc k) k' =
  if String.eqb k' k then option_map S (JS.get mc k') else JS.get mc k'.
Proof.
  unfold bump. destruct (String.eqb_spec k' k) as [-> | N].
  - destruct (JS.get mc k) as [n |] eqn:E; [| now rewrite E].
    now rewrite get_set_same.
  - destruct (JS.get mc k) as [n |]; [| reflexivity].
    now rewrite get_set_other.
Qed.

Lemma get_fold_bump s : forall mc k,
  JS.get (fold_left bump s mc) k =
  option_map (Nat.add (count_occ string_dec s k)) (JS.get mc k).
Proof.
  induction s as [| a s IH]; intros mc k; simpl.
  - destruct (JS.get mc k); reflexivity.
  - rewrite IH, get_bump.
    destruct (string_dec a k) as [-> | N].
    + rewrite String.eqb_refl. destruct (JS.get mc k); simpl; [f_equal; lia | reflexivity].
    + destruct (String.eqb_spec k a); [congruence | reflexivity].
Qed.

Lemma count_occ_nodup s k :
  NoDup s -> count_occ string_dec s k = if JS.has s k then 1 else 0.
Proof.
  intros ND. destruct (JS.has s k) eqn:E.
  - apply has_true in E. apply NoDup_count_occ'; assumption.
  - apply has_false in E. now apply count_occ_not_In.
Qed.

Lemma get_countMines cellArray solutions key :
  In key cellArray -> (forall s, In s solutions -> NoDup s) ->
  JS.get (countMines cellArray solutions) key = Some (minesOn key solutions).
Proof.
  intros Hk Hs. unfold countMines.
  set (mc0 := fold_left (fun mc key0 => JS.set mc key0 0) cellArray []).
  assert (G : forall sols mc,
             (forall s, In s sols -> NoDup s) ->
             JS.get (fold_left (fun mc s => fold_left bump s mc) sols mc) key =
             option_map (Nat.add (minesOn key sols)) (JS.get mc key)).
  { induction sols as [| s sols IH]; intros mc Hnd; simpl.
    - destruct (JS.get mc key); reflexivity.
    - rewrite IH by (intros; apply Hnd; right; assumption).
      rewrite get_fold_bump, count_occ_nodup by (apply Hnd; left; reflexivity).
      unfold minesOn. simpl.
      destruct (JS.get mc key); [| reflexivity].
      destruct (JS.has s key); simpl; f_equal; lia. }
  rewrite G by assumption. unfold mc0. rewrite fold_set_const.
  apply has_true in Hk. rewrite Hk. simpl. f_equal. lia.
Qed.

Lemma minesOn_le key solutions : minesOn key solutions <= length solutions.
Proof. apply filter_length_le. Qed.

(** ** The probability map *)

Lemma clamp01_unit q : inUnit (clamp01 q).
Proof.
  unfold inUnit, clamp01. split.
  - apply Q.le_max_l.
  - apply Q.max_lub; [discriminate | apply Q.le_min_l].
Qed.

Lemma ofNat_pos n : 0 < n -> (0 < ofNat n)%Q.
Proof.
  intros H. unfold ofNat, Qlt. simpl. lia.
Qed.

Lemma ofNat_le a b : a <= b -> (ofNat a <= ofNat b)%Q.
Proof.
  intros H. unfold ofNat, Qle. simpl. lia.
Qed.

Lemma ratio_unit a b : a <= b -> 0 < b -> inUnit (ofNat a / ofNat b).
Proof.
  intros Hab Hb. pose proof (ofNat_pos b Hb) as Pb. split.
  - apply Qle_shift_div_l; [assumption |]. rewrite Qmult_0_l.
    unfold ofNat, Qle. simpl. lia.
  - apply Qle_shift_div_r; [assumption |]. rewrite Qmult_1_l.
    now apply ofNat_le.
Qed.

Lemma ratio_one b : 0 < b -> (ofNat b / ofNat b == 1)%Q.
Proof.
  intros Hb. unfold Qdiv. apply Qmult_inv_r.
  pose proof (ofNat_pos b Hb) as P. intros E. rewrite E in P. discriminate.
Qed.

Lemma ratio_zero b : (ofNat 0 / ofNat b == 0)%Q.
Proof. unfold Qdiv. apply Qmult_0_l. Qed.

(** *** Loops that write the map *)

Lemma get_fold_set {V} (f : string -> V) ks : forall (o : JS.Obj V) k,
  JS.get (fold_left (fun o' key => JS.set o' key (f key)) ks o) k =
  if JS.has ks k then Some (f k) else JS.get o k.
Proof.
  induction ks as [| a ks IH]; intros o k; simpl; [reflexivity |].
  rewrite IH, get_set. unfold JS.has at 2. simpl.
  destruct (JS.has ks k) eqn:E; unfold JS.has in E; rewrite E.
  - now rewrite orb_true_r.
  - rewrite orb_false_r. destruct (String.eqb_spec k a) as [-> | N]; reflexivity.
Qed.

Lemma in_fold_set {V} (f : string -> V) ks : forall (o : JS.Obj V) k v,
  In (k, v) (fold_left (fun o' key => JS.set o' key (f key)) ks o) ->
  In (k, v) o \/ (In k ks /\ v = f k).
Proof.
  induction ks as [| a ks IH]; intros o k v H; simpl in *; [auto |].
  destruct (IH _ _ _ H) as [H1 | [H1 H2]]; [| auto].
  apply in_set in H1. destruct H1 as [[-> ->] | H1]; auto.
Qed.

Lemma keys_fold_set {V} (f : string -> V) ks : forall (o : JS.Obj V),
  NoDup (JS.keys o) ->
  NoDup (JS.keys (fold_left (fun o' key => JS.set o' key (f key)) ks o)).
Proof.
  induction ks as [| a ks IH]; intros o H; simpl; [assumption |].
  apply IH, nodup_keys_set, H.
Qed.

Lemma get_setIfMissing {V} (f : string -> V) res key k :
  JS.get (setIfMissing f res key) k =
  match JS.get res k with
  | Some v => Some v
  | None => if String.eqb k key then Some (f key) else None
  end.
Proof.
  unfold setIfMissing. destruct (JS.get res key) as [v0 |] eqn:E.
  - destruct (JS.get res k) as [v |] eqn:Ek; [reflexivity |].
    destruct (String.eqb_spec k key) as [-> | N]; [congruence | reflexivity].
  - rewrite get_set. destruct (String.eqb_spec k key) as [-> | N].
    + now rewrite E.
    + destruct (JS.get res k); reflexivity.
Qed.

Lemma get_fold_missing {V} (f : string -> V) ks : forall res k,
  JS.get (fold_left (setIfMissing f) ks res) k =
  match JS.get res k with
  | Some v => Some v
  | None => if JS.has ks k then Some (f k) else None
  end.
Proof.
  induction ks as [| a ks IH]; intros res k; simpl.
  - destruct (JS.get res k); reflexivity.
  - rewrite IH, get_setIfMissing. unfold JS.has at 2. simpl.
    destruct (JS.get res k) as [v |]; [reflexivity |].
    destruct (String.eqb_spec k a) as [-> | N]; simpl; [reflexivity |].
    reflexivity.
Qed.

Lemma in_fold_missing {V} (f : string -> V) ks : forall res k v,
  In (k, v) (fold_left (setIfMissing f) ks res) ->
  In (k, v) res \/ (In k ks /\ v = f k).
Proof.
  induction ks as [| a ks IH]; intros res k v H; simpl in *; [auto |].
  destruct (IH _ _ _ H) as [H1 | [H1 H2]]; [| auto].
  unfold setIfMissing in H1. destruct (JS.get res a); [auto |].
  apply in_set in H1. destruct H1 as [[-> ->] | H1]; auto.
Qed.

Lemma keys_fold_missing {V} (f : string -> V) ks : forall res,
  NoDup (JS.keys res) -> NoDup (JS.keys (fold_left (setIfMissing f) ks res)).
Proof.
  induction ks as [| a ks IH]; intros res H; simpl; [assumption |].
  apply IH. unfold setIfMissing. destruct (JS.get res a); [assumption |].
  now apply nodup_keys_set.
Qed.

Lemma in_entry_get {V} (o : JS.Obj V) k v :
  NoDup (JS.keys o) -> In (k, v) o -> JS.get o k = Some v.
Proof.
  unfold JS.keys. induction o as [| [k0 v0] o IH]; simpl; intros ND H; [contradiction |].
  inversion ND as [| ? ? Hn Hd]. subst.
  destruct H as [H | H].
  - injection H as -> ->. now rewrite String.eqb_refl.
  - destruct (String.eqb_spec k k0) as [-> | N]; [| auto].
    exfalso. apply Hn. apply in_map_iff. exists (k0, v). auto.
Qed.

(** *** Known cells *)

Lemma get_recordKnown k key :
  JS.get (recordKnown k) key =
  if JS.has (knownMines k) key then Some 1%Q
  else if JS.has (knownSafe k) key then Some 0%Q else None.
Proof.
  unfold recordKnown.
  rewrite (get_fold_set (fun _ => 1%Q)), (get_fold_set (fun _ => 0%Q)).
  reflexivity.
Qed.

Lemma recordKnown_unit k : allInUnit (recordKnown k).
Proof.
  intros key v H. unfold recordKnown in H.
  apply (in_fold_set (fun _ => 1%Q)) in H. destruct H as [H | [_ ->]].
  - apply (in_fold_set (fun _ => 0%Q)) in H. destruct H as [[] | [_ ->]].
    split; discriminate.
  - split; discriminate.
Qed.

Lemma recordKnown_nodup k : NoDup (JS.keys (recordKnown k)).
Proof.
  unfold recordKnown.
  apply (keys_fold_set (fun _ => 1%Q)), (keys_fold_set (fun _ => 0%Q)). constructor.
Qed.

(** *** Groups *)

Lemma groupCells_spec group key :
  In key (groupCells group) <-> exists c, In c group /\ In key (cells c).
Proof.
  unfold groupCells.
  assert (G : forall g s, In key (fold_left (fun s c => JS.addAll s (cells c)) g s)
                          <-> In key s \/ exists c, In c g /\ In key (cells c)).
  { induction g as [| c g IH]; intros s; simpl.
    - split; [auto | intros [H | [c [[] _]]]; assumption].
    - rewrite IH, in_addAll. split.
      + intros [[H | H] | [c' [H1 H2]]]; eauto.
      + intros [H | [c' [[<- | H1] H2]]]; eauto. }
  rewrite G. split; [intros [[] | H]; exact H | auto].
Qed.

Lemma groupCells_nodup group : NoDup (groupCells group).
Proof.
  unfold groupCells.
  assert (G : forall g s, NoDup s ->
                          NoDup (fold_left (fun s c => JS.addAll s (cells c)) g s)).
  { induction g as [| c g IH]; intros s H; simpl; [assumption |].
    apply IH, nodup_addAll, H. }
  apply G. constructor.
Qed.

Lemma solutions_nodup cellArray group s :
  NoDup cellArray -> length cellArray <= 20 ->
  In s (solveConstraints cellArray group) ->
  NoDup s /\ incl s cellArray /\ satisfies s group.
Proof.
  intros ND Hn Hs. rewrite solveConstraints_spec in Hs by assumption.
  apply in_firstn in Hs.
  destruct (satisfying_members _ _ _ Hs) as [H1 [H2 H3]]. auto.
Qed.

Lemma get_solveExact_in result cellArray group key :
  NoDup cellArray -> length cellArray <= 20 -> In key cellArray ->
  JS.get (solveExact result cellArray group) key =
  Some (let solutions := solveConstraints cellArray group in
        if 0 <? length solutions
        then (ofNat (minesOn key solutions) / ofNat (length solutions))%Q
        else (1 # 2)%Q).
Proof.
  intros ND Hn Hk. unfold solveExact. cbv zeta.
  apply has_true in Hk.
  destruct (0 <? length (solveConstraints cellArray group)).
  - rewrite (get_fold_set
               (exactRatio cellArray group)).
    rewrite Hk. unfold exactRatio, getOr. rewrite get_countMines.
    + reflexivity.
    + now apply has_true.
    + intros s Hs. now apply (solutions_nodup cellArray group s).
  - rewrite (get_fold_set (fun _ => (1 # 2)%Q)). now rewrite Hk.
Qed.

Lemma get_solveExact_out result cellArray group key :
  ~ In key cellArray ->
  JS.get (solveExact result cellArray group) key = JS.get result key.
Proof.
  intros Hk. apply has_false in Hk. unfold solveExact. cbv zeta.
  destruct (0 <? length (solveConstraints cellArray group)).
  - rewrite (get_fold_set
               (exactRatio cellArray group)).
    now rewrite Hk.
  - rewrite (get_fold_set (fun _ => (1 # 2)%Q)). now rewrite Hk.
Qed.

Lemma solveExact_unit result cellArray group :
  NoDup cellArray -> length cellArray <= 20 ->
  allInUnit result -> allInUnit (solveExact result cellArray group).
Proof.
  intros ND Hn Hr key v H. unfold solveExact in H. cbv zeta in H.
  destruct (0 <? length (solveConstraints cellArray group)) eqn:E.
  - apply (in_fold_set
             (exactRatio cellArray group)) in H.
    destruct H as [H | [Hk ->]]; [eapply Hr, H |].
    unfold exactRatio, getOr. rewrite get_countMines; auto.
    + apply ratio_unit; [apply minesOn_le | now apply Nat.ltb_lt].
    + intros s Hs. now apply (solutions_nodup cellArray group s).
  - apply (in_fold_set (fun _ => (1 # 2)%Q)) in H.
    destruct H as [H | [_ ->]]; [eapply Hr, H |]. split; discriminate.
Qed.

Lemma solveExact_nodup result cellArray group :
  NoDup (JS.keys result) -> NoDup (JS.keys (solveExact result cellArray group)).
Proof.
  intros H. unfold solveExact. cbv zeta.
  destruct (0 <? length (solveConstraints cellArray group)).
  - now apply (keys_fold_set
                 (exactRatio cellArray group)).
  - now apply (keys_fold_set (fun _ => (1 # 2)%Q)).
Qed.

Lemma solveAverage_fold result cellArray group :
  solveAverage result cellArray group =
  fold_left (setIfMissing (averageOf group)) cellArray result.
Proof. reflexivity. Qed.

Lemma solveGroup_cases result group :
  let cellArray := groupCells group in
  (0 < length cellArray <= 20 /\
   solveGroup result group = solveExact result cellArray group) \/
  (20 < length cellArray /\
   solveGroup result group = solveAverage result cellArray group) \/
  (cellArray = [] /\ solveGroup result group = result).
Proof.
  intros cellArray. unfold solveGroup. fold cellArray.
  destruct (Nat.ltb_spec 0 (length cellArray));
    destruct (Nat.leb_spec (length cellArray) 20); simpl.
  - left. split; [lia | reflexivity].
  - right. left. destruct (Nat.ltb_spec 20 (length cellArray)); [| lia].
    split; [lia | reflexivity].
  - right. right. destruct (Nat.ltb_spec 20 (length cellArray)); [lia |].
    split; [| reflexivity]. destruct cellArray; [reflexivity | simpl in *; lia].
  - lia.
Qed.

Lemma get_solveGroup_out result group key :
  ~ In key (groupCells group) ->
  JS.get (solveGroup result group) key = JS.get result key.
Proof.
  intros Hk. destruct (solveGroup_cases result group) as [[_ E] | [[_ E] | [_ E]]];
    rewrite E.
  - now apply get_solveExact_out.
  - rewrite solveAverage_fold, get_fold_missing.
    apply has_false in Hk. rewrite Hk. destruct (JS.get result key); reflexivity.
  - reflexivity.
Qed.

Lemma solveGroup_unit result group :
  allInUnit result -> allInUnit (solveGroup result group).
Proof.
  intros Hr. destruct (solveGroup_cases result group) as [[Hn E] | [[_ E] | [_ E]]];
    rewrite E.
  - apply solveExact_unit; [apply groupCells_nodup | lia | assumption].
  - rewrite solveAverage_fold. intros key v H.
    apply in_fold_missing in H. destruct H as [H | [_ ->]]; [eapply Hr, H |].
    apply clamp01_unit.
  - assumption.
Qed.

Lemma solveGroup_nodup result group :
  NoDup (JS.keys result) -> NoDup (JS.keys (solveGroup result group)).
Proof.
  intros Hr. destruct (solveGroup_cases result group) as [[Hn E] | [[_ E] | [_ E]]];
    rewrite E.
  - now apply solveExact_nodup.
  - rewrite solveAverage_fold. now apply keys_fold_missing.
  - assumption.
Qed.

Lemma solveGroup_keys result group key :
  In key (JS.keys (solveGroup result group)) ->
  In key (JS.keys result) \/ In key (groupCells group).
Proof.
  destruct (in_dec string_dec key (groupCells group)) as [H | H]; [auto |].
  rewrite !get_keys, get_solveGroup_out by assumption. auto.
Qed.

Lemma solveGroup_covers result group key :
  In key (groupCells group) -> In key (JS.keys (solveGroup result group)).
Proof.
  intros Hk. rewrite get_keys.
  destruct (solveGroup_cases result group) as [[Hn E] | [[_ E] | [Hn E]]];
    rewrite E.
  - rewrite get_solveExact_in; eauto using groupCells_nodup. lia.
  - rewrite solveAverage_fold, get_fold_missing.
    apply has_true in Hk. rewrite Hk. destruct (JS.get result key); eauto.
  - rewrite Hn in Hk. contradiction.
Qed.

Lemma solveGroup_keeps_keys result group key :
  In key (JS.keys result) -> In key (JS.keys (solveGroup result group)).
Proof.
  intros H. destruct (in_dec string_dec key (groupCells group)) as [Hk | Hk].
  - now apply solveGroup_covers.
  - rewrite get_keys in *. now rewrite get_solveGroup_out.
Qed.

Lemma fold_solveGroup_out groups : forall result key,
  (forall g, In g groups -> ~ In key (groupCells g)) ->
  JS.get (fold_left solveGroup groups result) key = JS.get result key.
Proof.
  induction groups as [| g gs IH]; intros result key H; simpl; [reflexivity |].
  rewrite IH by (intros; apply H; right; assumption).
  apply get_solveGroup_out, H. left. reflexivity.
Qed.

Lemma fold_solveGroup_unit groups : forall result,
  allInUnit result -> allInUnit (fold_left solveGroup groups result).
Proof.
  induction groups as [| g gs IH]; intros result H; simpl; [assumption |].
  apply IH, solveGroup_unit, H.
Qed.

Lemma fold_solveGroup_nodup groups : forall result,
  NoDup (JS.keys result) -> NoDup (JS.keys (fold_left solveGroup groups result)).
Proof.
  induction groups as [| g gs IH]; intros result H; simpl; [assumption |].
  apply IH, solveGroup_nodup, H.
Qed.

Lemma fold_solveGroup_keys groups : forall result key,
  In key (JS.keys (fold_left solveGroup groups result)) <->
  In key (JS.keys result) \/ exists g, In g groups /\ In key (groupCells g).
Proof.
  induction groups as [| g gs IH]; intros result key; simpl.
  - split; [auto | intros [H | [g [[] _]]]; assumption].
  - rewrite IH. split.
    + intros [H | [g' [H1 H2]]]; [| eauto].
      apply solveGroup_keys in H. destruct H; eauto.
    + intros [H | [g' [[<- | H1] H2]]].
      * left. now apply solveGroup_keeps_keys.
      * left. now apply solveGroup_covers.
      * eauto.
Qed.

(** *** The remaining cells *)

Section FillRest.
Variables (result : ProbabilityMap) (k : Known)
          (unrevealedCells frontierCells : list string) (minesRemaining : Z).

Let nonFrontierCells :=
  filter (fun key => negb (JS.has frontierCells key)
                     && match JS.get result key with
                        | None => true
                        | Some _ => false
                        end)
         unrevealedCells.

Lemma fillRest_shape :
  exists (p q : Q) (result1 : ProbabilityMap),
    fillRest result k unrevealedCells frontierCells minesRemaining =
    fold_left (setIfMissing (fun _ => clamp01 q)) unrevealedCells result1 /\
    (result1 = result \/
     result1 = fold_left (fun res key => JS.set res key (clamp01 p))
                         nonFrontierCells result).
Proof.
  unfold fillRest. cbv zeta. fold nonFrontierCells.
  destruct (0 <? length nonFrontierCells).
  - eexists. eexists. eexists. split; [reflexivity |]. right. reflexivity.
  - exists 0%Q. eexists. eexists. split; [reflexivity |]. left. reflexivity.
Qed.

Lemma nonFrontier_missing key :
  In key nonFrontierCells -> JS.get result key = None /\ In key unrevealedCells.
Proof.
  unfold nonFrontierCells. rewrite filter_In. intros [H1 H2].
  apply andb_true_iff in H2. destruct H2 as [_ H2].
  destruct (JS.get result key); [discriminate | auto].
Qed.

Lemma fillRest_keep key v :
  JS.get result key = Some v ->
  JS.get (fillRest result k unrevealedCells frontierCells minesRemaining) key
  = Some v.
Proof.
  intros H. destruct fillRest_shape as [p [q [r1 [E Hr1]]]]. rewrite E.
  rewrite get_fold_missing.
  assert (H1 : JS.get r1 key = Some v).
  { destruct Hr1 as [-> | ->]; [assumption |].
    rewrite (get_fold_set (fun _ => clamp01 p)).
    destruct (JS.has nonFrontierCells key) eqn:Hh; [| assumption].
    apply has_true, nonFrontier_missing in Hh. destruct Hh. congruence. }
  now rewrite H1.
Qed.

Lemma fillRest_unit :
  allInUnit result ->
  allInUnit (fillRest result k unrevealedCells frontierCells minesRemaining).
Proof.
  intros Hr key v H. destruct fillRest_shape as [p [q [r1 [E Hr1]]]].
  rewrite E in H. apply in_fold_missing in H.
  destruct H as [H | [_ ->]]; [| apply clamp01_unit].
  destruct Hr1 as [-> | ->]; [eapply Hr, H |].
  apply (in_fold_set (fun _ => clamp01 p)) in H.
  destruct H as [H | [_ ->]]; [eapply Hr, H | apply clamp01_unit].
Qed.

Lemma fillRest_nodup :
  NoDup (JS.keys result) ->
  NoDup (JS.keys (fillRest result k unrevealedCells frontierCells minesRemaining)).
Proof.
  intros Hr. destruct fillRest_shape as [p [q [r1 [E Hr1]]]]. rewrite E.
  apply keys_fold_missing. destruct Hr1 as [-> | ->]; [assumption |].
  now apply (keys_fold_set (fun _ => clamp01 p)).
Qed.

Lemma fillRest_keys key :
  In key (JS.keys (fillRest result k unrevealedCells frontierCells minesRemaining))
  <-> In key (JS.keys result) \/ In key unrevealedCells.
Proof.
  destruct fillRest_shape as [p [q [r1 [E Hr1]]]]. rewrite E.
  rewrite !get_keys, get_fold_missing.
  assert (H1 : (exists v, JS.get r1 key = Some v) <->
               (exists v, JS.get result key = Some v) \/ In key nonFrontierCells
               /\ r1 <> result).
  { destruct Hr1 as [-> | ->].
    - split; [auto | intros [H | [_ H]]; [assumption | congruence]].
    - rewrite (get_fold_set (fun _ => clamp01 p)).
      destruct (JS.has nonFrontierCells key) eqn:Hh.
      + apply has_true in Hh. split; [| eauto]. intros _.
        destruct (JS.get result key) eqn:G; [eauto |]. right. split; [assumption |].
        intros F. apply (f_equal (fun o => JS.get o key)) in F.
        rewrite (get_fold_set (fun _ => clamp01 p)) in F.
        apply has_true in Hh. rewrite Hh, G in F. discriminate.
      + apply has_false in Hh. split; [auto | intros [H | [H _]]; [assumption | contradiction]]. }
  destruct (JS.get r1 key) as [v |] eqn:G1.
  - split; [| eauto]. intros _.
    destruct (proj1 H1 (ex_intro _ v eq_refl)) as [H | [H _]]; [auto |].
    right. now apply nonFrontier_missing in H.
  - destruct (JS.has unrevealedCells key) eqn:Hu.
    + apply has_true in Hu. split; eauto.
    + apply has_false in Hu. split; [intros [v F]; discriminate |].
      intros [H | H]; [| contradiction].
      destruct (proj2 H1 (or_introl H)) as [v F]. discriminate.
Qed.
End FillRest.

(** *** The whole computation *)

Lemma probabilitiesFrom_shape unrevealedCells cs minesRemaining :
  exists groups,
    partitionConstraints (activeOf (constraints (propagate cs))) = Some groups /\
    probabilitiesFrom unrevealedCells cs minesRemaining =
    Some (fillRest (fold_left solveGroup groups (recordKnown (known (propagate cs))))
                   (known (propagate cs)) unrevealedCells
                   (frontierOf (known (propagate cs))
                               (activeOf (constraints (propagate cs))))
                   minesRemaining).
Proof.
  destruct (partition_spec (activeOf (constraints (propagate cs))))
    as [groups [E _]].
  exists groups. split; [assumption |].
  unfold probabilitiesFrom. cbv zeta. rewrite E. reflexivity.
Qed.

Lemma probabilitiesFrom_unit unrevealedCells cs minesRemaining :
  exists res, probabilitiesFrom unrevealedCells cs minesRemaining = Some res /\
              allInUnit res /\ NoDup (JS.keys res).
Proof.
  destruct (probabilitiesFrom_shape unrevealedCells cs minesRemaining)
    as [groups [_ E]].
  eexists. split; [exact E |]. split.
  - apply fillRest_unit, fold_solveGroup_unit, recordKnown_unit.
  - apply fillRest_nodup, fold_solveGroup_nodup, recordKnown_nodup.
Qed.

(** C7. Every probability of the map returned by [calculateProbabilities]
    lies between 0 and 1, for every board and every [minesRemaining]. *)
Theorem C7_probabilities_in_unit_interval (b : Board) (minesRemaining : Z) :
  exists res, calculateProbabilities b minesRemaining = Some res /\
              forall key p, JS.get res key = Some p -> (0 <= p /\ p <= 1)%Q.
Proof.
  destruct (probabilitiesFrom_unit (fst (extract b)) (snd (extract b)) minesRemaining)
    as [res [E [U _]]].
  exists res. split; [exact E |].
  intros key p H. apply (U key p). now apply get_in.
Qed.

(** ** Extraction *)

Lemma wfBoard_cellAt b r c cell :
  wfBoard b = true -> cellAt b r c = Some cell ->
  r < rows b /\ c < cols b /\ row cell = r /\ col cell = c.
Proof.
  unfold wfBoard, cellAt. intros W H.
  apply andb_true_iff in W. destruct W as [W1 W2].
  apply Nat.eqb_eq in W1. rewrite <- W1 in W2.
  destruct (nth_error (boardCells b) r) as [line |] eqn:El; [| discriminate].
  assert (Hr : r < rows b).
  { rewrite <- W1. apply nth_error_Some. congruence. }
  rewrite forallb_forall in W2.
  specialize (W2 (r, line) (proj2 (in_indexed (boardCells b) r line) El)).
  unfold wfLine in W2. simpl in W2.
  apply andb_true_iff in W2. destruct W2 as [W3 W4].
  apply Nat.eqb_eq in W3. rewrite <- W3 in W4.
  assert (Hc : c < cols b).
  { rewrite <- W3. apply nth_error_Some. congruence. }
  rewrite forallb_forall in W4.
  specialize (W4 (c, cell) (proj2 (in_indexed line c cell) H)).
  simpl in W4. apply andb_true_iff in W4. destruct W4 as [W5 W6].
  apply Nat.eqb_eq in W5, W6. auto.
Qed.

Lemma getCell_cellAt b r c :
  r < rows b -> c < cols b ->
  getCell b (Z.of_nat r) (Z.of_nat c) = cellAt b r c.
Proof.
  intros Hr Hc. unfold getCell, isValidCell.
  replace (0 <=? Z.of_nat r)%Z with true by (symmetry; apply Z.leb_le; lia).
  replace (Z.of_nat r <? Z.of_nat (rows b))%Z with true
    by (symmetry; apply Z.ltb_lt; lia).
  replace (0 <=? Z.of_nat c)%Z with true by (symmetry; apply Z.leb_le; lia).
  replace (Z.of_nat c <? Z.of_nat (cols b))%Z with true
    by (symmetry; apply Z.ltb_lt; lia).
  simpl. now rewrite !Nat2Z.id.
Qed.

Lemma getNeighbors_cells b r c n :
  In n (getNeighbors b r c) ->
  exists r' c', r' < rows b /\ c' < cols b /\ cellAt b r' c' = Some n.
Proof.
  unfold getNeighbors. rewrite in_flat_map. intros [[dr dc] [_ H]]. simpl in H.
  destruct (isValidCell b (Z.of_nat r + dr) (Z.of_nat c + dc)) eqn:V;
    [| contradiction].
  destruct (cellAt b _ _) as [n' |] eqn:E; [| contradiction].
  destruct H as [<- | []].
  unfold isValidCell in V.
  repeat (apply andb_true_iff in V; destruct V as [V ?]).
  apply Z.leb_le in V. apply Z.ltb_lt in H1. apply Z.leb_le in H0.
  apply Z.ltb_lt in H.
  exists (Z.to_nat (Z.of_nat r + dr)), (Z.to_nat (Z.of_nat c + dc)).
  repeat split; [lia | lia | assumption].
Qed.

Lemma in_positions b r c :
  In (r, c) (positions b) <-> r < rows b /\ c < cols b.
Proof.
  unfold positions. rewrite in_prod_iff, !in_seq. lia.
Qed.

(** The scan, position by position. *)
Lemma scanCell_unrevealed b acc r c key :
  In key (fst (scanCell b acc r c)) <->
  In key (fst acc) \/
  exists cell, getCell b (Z.of_nat r) (Z.of_nat c) = Some cell /\
               isUnknown cell = true /\ key = cellKey r c.
Proof.
  unfold scanCell.
  destruct (getCell b (Z.of_nat r) (Z.of_nat c)) as [cell |] eqn:G.
  - cbn [fst]. fold (isUnknown cell). destruct (isUnknown cell) eqn:U.
    + rewrite in_add. split.
      * intros [H | ->]; [auto |]. right. exists cell. auto.
      * intros [H | [cell' [_ [_ H]]]]; auto.
    + split; [auto |]. intros [H | [cell' [H1 [H2 _]]]]; [assumption |].
      congruence.
  - split; [auto |]. intros [H | [cell' [H1 _]]]; [assumption | discriminate].
Qed.

Lemma scan_unrevealed b ps : forall acc key,
  In key (fst (fold_left (fun a p => scanCell b a (fst p) (snd p)) ps acc)) <->
  In key (fst acc) \/
  exists r c cell, In (r, c) ps /\
                   getCell b (Z.of_nat r) (Z.of_nat c) = Some cell /\
                   isUnknown cell = true /\ key = cellKey r c.
Proof.
  induction ps as [| [r c] ps IH]; intros acc key; simpl.
  - split; [auto | intros [H | [? [? [? [[] _]]]]]; assumption].
  - rewrite IH, scanCell_unrevealed. split.
    + intros [[H | [cell [H1 H2]]] | [r' [c' [cell' [H1 H2]]]]].
      * auto.
      * right. exists r, c, cell. auto.
      * right. exists r', c', cell'. auto.
    + intros [H | [r' [c' [cell' [[H1 | H1] H2]]]]].
      * auto.
      * injection H1 as <- <-. left. right. exists cell'. exact H2.
      * right. exists r', c', cell'. auto.
Qed.

Lemma extract_unrevealed b key :
  In key (fst (extract b)) <-> unknownKey b key.
Proof.
  unfold extract. rewrite scan_unrevealed. simpl. unfold unknownKey. split.
  - intros [[] | [r [c [cell [H1 [H2 [H3 H4]]]]]]].
    apply in_positions in H1. destruct H1.
    rewrite getCell_cellAt in H2 by assumption. eauto 10.
  - intros [r [c [cell [H1 [H2 [H3 [H4 H5]]]]]]]. right.
    exists r, c, cell. rewrite getCell_cellAt by assumption.
    repeat split; auto. apply in_positions. auto.
Qed.

Lemma extract_unrevealed_nodup b : NoDup (fst (extract b)).
Proof.
  unfold extract.
  assert (G : forall ps acc, NoDup (fst acc) ->
              NoDup (fst (fold_left (fun a p => scanCell b a (fst p) (snd p)) ps acc))).
  { induction ps as [| p ps IH]; intros acc H; simpl; [assumption |].
    apply IH. unfold scanCell. destruct (getCell b _ _); [| assumption].
    cbn [fst]. destruct (_ && _); [now apply nodup_add | assumption]. }
  apply G. constructor.
Qed.

Lemma scan_constraints b ps : forall acc c,
  In c (snd (fold_left (fun a p => scanCell b a (fst p) (snd p)) ps acc)) ->
  In c (snd acc) \/
  exists r0 c0, In (r0, c0) ps /\
                cells c = map keyOf (filter isUnknown (getNeighbors b r0 c0)).
Proof.
  induction ps as [| [r0 c0] ps IH]; intros acc c H; simpl in *; [auto |].
  destruct (IH _ _ H) as [H1 | [r1 [c1 [H1 H2]]]]; [| eauto 10].
  unfold scanCell in H1.
  destruct (getCell b (Z.of_nat r0) (Z.of_nat c0)) as [cell |]; [| auto].
  cbn [snd] in H1.
  destruct (isRevealed cell && (0 <? adjacentMines cell)%Z); [| auto].
  destruct (_ && _); [| auto].
  apply in_app_iff in H1. destruct H1 as [H1 | [<- | []]]; [auto |].
  right. exists r0, c0. simpl. auto.
Qed.

Lemma extract_within b :
  wfBoard b = true -> cellsWithin (fst (extract b)) (snd (extract b)).
Proof.
  intros W c key Hc Hk. apply extract_unrevealed.
  unfold extract in Hc. apply scan_constraints in Hc.
  destruct Hc as [[] | [r0 [c0 [_ E]]]].
  rewrite E in Hk. apply in_map_iff in Hk. destruct Hk as [n [Hn Hin]].
  apply filter_In in Hin. destruct Hin as [Hin Hu].
  apply getNeighbors_cells in Hin. destruct Hin as [r' [c' [Hr [Hc' Hat]]]].
  destruct (wfBoard_cellAt b r' c' n W Hat) as [_ [_ [Er Ec]]].
  exists r', c', n. repeat split; auto.
  rewrite <- Hn. unfold keyOf. now rewrite Er, Ec.
Qed.

(** ** Propagation stays inside the extracted cells *)

Section Within.
Variable u : list string.

Lemma addSafe_within k key :
  knownWithin u k -> In key u -> knownWithin u (addSafe k key).
Proof.
  intros [Hs Hm] Hk. split; simpl; [| assumption].
  intros x Hx. apply in_app_iff in Hx. destruct Hx as [Hx | [<- | []]]; auto.
Qed.

Lemma addMine_within k key :
  knownWithin u k -> In key u -> knownWithin u (addMine k key).
Proof.
  intros [Hs Hm] Hk. split; simpl; [assumption |].
  intros x Hx. apply in_app_iff in Hx. destruct Hx as [Hx | [<- | []]]; auto.
Qed.

Lemma keyloop_within (step : Known -> string -> Known) :
  (forall k key, knownWithin u k -> In key u -> knownWithin u (step k key)) ->
  forall keys k, knownWithin u k -> incl keys u ->
                 knownWithin u (fold_left step keys k).
Proof.
  intros Hstep. induction keys as [| key keys IH]; intros k Hk Hi; simpl;
    [assumption |].
  apply IH.
  - apply Hstep; [assumption | apply Hi; left; reflexivity].
  - intros x Hx. apply Hi. right. assumption.
Qed.

Lemma basicSafe_within k key :
  knownWithin u k -> In key u -> knownWithin u (basicSafe k key).
Proof.
  intros. unfold basicSafe. destruct (JS.has _ _);
    [assumption | now apply addSafe_within].
Qed.

Lemma basicMine_within k key :
  knownWithin u k -> In key u -> knownWithin u (basicMine k key).
Proof.
  intros. unfold basicMine. destruct (JS.has _ _);
    [assumption | now apply addMine_within].
Qed.

Lemma subsetSafe_within k key :
  knownWithin u k -> In key u -> knownWithin u (subsetSafe k key).
Proof.
  intros. unfold subsetSafe. destruct (_ && _);
    [now apply addSafe_within | assumption].
Qed.

Lemma subsetMine_within k key :
  knownWithin u k -> In key u -> knownWithin u (subsetMine k key).
Proof.
  intros. unfold subsetMine. destruct (_ && _);
    [now apply addMine_within | assumption].
Qed.

Lemma remaining_incl k c :
  incl (fst (narrow k (cells c) (mines c))) (cells c).
Proof.
  rewrite narrow_fst. intros x Hx. apply filter_In in Hx. tauto.
Qed.

Lemma processConstraint_within k c :
  knownWithin u k -> incl (cells c) u ->
  knownWithin u (fst (processConstraint k c)) /\
  incl (cells (snd (processConstraint k c))) u.
Proof.
  intros Hk Hc.
  assert (Hr : incl (fst (narrow k (cells c) (mines c))) u).
  { eapply incl_tran; [apply remaining_incl | exact Hc]. }
  unfold processConstraint.
  destruct (length _ =? 0); simpl; [auto |].
  destruct (Z.max 0 _ =? 0)%Z; simpl.
  { split; [| assumption].
    apply keyloop_within; auto using basicSafe_within. }
  destruct (_ =? _)%Z; simpl; [| auto].
  split; [| assumption].
  apply keyloop_within; auto using basicMine_within.
Qed.

Lemma narrowAll_within cs : forall k,
  knownWithin u k -> cellsWithin u cs ->
  knownWithin u (fst (narrowAll k cs)) /\ cellsWithin u (snd (narrowAll k cs)).
Proof.
  induction cs as [| c cs IH]; intros k Hk Hcs; simpl.
  - split; [assumption | intros ? ? []].
  - assert (Hc : incl (cells c) u).
    { intros x Hx. apply (Hcs c x); [left; reflexivity | assumption]. }
    destruct (processConstraint_within k c Hk Hc) as [H1 H2].
    destruct (IH (fst (processConstraint k c)) H1) as [H3 H4].
    { intros c' x Hc' Hx. apply (Hcs c' x); [right |]; assumption. }
    split; [assumption |].
    intros c' x [<- | Hc'] Hx; [now apply H2 | now apply (H4 c' x)].
Qed.

Lemma subsetPair_within cs i c1 st j :
  cellsWithin u cs ->
  knownWithin u (fst st) -> cellsWithin u (snd st) ->
  knownWithin u (fst (subsetPair cs i c1 st j)) /\
  cellsWithin u (snd (subsetPair cs i c1 st j)).
Proof.
  intros Hcs Hk Hd. unfold subsetPair.
  destruct (i =? j); [auto |].
  destruct (nth_error cs j) as [c2 |] eqn:E; [| auto].
  assert (Hdiff : incl (filter (fun cell => negb (JS.has (cells c1) cell))
                               (cells c2)) u).
  { intros x Hx. apply filter_In in Hx. destruct Hx as [Hx _].
    apply (Hcs c2 x); [eapply nth_error_In, E | assumption]. }
  destruct (length (cells c2) =? 0); [auto |].
  destruct (_ && _); [| auto].
  destruct (_ && _); [| auto].
  destruct (_ =? 0)%Z; simpl.
  { split; [| assumption]. apply keyloop_within; auto using subsetSafe_within. }
  destruct (_ =? _)%Z; simpl.
  { split; [| assumption]. apply keyloop_within; auto using subsetMine_within. }
  destruct (existsb _ (snd st)); [auto |]. simpl. split; [assumption |].
  intros c x Hc Hx. apply in_app_iff in Hc.
  destruct Hc as [Hc | [<- | []]]; [now apply (Hd c x) | now apply Hdiff].
Qed.

Lemma subsetAnalysis_within cs k :
  cellsWithin u cs -> knownWithin u k ->
  knownWithin u (fst (subsetAnalysis cs k)) /\
  cellsWithin u (snd (subsetAnalysis cs k)).
Proof.
  intros Hcs Hk. unfold subsetAnalysis.
  assert (G : forall ixs st,
             knownWithin u (fst st) /\ cellsWithin u (snd st) ->
             knownWithin u (fst (fold_left (subsetFor cs) ixs st)) /\
             cellsWithin u (snd (fold_left (subsetFor cs) ixs st))).
  { induction ixs as [| i ixs IH]; intros st H; simpl; [assumption |].
    apply IH. unfold subsetFor.
    destruct (nth_error cs i) as [c1 |]; [| assumption].
    destruct (length (cells c1) =? 0); [assumption |].
    generalize (seq 0 (length cs)). intros js. revert st H.
    induction js as [| j js IHj]; intros st [H1 H2]; simpl; [auto |].
    apply IHj. now apply subsetPair_within. }
  apply G. simpl. split; [assumption | intros ? ? []].
Qed.

Lemma pass_within st :
  cellsWithin u (constraints st) -> knownWithin u (known st) ->
  cellsWithin u (constraints (pass st)) /\ knownWithin u (known (pass st)).
Proof.
  intros Hcs Hk. unfold pass.
  destruct (narrowAll_within (constraints st)
              (mkKnown (knownSafe (known st)) (knownMines (known st)) false))
    as [H1 H2]; [exact Hk | exact Hcs |].
  set (r1 := narrowAll _ _) in *.
  destruct (subsetAnalysis_within (snd r1) (fst r1) H2 H1) as [H3 H4].
  destruct (0 <? _); simpl.
  - split; [| exact H3].
    intros c x Hc Hx. apply in_app_iff in Hc.
    destruct Hc as [Hc | Hc]; [now apply (H2 c x) | now apply (H4 c x)].
  - auto.
Qed.

Lemma propagate_within cs :
  cellsWithin u cs ->
  cellsWithin u (constraints (propagate cs)) /\
  knownWithin u (known (propagate cs)).
Proof.
  intros Hcs. destruct (propagate_afterPasses cs) as [n [_ E]]. rewrite E.
  clear E. unfold afterPasses. induction n as [| n IH]; simpl.
  - split; [assumption | split; intros ? []].
  - destruct IH. now apply pass_within.
Qed.
End Within.

Lemma activeOf_in cs c : In c (activeOf cs) <-> In c cs /\ cells c <> [].
Proof.
  unfold activeOf. rewrite filter_In. split; intros [H1 H2]; split; auto.
  - intros E. rewrite E in H2. discriminate.
  - apply Nat.ltb_lt. destruct (cells c); [congruence | simpl; lia].
Qed.

Lemma probabilitiesFrom_keys u cs minesRemaining :
  cellsWithin u cs ->
  exists res, probabilitiesFrom u cs minesRemaining = Some res /\
              NoDup (JS.keys res) /\
              forall key, In key (JS.keys res) <-> In key u.
Proof.
  intros Hcs.
  destruct (probabilitiesFrom_shape u cs minesRemaining) as [groups [Eg E]].
  eexists. split; [exact E |]. split.
  { apply fillRest_nodup, fold_solveGroup_nodup, recordKnown_nodup. }
  intros key. rewrite fillRest_keys, fold_solveGroup_keys.
  split; [| auto]. intros [[H | [g [Hg Hk]]] | H]; [| | assumption].
  - destruct (propagate_within u cs Hcs) as [_ [Hs Hm]].
    apply get_keys in H. destruct H as [v H]. rewrite get_recordKnown in H.
    destruct (JS.has (knownMines _) key) eqn:E1; [apply Hm; now apply has_true |].
    destruct (JS.has (knownSafe _) key) eqn:E2; [apply Hs; now apply has_true |].
    discriminate.
  - destruct (partition_spec (activeOf (constraints (propagate cs))))
      as [gs [Eg' [Perm _]]].
    assert (gs = groups) by congruence. subst gs.
    apply groupCells_spec in Hk. destruct Hk as [c [Hc Hkc]].
    assert (Hin : In c (activeOf (constraints (propagate cs)))).
    { eapply Permutation_in; [exact Perm |]. apply in_concat. eauto. }
    apply activeOf_in in Hin. destruct Hin as [Hin _].
    destruct (propagate_within u cs Hcs) as [Hw _]. now apply (Hw c key).
Qed.

(** C6. On a board of the declared shape the returned map has exactly one
    entry for every hidden, unflagged cell and none for a revealed or
    flagged cell. *)
Theorem C6_one_entry_per_unknown_cell (b : Board) (minesRemaining : Z) :
  wfBoard b = true ->
  exists res, calculateProbabilities b minesRemaining = Some res /\
    NoDup (JS.keys res) /\
    (forall key, In key (JS.keys res) <-> unknownKey b key) /\
    (forall r c cell,
        getCell b (Z.of_nat r) (Z.of_nat c) = Some cell ->
        (In (cellKey r c) (JS.keys res) <-> isUnknown cell = true)).
Proof.
  intros W.
  destruct (probabilitiesFrom_keys (fst (extract b)) (snd (extract b))
              minesRemaining (extract_within b W)) as [res [E [ND K]]].
  exists res. split; [exact E |]. split; [exact ND |].
  assert (K' : forall key, In key (JS.keys res) <-> unknownKey b key).
  { intros key. rewrite K. apply extract_unrevealed. }
  split; [exact K' |].
  intros r c cell G. rewrite K'.
  assert (V : isValidCell b (Z.of_nat r) (Z.of_nat c) = true).
  { unfold getCell in G. destruct (isValidCell _ _ _); [reflexivity | discriminate]. }
  unfold getCell in G. rewrite V, !Nat2Z.id in G.
  split.
  - intros [r' [c' [cell' [Hr [Hc [Hat [Hu Ek]]]]]]].
    apply cellKey_inj in Ek. destruct Ek as [<- <-]. congruence.
  - intros Hu. destruct (wfBoard_cellAt b r c cell W G) as [Hr [Hc _]].
    exists r, c, cell. auto.
Qed.

Lemma C6_one_entry_per_unknown_cell_witness :
  exists res, calculateProbabilities boardThreeRows 2 = Some res /\
              NoDup (JS.keys res).
Proof.
  destruct (C6_one_entry_per_unknown_cell boardThreeRows 2 eq_refl)
    as [res [E [ND _]]].
  exists res. auto.
Defined.

(** ** Values of the cells of a component *)

Lemma satisfying_spec cellArray group s :
  In s (satisfying cellArray group) <->
  In s (subsets cellArray) /\ satisfies s group.
Proof.
  unfold satisfying. rewrite filter_In, validAssignment_satisfies. tauto.
Qed.

Lemma cap_pos : 0 < cap.
Proof.
  destruct cap eqn:E; [| lia]. exfalso.
  unfold cap in E. change 0 with (N.to_nat 0) in E.
  apply N2Nat.inj in E. discriminate.
Qed.

Lemma solutions_when_few cellArray group :
  length cellArray <= 20 -> length (satisfying cellArray group) <= cap ->
  solveConstraints cellArray group = satisfying cellArray group.
Proof.
  intros Hn Hc. rewrite solveConstraints_spec by assumption.
  now apply firstn_all2.
Qed.

Lemma solutions_nil cellArray group :
  length cellArray <= 20 ->
  (solveConstraints cellArray group = [] <-> satisfying cellArray group = []).
Proof.
  intros Hn. rewrite solveConstraints_spec by assumption.
  destruct (satisfying cellArray group) as [| s l].
  - rewrite firstn_nil. tauto.
  - pose proof cap_pos. destruct cap; [lia |]. simpl. split; discriminate.
Qed.

(** Position of a group among the groups: the others do not touch its cells. *)
Lemma groups_disjoint cs groups g g' key :
  partitionConstraints cs = Some groups ->
  forall gs1 gs2, groups = gs1 ++ g :: gs2 ->
  In g' (gs1 ++ gs2) -> In key (groupCells g) -> ~ In key (groupCells g').
Proof.
  intros E gs1 gs2 Eg Hg' Hk Hk'.
  destruct (partition_spec cs) as [gs [E' [_ [Sh _]]]].
  assert (gs = groups) by congruence. subst gs.
  apply groupCells_spec in Hk, Hk'.
  destruct Hk as [c [Hc Hkc]]. destruct Hk' as [c' [Hc' Hkc']].
  assert (Pg : nth_error groups (length gs1) = Some g).
  { rewrite Eg, nth_error_app2, Nat.sub_diag by lia. reflexivity. }
  apply in_app_iff in Hg'. destruct Hg' as [Hg' | Hg'].
  - apply In_nth_error in Hg'. destruct Hg' as [a Ha].
    assert (La : a < length gs1) by (apply nth_error_Some; congruence).
    assert (Pa : nth_error groups a = Some g').
    { rewrite Eg, nth_error_app1 by assumption. exact Ha. }
    assert (a = length gs1).
    { apply (Sh a (length gs1) g' g c' c); auto. exists key. auto. }
    lia.
  - apply In_nth_error in Hg'. destruct Hg' as [a Ha].
    assert (Pa : nth_error groups (length gs1 + S a) = Some g').
    { rewrite Eg, nth_error_app2 by lia.
      replace (length gs1 + S a - length gs1) with (S a) by lia. exact Ha. }
    assert (length gs1 + S a = length gs1).
    { apply (Sh (length gs1 + S a) (length gs1) g' g c' c); auto. exists key. auto. }
    lia.
Qed.

(** The value of a cell of a group in the final map is the one written
    when its group is solved, on top of the recorded known cells. *)
Lemma value_of_group_cell cs u minesRemaining groups g key :
  componentsOf cs = Some groups -> In g groups -> In key (groupCells g) ->
  exists res result,
    probabilitiesFrom u cs minesRemaining = Some res /\
    JS.get result key = JS.get (recordKnown (known (propagate cs))) key /\
    JS.get res key = JS.get (solveGroup result g) key.
Proof.
  intros E Hg Hk. unfold componentsOf in E.
  destruct (probabilitiesFrom_shape u cs minesRemaining) as [gs [E' Er]].
  assert (gs = groups) by congruence. subst gs.
  destruct (in_split _ _ Hg) as [gs1 [gs2 Eg]].
  eexists. exists (fold_left solveGroup gs1 (recordKnown (known (propagate cs)))).
  split; [exact Er |]. split.
  - apply fold_solveGroup_out. intros g' Hg'.
    apply (groups_disjoint _ groups g g' key E gs1 gs2 Eg); [| assumption].
    apply in_app_iff. auto.
  - assert (Hin : In key (JS.keys (solveGroup
                    (fold_left solveGroup gs1 (recordKnown (known (propagate cs)))) g)))
      by now apply solveGroup_covers.
    apply get_keys in Hin. destruct Hin as [v Hv]. rewrite Hv.
    apply fillRest_keep. rewrite Eg, fold_left_app. cbn [fold_left].
    rewrite fold_solveGroup_out; [exact Hv |].
    intros g' Hg'.
    apply (groups_disjoint _ groups g g' key E gs1 gs2 Eg); [| assumption].
    apply in_app_iff. auto.
Qed.

Lemma exact_group_value cs u minesRemaining groups g key :
  componentsOf cs = Some groups -> In g groups -> In key (groupCells g) ->
  length (groupCells g) <= 20 ->
  exists res,
    probabilitiesFrom u cs minesRemaining = Some res /\
    JS.get res key =
    Some (let solutions := solveConstraints (groupCells g) g in
          if 0 <? length solutions
          then (ofNat (minesOn key solutions) / ofNat (length solutions))%Q
          else (1 # 2)%Q).
Proof.
  intros E Hg Hk Hn.
  destruct (value_of_group_cell cs u minesRemaining groups g key E Hg Hk)
    as [res [result [Er [_ Ev]]]].
  exists res. split; [exact Er |]. rewrite Ev.
  destruct (solveGroup_cases result g) as [[_ Es] | [[Hc _] | [Hc _]]].
  - rewrite Es. apply get_solveExact_in; auto using groupCells_nodup.
  - lia.
  - rewrite Hc in Hk. contradiction.
Qed.

Lemma result_keys_unknown (b : Board) (minesRemaining : Z) :
  wfBoard b = true ->
  exists res, calculateProbabilities b minesRemaining = Some res /\
              NoDup (JS.keys res) /\
              forall key, In key (JS.keys res) <-> unknownKey b key.
Proof.
  intros W.
  destruct (probabilitiesFrom_keys (fst (extract b)) (snd (extract b))
              minesRemaining (extract_within b W)) as [res [E [ND K]]].
  exists res. split; [exact E |]. split; [exact ND |].
  intros key. rewrite K. apply extract_unrevealed.
Qed.

Lemma minesOn_perm key l1 l2 : Permutation l1 l2 -> minesOn key l1 = minesOn key l2.
Proof.
  unfold minesOn. intros P. induction P; simpl.
  - reflexivity.
  - destruct (JS.has x key); simpl; now rewrite IHP.
  - destruct (JS.has x key), (JS.has y key); reflexivity.
  - congruence.
Qed.

(** Any duplicate-free list of the assignments that satisfy a component is
    a rearrangement of the list the enumeration goes through. *)
Lemma satisfying_enumeration g (sols : list (list string)) :
  NoDup sols ->
  (forall s, In s sols <-> In s (subsets (groupCells g)) /\ satisfies s g) ->
  Permutation sols (satisfying (groupCells g) g).
Proof.
  intros ND H. apply NoDup_Permutation; [assumption | |].
  - unfold satisfying. apply NoDup_filter, subsets_nodup, groupCells_nodup.
  - intros s. rewrite H. symmetry. apply satisfying_spec.
Qed.

(** C2. For a component of at most 20 cells whose constraints have at
    least one and at most 10000 satisfying assignments (an assignment, a
    selection of the component's cells, is satisfying when for every
    constraint of the component the number of its cells selected equals
    the constraint's mine count), the probability of each of its cells is
    the number of satisfying assignments with a mine on the cell divided by
    the number of satisfying assignments. *)
Theorem C2_exact_probability (b : Board) (minesRemaining : Z)
        (groups : list (list Constraint)) (g : list Constraint) (key : string)
        (sols : list (list string)) :
  componentsOf (snd (extract b)) = Some groups -> In g groups ->
  In key (groupCells g) ->
  0 < length (groupCells g) <= 20 ->
  NoDup sols ->
  (forall s, In s sols <-> In s (subsets (groupCells g)) /\ satisfies s g) ->
  (1 <= N.of_nat (length sols) <= 10000)%N ->
  exists res,
    calculateProbabilities b minesRemaining = Some res /\
    JS.get res key =
    Some (ofNat (length (filter (fun s => JS.has s key) sols))
          / ofNat (length sols))%Q.
Proof.
  intros E Hg Hk [_ Hn] ND Hs [H1 Hc].
  pose proof (satisfying_enumeration g sols ND Hs) as P.
  pose proof (Permutation_length P) as L.
  pose proof (minesOn_perm key _ _ P) as Mo. unfold minesOn in Mo.
  destruct (exact_group_value (snd (extract b)) (fst (extract b)) minesRemaining
              groups g key E Hg Hk Hn) as [res [Er Ev]].
  exists res. split; [exact Er |]. rewrite Ev. cbv zeta.
  rewrite solutions_when_few;
    [| assumption | unfold cap, maxSolutions; lia].
  rewrite Mo, L. unfold minesOn.
  destruct (Nat.ltb_spec 0 (length (satisfying (groupCells g) g))); [reflexivity | lia].
Qed.

(** C9. For a component of at most 20 cells none of whose assignments
    satisfies its constraints, every cell of the component gets the
    probability 1/2, and the computation returns a map. *)
Theorem C9_unsatisfiable_component_half (b : Board) (minesRemaining : Z)
        (groups : list (list Constraint)) (g : list Constraint) (key : string) :
  componentsOf (snd (extract b)) = Some groups -> In g groups ->
  In key (groupCells g) ->
  0 < length (groupCells g) <= 20 ->
  (forall s, In s (subsets (groupCells g)) -> ~ satisfies s g) ->
  exists res,
    calculateProbabilities b minesRemaining = Some res /\
    JS.get res key = Some (1 # 2)%Q.
Proof.
  intros E Hg Hk [_ Hn] Hu.
  destruct (exact_group_value (snd (extract b)) (fst (extract b)) minesRemaining
              groups g key E Hg Hk Hn) as [res [Er Ev]].
  exists res. split; [exact Er |]. rewrite Ev. cbv zeta.
  assert (En : satisfying (groupCells g) g = []).
  { destruct (satisfying (groupCells g) g) as [| s l] eqn:Es; [reflexivity |].
    exfalso. assert (Hs : In s (satisfying (groupCells g) g))
      by (rewrite Es; left; reflexivity).
    apply satisfying_spec in Hs. destruct Hs as [H1 H2]. exact (Hu s H1 H2). }
  apply (solutions_nil (groupCells g) g Hn) in En. rewrite En. reflexivity.
Qed.

Lemma C2_exact_probability_witness :
  exists res,
    calculateProbabilities boardCorner 1 = Some res /\
    JS.get res "0,1"%string = Some (ofNat 1 / ofNat 3)%Q.
Proof.
  apply (C2_exact_probability boardCorner 1
           [[mkConstraint ["0,1"; "1,0"; "1,1"]%string 1]]
           [mkConstraint ["0,1"; "1,0"; "1,1"]%string 1]
           "0,1"%string
           [["0,1"%string]; ["1,0"%string]; ["1,1"%string]]).
  - vm_compute. reflexivity.
  - left. reflexivity.
  - vm_compute. left. reflexivity.
  - vm_compute. lia.
  - repeat constructor; simpl; intuition discriminate.
  - intros s. split.
    + intros [<- | [<- | [<- | []]]]; (split; [vm_compute; tauto |]);
        intros c [<- | []]; reflexivity.
    + intros [Hs Sat].
      specialize (Sat (mkConstraint ["0,1"; "1,0"; "1,1"]%string 1) (or_introl eq_refl)).
      vm_compute in Hs.
      repeat (destruct Hs as [<- | Hs];
              [try (vm_compute in Sat; discriminate); simpl; tauto |]).
      contradiction.
  - vm_compute. split; discriminate.
Defined.

Lemma C9_unsatisfiable_component_half_witness :
  exists res,
    calculateProbabilities boardOverClue 2 = Some res /\
    JS.get res "0,1"%string = Some (1 # 2)%Q.
Proof.
  apply (C9_unsatisfiable_component_half boardOverClue 2
           [[mkConstraint ["0,1"]%string 2]] [mkConstraint ["0,1"]%string 2]).
  - vm_compute. reflexivity.
  - left. reflexivity.
  - vm_compute. left. reflexivity.
  - vm_compute. lia.
  - intros s Hs Hsat.
    specialize (Hsat (mkConstraint ["0,1"]%string 2) (or_introl eq_refl)).
    vm_compute in Hs. destruct Hs as [<- | [<- | []]]; vm_compute in Hsat;
      discriminate.
Defined.

(** ** Certain cells *)

Lemma fold_basicSafe_adds keys : forall k key,
  In key keys -> In key (knownSafe (fold_left basicSafe keys k)).
Proof.
  induction keys as [| a keys IH]; intros k key Hk; simpl; [contradiction |].
  destruct Hk as [-> | Hk]; [| apply IH, Hk].
  apply (proj1 (fold_basicSafe_extends keys (basicSafe k key))).
  unfold basicSafe. destruct (JS.has (knownSafe k) key) eqn:E.
  - now apply has_true.
  - simpl. apply in_app_iff. right. left. reflexivity.
Qed.

Lemma fold_basicMine_adds keys : forall k key,
  In key keys -> In key (knownMines (fold_left basicMine keys k)).
Proof.
  induction keys as [| a keys IH]; intros k key Hk; simpl; [contradiction |].
  destruct Hk as [-> | Hk]; [| apply IH, Hk].
  apply (proj2 (fold_basicMine_extends keys (basicMine k key))).
  unfold basicMine. destruct (JS.has (knownMines k) key) eqn:E.
  - now apply has_true.
  - simpl. apply in_app_iff. right. left. reflexivity.
Qed.

Lemma processConstraint_extends k c : extendsKnown k (fst (processConstraint k c)).
Proof.
  unfold processConstraint.
  destruct (length _ =? 0); simpl; [apply extendsKnown_refl |].
  destruct (Z.max 0 _ =? 0)%Z; simpl; [apply fold_basicSafe_extends |].
  destruct (_ =? _)%Z; simpl;
    [apply fold_basicMine_extends | apply extendsKnown_refl].
Qed.

(** The deduction made when a constraint is narrowed. *)
Lemma processConstraint_certain k c key :
  let c' := snd (processConstraint k c) in
  let k' := fst (processConstraint k c) in
  In key (cells c') ->
  (mines c' = 0%Z -> In key (knownSafe k')) /\
  (mines c' = Z.of_nat (length (cells c')) -> In key (knownMines k')).
Proof.
  unfold processConstraint.
  set (remainingCells := fst (narrow k (cells c) (mines c))).
  set (minesLeft := Z.max 0 (snd (narrow k (cells c) (mines c)))).
  destruct (Nat.eqb_spec (length remainingCells) 0) as [E0 | N0]; simpl.
  { intros Hk. destruct remainingCells; [contradiction | discriminate]. }
  intros Hk.
  destruct (Z.eqb_spec minesLeft 0) as [Z0 | NZ]; simpl.
  - split.
    + intros _. now apply fold_basicSafe_adds.
    + intros E. rewrite Z0 in E. lia.
  - destruct (Z.eqb_spec minesLeft (Z.of_nat (length remainingCells))) as [Zl | NZl];
      simpl.
    + split; [contradiction |]. intros _. now apply fold_basicMine_adds.
    + split; contradiction.
Qed.

Lemma narrowAll_extends cs : forall k, extendsKnown k (fst (narrowAll k cs)).
Proof.
  induction cs as [| c cs IH]; intros k; simpl; [apply extendsKnown_refl |].
  eapply extendsKnown_trans; [apply processConstraint_extends | apply IH].
Qed.

Lemma narrowAll_certain cs : forall k c key,
  In c (snd (narrowAll k cs)) -> In key (cells c) ->
  (mines c = 0%Z -> In key (knownSafe (fst (narrowAll k cs)))) /\
  (mines c = Z.of_nat (length (cells c)) ->
   In key (knownMines (fst (narrowAll k cs)))).
Proof.
  induction cs as [| c0 cs IH]; intros k c key Hc Hk; simpl in *; [contradiction |].
  destruct Hc as [<- | Hc]; [| now apply IH].
  destruct (processConstraint_certain k c0 key Hk) as [H1 H2].
  destruct (narrowAll_extends cs (fst (processConstraint k c0))) as [Es Em].
  split; intros E; [apply Es, H1, E | apply Em, H2, E].
Qed.

Lemma subsetAnalysis_extends cs k :
  extendsKnown k (fst (subsetAnalysis cs k)).
Proof.
  unfold subsetAnalysis.
  assert (Tr : forall s1 s2 s3 : Known * list Constraint,
             extendsState s1 s2 -> extendsState s2 s3 -> extendsState s1 s3)
    by (intros; eapply extendsState_trans; eassumption).
  apply (loop_extends extendsState (subsetFor cs) extendsState_refl Tr
           (subsetFor_extends cs)
           (seq 0 (Nat.min (length cs) maxCompare)) (k, [])).
Qed.

(** After a pass, the cells of a constraint with no mine are known safe
    and those of a constraint with as many mines as cells are known mines. *)
Lemma pass_certain st c key :
  In c (constraints (pass st)) -> In key (cells c) ->
  (mines c = 0%Z -> In key (knownSafe (known (pass st)))) /\
  (mines c = Z.of_nat (length (cells c)) ->
   In key (knownMines (known (pass st)))).
Proof.
  unfold pass.
  set (r1 := narrowAll _ (constraints st)).
  pose proof (subsetAnalysis_extends (snd r1) (fst r1)) as [Es Em].
  pose proof (subsetAnalysis_undecided (snd r1) (fst r1)) as Und.
  intros Hc Hk.
  assert (Narrowed : In c (snd r1) ->
            (mines c = 0%Z ->
             In key (knownSafe (fst (subsetAnalysis (snd r1) (fst r1))))) /\
            (mines c = Z.of_nat (length (cells c)) ->
             In key (knownMines (fst (subsetAnalysis (snd r1) (fst r1)))))).
  { intros Hin. destruct (narrowAll_certain _ _ c key Hin Hk) as [H1 H2].
    split; intros E; [apply Es, H1, E | apply Em, H2, E]. }
  destruct (0 <? length (snd (subsetAnalysis (snd r1) (fst r1)))); simpl in *.
  - apply in_app_iff in Hc. destruct Hc as [Hc | Hc]; [now apply Narrowed |].
    rewrite Forall_forall in Und. destruct (Und c Hc) as [U1 U2].
    split; intros E; contradiction.
  - now apply Narrowed.
Qed.

Lemma propagate_certain cs c key :
  In c (constraints (propagate cs)) -> In key (cells c) ->
  (mines c = 0%Z -> In key (knownSafe (known (propagate cs)))) /\
  (mines c = Z.of_nat (length (cells c)) ->
   In key (knownMines (known (propagate cs)))).
Proof.
  destruct (propagate_afterPasses cs) as [n [Hn E]]. rewrite E.
  destruct n as [| n]; [lia |]. unfold afterPasses. simpl.
  apply pass_certain.
Qed.

Lemma propagate_disjoint cs : disjointKnown (known (propagate cs)).
Proof.
  destruct (propagate_afterPasses cs) as [n [_ E]]. rewrite E.
  apply afterPasses_disjoint.
Qed.

Lemma filter_all {A} (f : A -> bool) l :
  length (filter f l) = length l -> forall x, In x l -> f x = true.
Proof.
  induction l as [| a l IH]; simpl; intros H x Hx; [contradiction |].
  pose proof (filter_length_le f l) as Le.
  destruct (f a) eqn:E; simpl in H; [| lia].
  destruct Hx as [<- | Hx]; [assumption | apply IH; [lia | assumption]].
Qed.

Lemma filter_none {A} (f : A -> bool) l :
  length (filter f l) = 0 -> forall x, In x l -> f x = false.
Proof.
  induction l as [| a l IH]; simpl; intros H x Hx; [contradiction |].
  destruct (f a) eqn:E; simpl in H; [discriminate |].
  destruct Hx as [<- | Hx]; [assumption | now apply IH].
Qed.

Lemma minesOn_all key solutions :
  (forall s, In s solutions -> JS.has s key = true) ->
  minesOn key solutions = length solutions.
Proof.
  unfold minesOn. induction solutions as [| s l IH]; intros H; simpl; [reflexivity |].
  rewrite (H s) by (left; reflexivity). simpl. f_equal.
  apply IH. intros s' Hs'. apply H. right. assumption.
Qed.

Lemma minesOn_none key solutions :
  (forall s, In s solutions -> JS.has s key = false) ->
  minesOn key solutions = 0.
Proof.
  unfold minesOn. induction solutions as [| s l IH]; intros H; simpl; [reflexivity |].
  rewrite (H s) by (left; reflexivity).
  apply IH. intros s' Hs'. apply H. right. assumption.
Qed.

(** C1 (as stated) fails: when propagation stops at its iteration cap, a
    constraint narrowed in the last pass can still belong to a component
    without any satisfying assignment, and the fallback 1/2 of that
    component overwrites the recorded certainty. *)
Lemma C1_counterexample : ~ certaintyHolds boardLongChain 126.
Proof.
  intros H.
  assert (E : exists res, calculateProbabilities boardLongChain 126 = Some res /\
                          JS.get res "0,76"%string = Some (1 # 2)%Q).
  { eexists. split; [vm_compute; reflexivity | reflexivity]. }
  destruct E as [res [E G]].
  destruct (H (mkConstraint ["0,76"%string] 0) "0,76"%string res) as [_ H0].
  - assert (P : nth_error (constraints (propagate (snd (extract boardLongChain)))) 51
                = Some (mkConstraint ["0,76"%string] 0))
      by (vm_compute; reflexivity).
    eapply nth_error_In, P.
  - left. reflexivity.
  - exact E.
  - destruct (H0 eq_refl) as [p [Gp Ep]].
    rewrite G in Gp. injection Gp as <-. discriminate.
Qed.

(** C1. On the long one-row board the constraint {(0,76)} with 0 mines
    is in the list after propagation, (0,76) is a known safe cell and the
    step that records the known cells gives it exactly 0; the only
    component left holds that constraint and the one of the clue 2, the
    branch for components of at most 20 cells finds no solution for it and
    writes 1/2 over the recorded 0, so that the returned map gives (0,76)
    the probability 1/2. *)
Theorem C1_recorded_certainty_overwritten :
  wfBoard boardLongChain = true /\
  In (mkConstraint ["0,76"%string] 0)
     (constraints (propagate (snd (extract boardLongChain)))) /\
  In "0,76"%string (knownSafe (known (propagate (snd (extract boardLongChain))))) /\
  JS.get (recordKnown (known (propagate (snd (extract boardLongChain)))))
         "0,76"%string = Some 0%Q /\
  componentsOf (snd (extract boardLongChain))
  = Some [[mkConstraint ["0,76"%string] 2; mkConstraint ["0,76"%string] 0]] /\
  solveConstraints ["0,76"%string]
                   [mkConstraint ["0,76"%string] 2; mkConstraint ["0,76"%string] 0]
  = [] /\
  exists res,
    calculateProbabilities boardLongChain 126 = Some res /\
    JS.get res "0,76"%string = Some (1 # 2)%Q.
Proof.
  split; [vm_compute; reflexivity |].
  split.
  { assert (P : nth_error (constraints (propagate (snd (extract boardLongChain)))) 51
                = Some (mkConstraint ["0,76"%string] 0))
      by (vm_compute; reflexivity).
    eapply nth_error_In, P. }
  split.
  { assert (H : JS.has (knownSafe (known (propagate (snd (extract boardLongChain)))))
                       "0,76"%string = true) by (vm_compute; reflexivity).
    exact (proj1 (has_true _ _) H). }
  split; [vm_compute; reflexivity |].
  split; [vm_compute; reflexivity |].
  split; [vm_compute; reflexivity |].
  eexists. split; [vm_compute; reflexivity | reflexivity].
Qed.

(** Where the recorded certainty survives: if after propagation a
    constraint has as many mines as remaining cells, each of those cells is
    mapped to exactly 1, and if it has no mine each of them is mapped to
    exactly 0, provided the component of the constraint, when it has at
    most 20 cells, has a satisfying assignment. *)
Theorem certain_cells_exact_when_satisfiable (b : Board) (minesRemaining : Z)
        (groups : list (list Constraint)) (g : list Constraint)
        (c : Constraint) (key : string) :
  In c (constraints (propagate (snd (extract b)))) -> In key (cells c) ->
  componentsOf (snd (extract b)) = Some groups -> In g groups -> In c g ->
  (length (groupCells g) <= 20 -> satisfying (groupCells g) g <> []) ->
  exists res,
    calculateProbabilities b minesRemaining = Some res /\
    (mines c = Z.of_nat (length (cells c)) ->
     exists p, JS.get res key = Some p /\ (p == 1)%Q) /\
    (mines c = 0%Z -> exists p, JS.get res key = Some p /\ (p == 0)%Q).
Proof.
  intros Hc Hk E Hg Hcg Hsat.
  set (cs := snd (extract b)) in *.
  assert (Hkg : In key (groupCells g)) by (apply groupCells_spec; eauto).
  destruct (propagate_certain cs c key Hc Hk) as [Safe Mine].
  pose proof (propagate_disjoint cs) as Dis.
  assert (Len : 0 < length (cells c)) by (destruct (cells c); [contradiction | simpl; lia]).
  destruct (value_of_group_cell cs (fst (extract b)) minesRemaining groups g key
              E Hg Hkg) as [res [result [Er [E0 Ev]]]].
  exists res. split; [exact Er |].
  rewrite get_recordKnown in E0.
  destruct (solveGroup_cases result g) as [[[_ Hn] Es] | [[_ Es] | [Hn _]]].
  - (* exhaustive enumeration *)
    rewrite Ev, Es, get_solveExact_in by auto using groupCells_nodup.
    cbv zeta. specialize (Hsat Hn).
    assert (Hne : solveConstraints (groupCells g) g <> []).
    { intros F. now apply (solutions_nil (groupCells g) g Hn) in F. }
    assert (Hpos : 0 < length (solveConstraints (groupCells g) g)).
    { destruct (solveConstraints (groupCells g) g); [congruence | simpl; lia]. }
    destruct (Nat.ltb_spec 0 (length (solveConstraints (groupCells g) g))); [| lia].
    assert (Sat : forall s, In s (solveConstraints (groupCells g) g) ->
                  Z.of_nat (length (filter (fun key0 => JS.has s key0) (cells c)))
                  = mines c).
    { intros s Hs.
      destruct (solutions_nodup (groupCells g) g s (groupCells_nodup g) Hn Hs)
        as [_ [_ S]]. now apply S. }
    split; intros Em; eexists; (split; [reflexivity |]).
    + rewrite minesOn_all; [now apply ratio_one |].
      intros s Hs. apply (filter_all (fun key0 => JS.has s key0) (cells c));
        [| assumption].
      specialize (Sat s Hs). lia.
    + rewrite minesOn_none; [apply ratio_zero |].
      intros s Hs. apply (filter_none (fun key0 => JS.has s key0) (cells c));
        [| assumption].
      specialize (Sat s Hs). lia.
  - (* averaging: recorded values are kept *)
    rewrite Ev, Es, solveAverage_fold, get_fold_missing, E0.
    split; intros Em.
    + specialize (Mine Em). apply has_true in Mine. rewrite Mine.
      exists 1%Q. split; reflexivity.
    + specialize (Safe Em).
      assert (Hm : JS.has (knownMines (known (propagate cs))) key = false).
      { apply has_false. intros F. exact (Dis key Safe F). }
      apply has_true in Safe. rewrite Hm, Safe.
      exists 0%Q. split; reflexivity.
  - rewrite Hn in Hkg. contradiction.
Qed.

Lemma certain_cells_exact_example :
  exists res,
    calculateProbabilities boardLongChainFree 125 = Some res /\
    (0%Z = Z.of_nat 1 -> exists p, JS.get res "0,76"%string = Some p /\ (p == 1)%Q) /\
    (0%Z = 0%Z -> exists p, JS.get res "0,76"%string = Some p /\ (p == 0)%Q).
Proof.
  apply (certain_cells_exact_when_satisfiable boardLongChainFree 125
           [[mkConstraint ["0,76"%string] 0]] [mkConstraint ["0,76"%string] 0]
           (mkConstraint ["0,76"%string] 0)).
  - assert (P : nth_error (constraints (propagate (snd (extract boardLongChainFree)))) 50
                = Some (mkConstraint ["0,76"%string] 0))
      by (vm_compute; reflexivity).
    eapply nth_error_In, P.
  - left. reflexivity.
  - vm_compute. reflexivity.
  - left. reflexivity.
  - left. reflexivity.
  - intros _. vm_compute. discriminate.
Defined.

(** ** Definitive cells *)

Lemma definitiveOf_spec probabilities :
  let d := definitiveOf probabilities in
  (forall p, In p (safe d) ->
             exists key v, In (key, v) probabilities /\ (v == 0)%Q /\
                           p = parseKey key) /\
  (forall p, In p (mineCells d) ->
             exists key v, In (key, v) probabilities /\ (v == 1)%Q /\
                           p = parseKey key).
Proof.
  unfold definitiveOf.
  set (step := fun (d : Definitive) (e : string * Q) =>
                 if Qeq_bool (snd e) 0
                 then mkDefinitive (safe d ++ [parseKey (fst e)]) (mineCells d)
                 else if Qeq_bool (snd e) 1
                      then mkDefinitive (safe d) (mineCells d ++ [parseKey (fst e)])
                      else d).
  assert (G : forall l d0,
             (forall p, In p (safe (fold_left step l d0)) ->
                        In p (safe d0) \/
                        exists key v, In (key, v) l /\ (v == 0)%Q /\ p = parseKey key) /\
             (forall p, In p (mineCells (fold_left step l d0)) ->
                        In p (mineCells d0) \/
                        exists key v, In (key, v) l /\ (v == 1)%Q /\ p = parseKey key)).
  { induction l as [| [key v] l IH]; intros d0; simpl; [auto |].
    destruct (IH (step d0 (key, v))) as [IH1 IH2]. split; intros p Hp.
    - destruct (IH1 p Hp) as [H | [k' [v' [H1 H2]]]]; [| right; eauto 10].
      unfold step in H. simpl in H.
      destruct (Qeq_bool v 0) eqn:E0; simpl in H.
      + apply in_app_iff in H. destruct H as [H | [<- | []]]; [auto |].
        right. exists key, v. apply Qeq_bool_iff in E0. auto.
      + destruct (Qeq_bool v 1); simpl in H; auto.
    - destruct (IH2 p Hp) as [H | [k' [v' [H1 H2]]]]; [| right; eauto 10].
      unfold step in H. simpl in H.
      destruct (Qeq_bool v 0) eqn:E0; simpl in H; [auto |].
      destruct (Qeq_bool v 1) eqn:E1; simpl in H; [| auto].
      apply in_app_iff in H. destruct H as [H | [<- | []]]; [auto |].
      right. exists key, v. apply Qeq_bool_iff in E1. auto. }
  destruct (G probabilities (mkDefinitive [] [])) as [G1 G2].
  split; intros p Hp; [destruct (G1 p Hp) as [[] | H] | destruct (G2 p Hp) as [[] | H]];
    exact H.
Qed.

(** C10. Parsing the key built by [cellKey] gives back the coordinates;
    hence, on a board of the declared shape, every pair listed by
    [getDefinitiveCells] as safe (as a mine) is the pair of coordinates of
    a hidden, unflagged cell of the board whose probability is exactly 0
    (exactly 1). *)
Theorem C10_definitive_cells_are_board_cells (b : Board) (minesRemaining : Z) :
  wfBoard b = true ->
  (forall r c, parseKey (cellKey r c) = (Some r, Some c)) /\
  exists res d,
    calculateProbabilities b minesRemaining = Some res /\
    getDefinitiveCells b minesRemaining = Some d /\
    (forall p, In p (safe d) ->
       exists r c cell,
         p = (Some r, Some c) /\
         getCell b (Z.of_nat r) (Z.of_nat c) = Some cell /\
         isUnknown cell = true /\
         exists v, JS.get res (cellKey r c) = Some v /\ (v == 0)%Q) /\
    (forall p, In p (mineCells d) ->
       exists r c cell,
         p = (Some r, Some c) /\
         getCell b (Z.of_nat r) (Z.of_nat c) = Some cell /\
         isUnknown cell = true /\
         exists v, JS.get res (cellKey r c) = Some v /\ (v == 1)%Q).
Proof.
  intros W. split; [apply parseKey_cellKey |].
  destruct (result_keys_unknown b minesRemaining W) as [res [E [ND K]]].
  exists res, (definitiveOf res). split; [exact E |].
  split; [unfold getDefinitiveCells; now rewrite E |].
  destruct (definitiveOf_spec res) as [S M].
  assert (Cell : forall key v, In (key, v) res ->
            exists r c cell,
              parseKey key = (Some r, Some c) /\
              getCell b (Z.of_nat r) (Z.of_nat c) = Some cell /\
              isUnknown cell = true /\ JS.get res (cellKey r c) = Some v).
  { intros key v Hin.
    assert (Hk : In key (JS.keys res)).
    { apply in_map_iff. exists (key, v). auto. }
    apply K in Hk. destruct Hk as [r [c [cell [Hr [Hc [Hat [Hu ->]]]]]]].
    exists r, c, cell. repeat split; auto.
    - apply parseKey_cellKey.
    - now rewrite getCell_cellAt.
    - now apply in_entry_get. }
  split; intros p Hp.
  - destruct (S p Hp) as [key [v [Hin [Hv ->]]]].
    destruct (Cell key v Hin) as [r [c [cell [H1 [H2 [H3 H4]]]]]].
    exists r, c, cell. repeat split; eauto.
  - destruct (M p Hp) as [key [v [Hin [Hv ->]]]].
    destruct (Cell key v Hin) as [r [c [cell [H1 [H2 [H3 H4]]]]]].
    exists r, c, cell. repeat split; eauto.
Qed.

Lemma C10_definitive_cells_are_board_cells_witness :
  parseKey (cellKey 2 1) = (Some 2, Some 1) /\
  exists d, getDefinitiveCells boardSharedClue 1 = Some d.
Proof.
  destruct (C10_definitive_cells_are_board_cells boardSharedClue 1 eq_refl)
    as [P [res [d [_ [E _]]]]].
  split; [apply P | exists d; exact E].
Defined.

(** ** The board class *)

Lemma nth_error_map_indexed_from {A B} (g : nat * A -> B) (l : list A) :
  forall s i,
    nth_error (map g (combine (seq s (length l)) l)) i =
    option_map (fun a => g (s + i, a)) (nth_error l i).
Proof.
  induction l as [| a l IH]; intros s i; simpl.
  - destruct i; reflexivity.
  - destruct i as [| i]; simpl.
    + now rewrite Nat.add_0_r.
    + rewrite IH. now rewrite Nat.add_succ_r.
Qed.

Lemma nth_error_map_indexed {A B} (g : nat * A -> B) (l : list A) i :
  nth_error (map g (indexed l)) i =
  option_map (fun a => g (i, a)) (nth_error l i).
Proof. unfold indexed. apply nth_error_map_indexed_from. Qed.

Lemma cellAt_mapCellAt f b r c r' c' :
  cellAt (mapCellAt f b r c) r' c' =
  if (r' =? r) && (c' =? c) then option_map f (cellAt b r c)
  else cellAt b r' c'.
Proof.
  unfold cellAt, mapCellAt. cbn [boardCells]. rewrite nth_error_map_indexed.
  destruct (nth_error (boardCells b) r') as [line' |] eqn:El';
    cbn [option_map fst snd].
  - destruct (Nat.eqb_spec r' r) as [-> | Nr]; cbn [andb].
    + rewrite El'. rewrite nth_error_map_indexed.
      destruct (nth_error line' c') as [cell' |] eqn:Ec'; cbn [option_map fst snd].
      * destruct (Nat.eqb_spec c' c) as [-> | Nc]; [now rewrite Ec' | reflexivity].
      * destruct (Nat.eqb_spec c' c) as [-> | Nc]; [now rewrite Ec' | reflexivity].
    + reflexivity.
  - destruct (Nat.eqb_spec r' r) as [-> | Nr]; cbn [andb]; [| reflexivity].
    rewrite El'. destruct (c' =? c); reflexivity.
Qed.

Lemma wfBoard_iff b :
  wfBoard b = true <->
  length (boardCells b) = rows b /\
  (forall r line, nth_error (boardCells b) r = Some line ->
                  length line = cols b /\
                  forall c cell, nth_error line c = Some cell ->
                                 row cell = r /\ col cell = c).
Proof.
  unfold wfBoard. rewrite andb_true_iff, Nat.eqb_eq, forallb_forall. split.
  - intros [L H]. split; [assumption |]. intros r line Hl.
    rewrite <- L in H.
    specialize (H (r, line) (proj2 (in_indexed (boardCells b) r line) Hl)).
    unfold wfLine in H. simpl in H.
    apply andb_true_iff in H. destruct H as [H1 H2]. apply Nat.eqb_eq in H1.
    split; [assumption |]. intros c cell Hc. rewrite <- H1 in H2.
    rewrite forallb_forall in H2.
    specialize (H2 (c, cell) (proj2 (in_indexed line c cell) Hc)). simpl in H2.
    apply andb_true_iff in H2. destruct H2 as [H2 H3].
    apply Nat.eqb_eq in H2, H3. auto.
  - intros [L H]. split; [assumption |]. intros [r line] Hin.
    rewrite <- L in Hin. apply (in_indexed (boardCells b)) in Hin.
    destruct (H r line Hin) as [H1 H2]. unfold wfLine. simpl.
    apply andb_true_iff. split; [now apply Nat.eqb_eq |].
    apply forallb_forall. intros [c cell] Hc. rewrite <- H1 in Hc.
    apply (in_indexed line) in Hc. destruct (H2 c cell Hc). simpl.
    apply andb_true_iff. split; now apply Nat.eqb_eq.
Qed.

Lemma wfBoard_total b r c :
  wfBoard b = true -> r < rows b -> c < cols b ->
  exists cell, cellAt b r c = Some cell /\ row cell = r /\ col cell = c.
Proof.
  intros W Hr Hc. apply wfBoard_iff in W. destruct W as [L H].
  unfold cellAt.
  destruct (nth_error (boardCells b) r) as [line |] eqn:El.
  - destruct (H r line El) as [Ll Hl].
    destruct (nth_error line c) as [cell |] eqn:Ec.
    + exists cell. destruct (Hl c cell Ec). auto.
    + apply nth_error_None in Ec. lia.
  - apply nth_error_None in El. lia.
Qed.

Lemma length_map_indexed {A B} (g : nat * A -> B) (l : list A) :
  length (map g (indexed l)) = length l.
Proof.
  unfold indexed. rewrite length_map, length_combine, length_seq. lia.
Qed.

Lemma mapCellAt_wf f b r c :
  (forall x, row (f x) = row x /\ col (f x) = col x) ->
  wfBoard b = true -> wfBoard (mapCellAt f b r c) = true.
Proof.
  intros Hf W. apply wfBoard_iff in W. destruct W as [L H].
  apply wfBoard_iff. unfold mapCellAt. simpl. split.
  - now rewrite length_map_indexed.
  - intros r' line' Hl. rewrite nth_error_map_indexed in Hl.
    destruct (nth_error (boardCells b) r') as [line |] eqn:El; [| discriminate].
    simpl in Hl. destruct (H r' line El) as [Ll Hc].
    destruct (r' =? r); injection Hl as <-; [| auto].
    split; [now rewrite length_map_indexed |].
    intros c' cell' Hc'. rewrite nth_error_map_indexed in Hc'.
    destruct (nth_error line c') as [cell |] eqn:Ec; [| discriminate].
    simpl in Hc'. destruct (Hc c' cell Ec) as [E1 E2].
    destruct (c' =? c); injection Hc' as <-; [| auto].
    destruct (Hf cell). split; congruence.
Qed.

Lemma newBoard_cellAt (rs cs ms r c : nat) :
  cellAt (newBoard rs cs ms) r c =
  if (r <? rs) && (c <? cs)
  then Some (mkCell r c false 0 false false) else None.
Proof.
  unfold cellAt, newBoard. simpl.
  rewrite nth_error_map, nth_error_seq.
  destruct (Nat.ltb_spec r rs); simpl; [| reflexivity].
  rewrite nth_error_map, nth_error_seq.
  destruct (Nat.ltb_spec c cs); reflexivity.
Qed.

(** X1. The constructor builds a board of the declared shape on which
    every position inside the bounds holds a hidden, unflagged, mine-free
    cell with count 0 and its own coordinates, and no other position
    holds a cell. *)
Theorem newBoard_initial (rs cs ms : nat) :
  wfBoard (newBoard rs cs ms) = true /\
  (forall r c, r < rs -> c < cs ->
     cellAt (newBoard rs cs ms) r c = Some (mkCell r c false 0 false false)) /\
  (forall r c, ~ (r < rs /\ c < cs) -> cellAt (newBoard rs cs ms) r c = None).
Proof.
  split; [| split].
  - apply wfBoard_iff. simpl. split; [now rewrite length_map, length_seq |].
    intros r line Hl. rewrite nth_error_map, nth_error_seq in Hl.
    destruct (Nat.ltb_spec r rs); simpl in Hl; [| discriminate].
    injection Hl as <-. split; [now rewrite length_map, length_seq |].
    intros c cell Hc. rewrite nth_error_map, nth_error_seq in Hc.
    destruct (Nat.ltb_spec c cs); simpl in Hc; [| discriminate].
    injection Hc as <-. simpl. auto.
  - intros r c Hr Hc. rewrite newBoard_cellAt.
    destruct (Nat.ltb_spec r rs); [| lia]. destruct (Nat.ltb_spec c cs); [| lia].
    reflexivity.
  - intros r c Hn. rewrite newBoard_cellAt.
    destruct (Nat.ltb_spec r rs); [| reflexivity].
    destruct (Nat.ltb_spec c cs); [lia | reflexivity].
Qed.

(** X2. [getCell] answers [null] outside the bounds and, on a board of
    the declared shape, the cell carrying the asked coordinates inside
    them. *)
Theorem getCell_bounds (b : Board) (r c : Z) :
  wfBoard b = true ->
  ((r < 0 \/ Z.of_nat (rows b) <= r \/ c < 0 \/ Z.of_nat (cols b) <= c)%Z ->
   getCell b r c = None) /\
  ((0 <= r < Z.of_nat (rows b) /\ 0 <= c < Z.of_nat (cols b))%Z ->
   exists cell, getCell b r c = Some cell /\
                Z.of_nat (row cell) = r /\ Z.of_nat (col cell) = c).
Proof.
  intros W. unfold getCell, isValidCell. split.
  - intros H.
    destruct (Z.leb_spec 0 r); destruct (Z.ltb_spec r (Z.of_nat (rows b)));
      destruct (Z.leb_spec 0 c); destruct (Z.ltb_spec c (Z.of_nat (cols b)));
      simpl; try reflexivity; lia.
  - intros [[H1 H2] [H3 H4]].
    destruct (Z.leb_spec 0 r); [| lia].
    destruct (Z.ltb_spec r (Z.of_nat (rows b))); [| lia].
    destruct (Z.leb_spec 0 c); [| lia].
    destruct (Z.ltb_spec c (Z.of_nat (cols b))); [| lia]. simpl.
    destruct (wfBoard_total b (Z.to_nat r) (Z.to_nat c) W) as [cell [E [Er Ec]]];
      [lia | lia |].
    exists cell. split; [assumption |]. lia.
Qed.

Lemma getCell_bounds_witness :
  getCell (newBoard 2 3 1) (-1) 0 = None /\
  exists cell, getCell (newBoard 2 3 1) 1 2 = Some cell /\
               Z.of_nat (row cell) = 1%Z /\ Z.of_nat (col cell) = 2%Z.
Proof.
  destruct (getCell_bounds (newBoard 2 3 1) (-1) 0 eq_refl) as [H _].
  destruct (getCell_bounds (newBoard 2 3 1) 1 2 eq_refl) as [_ H'].
  split; [apply H; lia | apply H'; simpl; lia].
Defined.

Lemma in_directions dr dc :
  In (dr, dc) directions <->
  ((-1 <= dr <= 1) /\ (-1 <= dc <= 1) /\ (dr, dc) <> (0, 0))%Z.
Proof.
  unfold directions. simpl. split.
  - intros H. repeat (destruct H as [H | H]; [injection H as <- <-;
      repeat split; try lia; discriminate |]). contradiction.
  - intros [[H1 H2] [[H3 H4] H5]].
    assert (Hr : (dr = -1 \/ dr = 0 \/ dr = 1)%Z) by lia.
    assert (Hc : (dc = -1 \/ dc = 0 \/ dc = 1)%Z) by lia.
    destruct Hr as [-> | [-> | ->]]; destruct Hc as [-> | [-> | ->]];
      try tauto; contradiction.
Qed.

Lemma getNeighbors_in (b : Board) (r c : nat) (n : Cell) :
  wfBoard b = true ->
  (In n (getNeighbors b r c) <->
   cellAt b (row n) (col n) = Some n /\ adjacent r c (row n) (col n)).
Proof.
  intros W. unfold getNeighbors. rewrite in_flat_map. split.
  + intros [[dr dc] [Hd H]]. simpl in H.
    destruct (isValidCell b (Z.of_nat r + dr) (Z.of_nat c + dc)) eqn:V;
      [| contradiction].
    destruct (cellAt b _ _) as [n' |] eqn:E; [| contradiction].
    destruct H as [<- | []].
    destruct (wfBoard_cellAt b _ _ n' W E) as [_ [_ [Er Ec]]].
    apply in_directions in Hd. unfold isValidCell in V.
    repeat (apply andb_true_iff in V; destruct V as [V ?]).
    apply Z.leb_le in V. apply Z.leb_le in H0.
    rewrite Er, Ec. split; [assumption |].
    unfold adjacent. repeat split; try lia.
    intros F. injection F as F1 F2. destruct Hd as [_ [_ Hd]]. apply Hd.
    f_equal; lia.
  + intros [E [[H1 H2] [[H3 H4] H5]]].
    destruct (wfBoard_cellAt b _ _ n W E) as [Hr [Hc _]].
    exists ((Z.of_nat (row n) - Z.of_nat r)%Z, (Z.of_nat (col n) - Z.of_nat c)%Z).
    split.
    * apply in_directions. repeat split; try lia.
      intros F. injection F as F1 F2. apply H5. f_equal; lia.
    * simpl.
      replace (Z.of_nat r + (Z.of_nat (row n) - Z.of_nat r))%Z
        with (Z.of_nat (row n)) by lia.
      replace (Z.of_nat c + (Z.of_nat (col n) - Z.of_nat c))%Z
        with (Z.of_nat (col n)) by lia.
      unfold isValidCell.
      destruct (Z.leb_spec 0 (Z.of_nat (row n))); [| lia].
      destruct (Z.ltb_spec (Z.of_nat (row n)) (Z.of_nat (rows b))); [| lia].
      destruct (Z.leb_spec 0 (Z.of_nat (col n))); [| lia].
      destruct (Z.ltb_spec (Z.of_nat (col n)) (Z.of_nat (cols b))); [| lia].
      simpl. rewrite !Nat2Z.id, E. left. reflexivity.
Qed.

(** X3. On a board of the declared shape the neighbours of (r, c) are
    exactly the cells at the positions next to it, diagonals included; the
    cell itself is not among them and there are at most eight. *)
Theorem getNeighbors_adjacent (b : Board) (r c : nat) :
  wfBoard b = true ->
  (forall n, In n (getNeighbors b r c) <->
             cellAt b (row n) (col n) = Some n /\ adjacent r c (row n) (col n)) /\
  length (getNeighbors b r c) <= 8.
Proof.
  intros W. split.
  - intros n. now apply getNeighbors_in.
  - unfold getNeighbors.
    assert (G : forall ds : list (Z * Z),
               length (flat_map
                 (fun d : Z * Z =>
                    if isValidCell b (Z.of_nat r + fst d) (Z.of_nat c + snd d)
                    then match cellAt b (Z.to_nat (Z.of_nat r + fst d))
                                     (Z.to_nat (Z.of_nat c + snd d)) with
                         | Some n => [n]
                         | None => []
                         end
                    else []) ds) <= length ds).
    { induction ds as [| d ds IH]; simpl; [lia |].
      rewrite length_app.
      destruct (isValidCell b _ _); [destruct (cellAt b _ _) |]; simpl; lia. }
    apply (G directions).
Qed.

Lemma getNeighbors_adjacent_witness :
  length (getNeighbors (newBoard 2 3 1) 0 0) <= 8.
Proof.
  apply (getNeighbors_adjacent (newBoard 2 3 1) 0 0). reflexivity.
Defined.

Lemma isValidCell_nat b r c :
  isValidCell b (Z.of_nat r) (Z.of_nat c) = (r <? rows b) && (c <? cols b).
Proof.
  unfold isValidCell.
  destruct (Z.leb_spec 0 (Z.of_nat r)); [| lia].
  destruct (Z.leb_spec 0 (Z.of_nat c)); [| lia].
  destruct (Z.ltb_spec (Z.of_nat r) (Z.of_nat (rows b)));
    destruct (Nat.ltb_spec r (rows b)); try lia;
    destruct (Z.ltb_spec (Z.of_nat c) (Z.of_nat (cols b)));
    destruct (Nat.ltb_spec c (cols b)); try lia; reflexivity.
Qed.

Lemma setMine_inside (b : Board) (r c : nat) :
  wfBoard b = true -> r < rows b /\ c < cols b ->
  let b' := snd (setMine b (Z.of_nat r) (Z.of_nat c)) in
  fst (setMine b (Z.of_nat r) (Z.of_nat c)) = true /\
  wfBoard b' = true /\ rows b' = rows b /\ cols b' = cols b /\
  (exists cell, cellAt b r c = Some cell /\
                cellAt b' r c =
                Some (mkCell (row cell) (col cell) true (adjacentMines cell)
                             (isRevealed cell) (isFlagged cell))) /\
  forall r' c', (r', c') <> (r, c) -> cellAt b' r' c' = cellAt b r' c'.
Proof.
  intros W [Hr Hc]. unfold setMine. rewrite isValidCell_nat, !Nat2Z.id.
  destruct (Nat.ltb_spec r (rows b)); [| lia].
  destruct (Nat.ltb_spec c (cols b)); [| lia]. simpl.
  split; [reflexivity |]. split; [| split; [reflexivity | split; [reflexivity |]]].
  - apply mapCellAt_wf; [| assumption]. intros x. simpl. auto.
  - split.
    + destruct (wfBoard_total b r c W Hr Hc) as [cell [E _]].
      exists cell. split; [assumption |].
      rewrite cellAt_mapCellAt, !Nat.eqb_refl, E. reflexivity.
    + intros r' c' Hne. rewrite cellAt_mapCellAt.
      destruct (Nat.eqb_spec r' r) as [-> | Nr]; [| reflexivity].
      destruct (Nat.eqb_spec c' c) as [-> | Nc]; [congruence | reflexivity].
Qed.

Lemma isValidCell_outside b (r c : Z) :
  (r < 0 \/ Z.of_nat (rows b) <= r \/ c < 0 \/ Z.of_nat (cols b) <= c)%Z ->
  isValidCell b r c = false.
Proof.
  intros H. unfold isValidCell.
  destruct (Z.leb_spec 0 r); destruct (Z.ltb_spec r (Z.of_nat (rows b)));
    destruct (Z.leb_spec 0 c); destruct (Z.ltb_spec c (Z.of_nat (cols b)));
    try reflexivity; lia.
Qed.

(** X4. [setMine] refuses a position outside the bounds (a negative or a
    too large row or column) and leaves the board as it is; inside the
    bounds it answers [true], marks that cell as a mine, changes nothing
    else and keeps the shape of the board. *)
Theorem setMine_spec (b : Board) (r c : Z) :
  wfBoard b = true ->
  ((r < 0 \/ Z.of_nat (rows b) <= r \/ c < 0 \/ Z.of_nat (cols b) <= c)%Z ->
   setMine b r c = (false, b)) /\
  ((0 <= r < Z.of_nat (rows b) /\ 0 <= c < Z.of_nat (cols b))%Z ->
   let b' := snd (setMine b r c) in
   fst (setMine b r c) = true /\
   wfBoard b' = true /\ rows b' = rows b /\ cols b' = cols b /\
   (exists cell, cellAt b (Z.to_nat r) (Z.to_nat c) = Some cell /\
                 cellAt b' (Z.to_nat r) (Z.to_nat c) =
                 Some (mkCell (row cell) (col cell) true (adjacentMines cell)
                              (isRevealed cell) (isFlagged cell))) /\
   forall r' c', (r', c') <> (Z.to_nat r, Z.to_nat c) ->
                 cellAt b' r' c' = cellAt b r' c').
Proof.
  intros W. split.
  - intros H. unfold setMine. now rewrite isValidCell_outside.
  - intros [Hr Hc].
    rewrite <- (Z2Nat.id r), <- (Z2Nat.id c) by lia.
    rewrite !Nat2Z.id. apply setMine_inside; [assumption | lia].
Qed.

Lemma setMine_spec_witness :
  setMine (newBoard 2 3 1) 0 (-1) = (false, newBoard 2 3 1) /\
  setMine (newBoard 2 3 1) 5 0 = (false, newBoard 2 3 1) /\
  fst (setMine (newBoard 2 3 1) 1 2) = true.
Proof.
  destruct (setMine_spec (newBoard 2 3 1) 0 (-1) eq_refl) as [H1 _].
  destruct (setMine_spec (newBoard 2 3 1) 5 0 eq_refl) as [H2 _].
  destruct (setMine_spec (newBoard 2 3 1) 1 2 eq_refl) as [_ H3].
  split; [apply H1; simpl; lia |].
  split; [apply H2; simpl; lia | apply H3; simpl; lia].
Defined.

(** *** Adjacent mine counts *)

Lemma sameMines_refl b : sameMines b b.
Proof. repeat split. Qed.

Lemma sameMines_neighbors b b' r c :
  sameMines b b' ->
  getAdjacentMineCount b' r c = getAdjacentMineCount b r c.
Proof.
  intros [Hr [Hc H]]. unfold getAdjacentMineCount, getNeighbors.
  induction directions as [| d ds IH]; [reflexivity |].
  cbn [flat_map]. rewrite !filter_app, !length_app, IH. f_equal.
  unfold isValidCell. rewrite Hr, Hc.
  destruct (_ && _)%bool; [| reflexivity].
  specialize (H (Z.to_nat (Z.of_nat r + fst d)) (Z.to_nat (Z.of_nat c + snd d))).
  destruct (cellAt b' _ _) as [n' |]; destruct (cellAt b _ _) as [n |];
    simpl in *; try discriminate; [| reflexivity].
  injection H as H. rewrite H. destruct (isMine n); reflexivity.
Qed.

Lemma adjacentStep_cell b p r c :
  cellAt (adjacentStep b p) r c =
  match cellAt b r c with
  | Some cell =>
      if ((r =? fst p) && (c =? snd p)) && negb (isMine cell)
      then Some (mkCell (row cell) (col cell) (isMine cell)
                        (Z.of_nat (getAdjacentMineCount b (fst p) (snd p)))
                        (isRevealed cell) (isFlagged cell))
      else Some cell
  | None => None
  end.
Proof.
  unfold adjacentStep. destruct p as [pr pc]. cbn [fst snd].
  destruct (cellAt b pr pc) as [pcell |] eqn:Ep.
  - destruct (isMine pcell) eqn:Em; cbn [negb].
    + destruct (cellAt b r c) as [cell |] eqn:E; [| reflexivity].
      destruct (Nat.eqb_spec r pr) as [-> | Nr]; [| reflexivity].
      destruct (Nat.eqb_spec c pc) as [-> | Nc]; [| reflexivity].
      assert (cell = pcell) by congruence. subst. rewrite Em. reflexivity.
    + rewrite cellAt_mapCellAt.
      destruct (Nat.eqb_spec r pr) as [-> | Nr]; cbn [andb].
      * destruct (Nat.eqb_spec c pc) as [-> | Nc]; cbn [andb].
        -- rewrite Ep. simpl. rewrite Em. reflexivity.
        -- destruct (cellAt b pr c); reflexivity.
      * destruct (cellAt b r c); reflexivity.
  - destruct (cellAt b r c) as [cell |] eqn:E; [| reflexivity].
    destruct (Nat.eqb_spec r pr) as [-> | Nr]; [| reflexivity].
    destruct (Nat.eqb_spec c pc) as [-> | Nc]; [congruence | reflexivity].
Qed.

Lemma adjacentStep_dims b p :
  rows (adjacentStep b p) = rows b /\ cols (adjacentStep b p) = cols b.
Proof.
  unfold adjacentStep. destruct (cellAt b _ _) as [cell |]; [| auto].
  destruct (negb (isMine cell)); auto.
Qed.

Lemma adjacentStep_wf b p : wfBoard b = true -> wfBoard (adjacentStep b p) = true.
Proof.
  intros W. unfold adjacentStep. destruct (cellAt b _ _) as [cell |]; [| assumption].
  destruct (negb (isMine cell)); [| assumption].
  apply mapCellAt_wf; [| assumption]. intros x. simpl. auto.
Qed.

(** Invariant of the double loop: the shape and everything but the counts
    are kept; the count of a mine-free cell already visited is the number
    of mines around it, the count of any other cell is unchanged. *)
Lemma adjacentLoop b done_ : forall todo bk,
  sameMines b bk -> wfBoard bk = true ->
  (forall r c cell, cellAt b r c = Some cell ->
     exists cell', cellAt bk r c = Some cell' /\
       row cell' = row cell /\ col cell' = col cell /\
       isMine cell' = isMine cell /\ isRevealed cell' = isRevealed cell /\
       isFlagged cell' = isFlagged cell /\
       (if isMine cell then adjacentMines cell' = adjacentMines cell
        else (In (r, c) done_ ->
              adjacentMines cell' = Z.of_nat (getAdjacentMineCount b r c)))) ->
  let bf := fold_left adjacentStep todo bk in
  sameMines b bf /\ wfBoard bf = true /\
  (forall r c cell, cellAt b r c = Some cell ->
     exists cell', cellAt bf r c = Some cell' /\
       row cell' = row cell /\ col cell' = col cell /\
       isMine cell' = isMine cell /\ isRevealed cell' = isRevealed cell /\
       isFlagged cell' = isFlagged cell /\
       (if isMine cell then adjacentMines cell' = adjacentMines cell
        else (In (r, c) (done_ ++ todo) ->
              adjacentMines cell' = Z.of_nat (getAdjacentMineCount b r c)))).
Proof.
  revert done_. intros done_ todo. revert done_.
  induction todo as [| p todo IH]; intros done_ bk SM W Inv; cbn [fold_left].
  - rewrite app_nil_r. auto.
  - replace (done_ ++ p :: todo) with ((done_ ++ [p]) ++ todo)
      by (rewrite <- app_assoc; reflexivity).
    apply IH.
    + destruct SM as [Hr [Hc H]]. destruct (adjacentStep_dims bk p) as [Dr Dc].
      split; [congruence |]. split; [congruence |].
      intros r c. rewrite adjacentStep_cell, <- H.
      destruct (cellAt bk r c) as [cell |]; [| reflexivity].
      destruct (_ && _)%bool; reflexivity.
    + now apply adjacentStep_wf.
    + intros r c cell E. destruct (Inv r c cell E) as [cell' [E' [H1 [H2 [H3 [H4 [H5 H6]]]]]]].
      rewrite adjacentStep_cell, E'.
      destruct (Nat.eqb_spec r (fst p)) as [Er | Nr]; cbn [andb].
      * destruct (Nat.eqb_spec c (snd p)) as [Ec | Nc]; cbn [andb].
        -- rewrite H3. destruct (isMine cell) eqn:Em; cbn [negb].
           ++ exists cell'. repeat split; auto.
           ++ eexists. split; [reflexivity |]. simpl. repeat split; auto.
              intros _. rewrite (sameMines_neighbors b bk) by assumption.
              now rewrite <- Er, <- Ec.
        -- exists cell'. repeat split; auto.
           destruct (isMine cell); [assumption |]. intros Hin.
           apply H6. apply in_app_iff in Hin. destruct Hin as [Hin | [Hin | []]];
             [assumption |]. subst p. simpl in Nc. congruence.
      * exists cell'. repeat split; auto.
        destruct (isMine cell); [assumption |]. intros Hin.
        apply H6. apply in_app_iff in Hin. destruct Hin as [Hin | [Hin | []]];
          [assumption |]. subst p. simpl in Nr. congruence.
Qed.

(** *** Forbidden cells, mine locations, hidden cells *)

Lemma in_fold_add {A} (f : A -> string) l : forall s key,
  In key (fold_left (fun s0 n => JS.add s0 (f n)) l s) <->
  In key s \/ exists n, In n l /\ key = f n.
Proof.
  induction l as [| a l IH]; intros s key; simpl.
  - split; [auto | intros [H | [n [[] _]]]; assumption].
  - rewrite IH, in_add. split.
    + intros [[H | ->] | [n [H1 H2]]]; eauto.
    + intros [H | [n [[<- | H1] H2]]]; eauto.
Qed.

(** X6. On a board of the declared shape the forbidden cells of a
    position inside the bounds are exactly the keys of the positions of
    the board at distance at most one from it, itself included; for a
    position outside the bounds (a negative or a too large row or column)
    there is none. *)
Theorem getForbiddenCells_block (b : Board) (r c : Z) :
  wfBoard b = true ->
  ((r < 0 \/ Z.of_nat (rows b) <= r \/ c < 0 \/ Z.of_nat (cols b) <= c)%Z ->
   getForbiddenCells b r c = []) /\
  ((0 <= r < Z.of_nat (rows b) /\ 0 <= c < Z.of_nat (cols b))%Z ->
   forall r' c',
     In (cellKey r' c') (getForbiddenCells b r c) <->
     r' < rows b /\ c' < cols b /\
     (Z.of_nat r' - 1 <= r <= Z.of_nat r' + 1)%Z /\
     (Z.of_nat c' - 1 <= c <= Z.of_nat c' + 1)%Z).
Proof.
  intros W. split.
  - intros H. unfold getForbiddenCells, getCell. now rewrite isValidCell_outside.
  - intros [Hr Hc].
    assert (Er : r = Z.of_nat (Z.to_nat r)) by lia.
    assert (Ec : c = Z.of_nat (Z.to_nat c)) by lia.
    assert (Lr : Z.to_nat r < rows b) by lia.
    assert (Lc : Z.to_nat c < cols b) by lia.
    revert Er Ec Lr Lc. generalize (Z.to_nat r), (Z.to_nat c).
    intros r0 c0 -> -> Lr Lc. clear Hr Hc.
    unfold getForbiddenCells, getCell.
    rewrite isValidCell_nat, !Nat2Z.id.
    destruct (Nat.ltb_spec r0 (rows b)); [| lia].
    destruct (Nat.ltb_spec c0 (cols b)); [| lia]. simpl.
    destruct (wfBoard_total b r0 c0 W Lr Lc) as [cell [E _]]. rewrite E.
    intros r' c'. rewrite (in_fold_add (fun n => cellKey (row n) (col n))).
    pose proof (fun n => getNeighbors_in b r0 c0 n W) as N. split.
    + intros [Hs | [n [Hn Hk]]].
      * unfold JS.add in Hs. simpl in Hs. destruct Hs as [Hs | []].
        apply cellKey_inj in Hs. destruct Hs as [<- <-]. lia.
      * apply cellKey_inj in Hk. destruct Hk as [-> ->].
        apply N in Hn. destruct Hn as [En [A1 [A2 _]]].
        destruct (wfBoard_cellAt b _ _ n W En) as [Lr' [Lc' _]]. lia.
    + intros [Lr' [Lc' [A1 A2]]].
      destruct (Nat.eq_dec r' r0) as [-> | Nr];
        [destruct (Nat.eq_dec c' c0) as [-> | Nc] |].
      * left. unfold JS.add. simpl. auto.
      * right. destruct (wfBoard_total b r0 c' W Lr' Lc') as [n [En [Er Ec]]].
        exists n. split; [| now rewrite Er, Ec].
        apply N. rewrite Er, Ec. split; [assumption |].
        unfold adjacent. repeat split; try lia. congruence.
      * right. destruct (wfBoard_total b r' c' W Lr' Lc') as [n [En [Er Ec]]].
        exists n. split; [| now rewrite Er, Ec].
        apply N. rewrite Er, Ec. split; [assumption |].
        unfold adjacent. repeat split; try lia. congruence.
Qed.

Lemma getForbiddenCells_block_witness :
  getForbiddenCells (newBoard 2 3 1) (-1) 1 = [] /\
  getForbiddenCells (newBoard 2 3 1) 7 0 = [] /\
  In (cellKey 1 1) (getForbiddenCells (newBoard 2 3 1) 0 0).
Proof.
  destruct (getForbiddenCells_block (newBoard 2 3 1) (-1) 1 eq_refl) as [H1 _].
  destruct (getForbiddenCells_block (newBoard 2 3 1) 7 0 eq_refl) as [H2 _].
  destruct (getForbiddenCells_block (newBoard 2 3 1) 0 0 eq_refl) as [_ H3].
  split; [apply H1; simpl; lia |].
  split; [apply H2; simpl; lia |].
  apply H3; simpl; lia.
Defined.

(** X7. [getMineLocations] lists exactly the positions inside the bounds
    that hold a mine, and placing a mine with [setMine] adds its position
    to the list and changes nothing else in it. *)
Theorem getMineLocations_setMine (b : Board) (r c : nat) :
  wfBoard b = true -> r < rows b -> c < cols b ->
  (forall r' c',
      In (r', c') (getMineLocations b) <->
      exists cell, cellAt b r' c' = Some cell /\ isMine cell = true) /\
  (forall r' c',
      In (r', c') (getMineLocations (snd (setMine b (Z.of_nat r) (Z.of_nat c)))) <->
      (r', c') = (r, c) \/ In (r', c') (getMineLocations b)).
Proof.
  intros W Hr Hc.
  assert (G : forall b0, wfBoard b0 = true -> forall r' c',
            In (r', c') (getMineLocations b0) <->
            exists cell, cellAt b0 r' c' = Some cell /\ isMine cell = true).
  { intros b0 W0 r' c'. unfold getMineLocations, cellHas.
    rewrite filter_In, in_positions. simpl. split.
    - intros [_ H]. destruct (cellAt b0 r' c') as [cell |]; [eauto | discriminate].
    - intros [cell [E Hm]]. rewrite E.
      destruct (wfBoard_cellAt b0 r' c' cell W0 E) as [Lr [Lc _]]. auto. }
  split; [apply G, W |].
  destruct (setMine_inside b r c W (conj Hr Hc))
    as [_ [W' [_ [_ [[cell [E E'] ] Other]]]]].
  intros r' c'. rewrite (G _ W'), (G _ W).
  destruct (Nat.eq_dec r' r) as [-> | Nr];
    [destruct (Nat.eq_dec c' c) as [-> | Nc] |].
  - split; [auto |]. intros _. rewrite E'. eexists. split; [reflexivity |].
    reflexivity.
  - rewrite Other by congruence. split; [auto |].
    intros [F | H]; [congruence | assumption].
  - rewrite Other by congruence. split; [auto |].
    intros [F | H]; [congruence | assumption].
Qed.

Lemma getMineLocations_setMine_witness :
  In (1, 2) (getMineLocations (snd (setMine (newBoard 2 3 1) (Z.of_nat 1) (Z.of_nat 2)))).
Proof.
  apply (getMineLocations_setMine (newBoard 2 3 1) 1 2 eq_refl); simpl; try lia.
  left. reflexivity.
Defined.

(** X8. Every cell of a fresh board is hidden: [getUnrevealedCount]
    answers rows x cols, and there is no mine to list. *)
Theorem newBoard_counts (rs cs ms : nat) :
  getUnrevealedCount (newBoard rs cs ms) = rs * cs /\
  getMineLocations (newBoard rs cs ms) = [].
Proof.
  assert (In_ : forall r c, r < rs -> c < cs ->
            cellAt (newBoard rs cs ms) r c = Some (mkCell r c false 0 false false)).
  { intros r c Hr Hc. rewrite newBoard_cellAt.
    destruct (Nat.ltb_spec r rs); [| lia]. destruct (Nat.ltb_spec c cs); [| lia].
    reflexivity. }
  unfold getUnrevealedCount, getMineLocations.
  assert (P : forall p, In p (positions (newBoard rs cs ms)) ->
              cellAt (newBoard rs cs ms) (fst p) (snd p)
              = Some (mkCell (fst p) (snd p) false 0 false false)).
  { intros [r c] H. apply in_positions in H. simpl in *. now apply In_. }
  split.
  - replace (rs * cs) with (length (positions (newBoard rs cs ms)))
      by (unfold positions; rewrite length_prod, !length_seq; reflexivity).
    f_equal. apply forallb_filter_id. apply forallb_forall. intros p Hp.
    unfold cellHas. now rewrite (P p Hp).
  - induction (positions (newBoard rs cs ms)) as [| p l IH]; [reflexivity |].
    simpl. unfold cellHas at 1. rewrite P by (left; reflexivity). simpl.
    apply IH. intros q Hq. apply P. right. assumption.
Qed.

(** ** Further properties of the engine *)

(** X9. Two cell keys are equal only if the coordinates are. *)
Theorem cellKey_injective (r c r' c' : nat) :
  cellKey r c = cellKey r' c' <-> r = r' /\ c = c'.
Proof.
  split; [apply cellKey_inj | intros [-> ->]; reflexivity].
Qed.

(** X10. Counting a mask from 0 to 2^n - 1 builds every subset of the
    cells exactly once: every selection of cells is built by some mask,
    every assignment built is a duplicate-free sub-list of the cells, and
    no assignment is built twice. *)
Theorem masks_enumerate_subsets (cellArray : list string) :
  NoDup cellArray ->
  let all := map (assignment cellArray)
                 (masksFrom 0 (N.to_nat (2 ^ N.of_nat (length cellArray)))) in
  NoDup all /\
  (forall f : string -> bool, In (filter f cellArray) all) /\
  (forall s, In s all -> incl s cellArray /\ NoDup s).
Proof.
  intros ND. cbv zeta. rewrite masks_subsets. split; [| split].
  - now apply subsets_nodup.
  - intros f. apply subsets_complete.
  - intros s Hs. destruct (subsets_members cellArray s Hs). auto.
Qed.

Lemma masks_enumerate_subsets_witness :
  In (filter (String.eqb "b") ["a"; "b"]%string)
     (map (assignment ["a"; "b"]%string)
          (masksFrom 0 (N.to_nat (2 ^ N.of_nat 2)))).
Proof.
  apply (masks_enumerate_subsets ["a"; "b"]%string).
  repeat constructor; simpl; intuition discriminate.
Defined.




(** *** Passes *)

Lemma pass_extends st : extendsKnown (known st) (known (pass st)).
Proof.
  unfold pass.
  set (k0 := mkKnown (knownSafe (known st)) (knownMines (known st)) false).
  set (r1 := narrowAll k0 (constraints st)).
  assert (E : extendsKnown (known st) (fst (subsetAnalysis (snd r1) (fst r1)))).
  { apply extendsKnown_trans with (fst r1).
    - apply (narrowAll_extends (constraints st) k0).
    - apply subsetAnalysis_extends. }
  destruct (0 <? _); exact E.
Qed.

(** X12. The propagation makes at least one and at most 100 passes, and
    no pass ever removes a cell from the known-safe or the known-mine
    set: the sets after a pass contain those before it. *)
Theorem propagation_passes_monotone (cs : list Constraint) :
  (exists n, 1 <= n <= 100 /\ propagate cs = afterPasses cs n) /\
  (forall n m, extendsKnown (known (afterPasses cs n))
                            (known (afterPasses cs (n + m)))) /\
  (forall n, extendsKnown (known (afterPasses cs n)) (known (propagate cs)) \/
             extendsKnown (known (propagate cs)) (known (afterPasses cs n))).
Proof.
  assert (Mono : forall n m, extendsKnown (known (afterPasses cs n))
                                          (known (afterPasses cs (n + m)))).
  { intros n m. induction m as [| m IH].
    - rewrite Nat.add_0_r. apply extendsKnown_refl.
    - rewrite Nat.add_succ_r. unfold afterPasses in *. cbn [Nat.iter nat_rect].
      eapply extendsKnown_trans; [exact IH | apply pass_extends]. }
  split; [apply propagate_afterPasses |]. split; [exact Mono |].
  intros n. destruct (propagate_afterPasses cs) as [k [_ E]]. rewrite E.
  destruct (Nat.le_ge_cases n k) as [H | H].
  - left. replace k with (n + (k - n)) by lia. apply Mono.
  - right. replace n with (k + (n - k)) by lia. apply Mono.
Qed.

Lemma narrow_mines k keys : forall m, (snd (narrow k keys m) <= m)%Z.
Proof.
  induction keys as [| key keys IH]; intros m; simpl; [lia |].
  destruct (JS.has (knownSafe k) key); [apply IH |].
  destruct (JS.has (knownMines k) key); simpl; [| apply IH].
  specialize (IH (m - 1)%Z). lia.
Qed.

Lemma processConstraint_snd k c :
  snd (processConstraint k c) =
  mkConstraint (fst (narrow k (cells c) (mines c)))
               (Z.max 0 (snd (narrow k (cells c) (mines c)))).
Proof.
  unfold processConstraint.
  destruct (length _ =? 0); [reflexivity |].
  destruct (_ =? 0)%Z; [reflexivity |].
  destruct (_ =? _)%Z; reflexivity.
Qed.

Lemma narrowAll_nth cs : forall k i c,
  nth_error cs i = Some c ->
  exists c', nth_error (snd (narrowAll k cs)) i = Some c' /\
             incl (cells c') (cells c) /\
             (0 <= mines c' <= Z.max 0 (mines c))%Z.
Proof.
  induction cs as [| c0 cs IH]; intros k i c H; [destruct i; discriminate |].
  destruct i as [| i]; simpl in *.
  - injection H as ->. eexists. split; [reflexivity |].
    rewrite processConstraint_snd. simpl. split; [apply remaining_incl |].
    pose proof (narrow_mines k (cells c) (mines c)). lia.
  - now apply IH.
Qed.

Lemma narrowAll_length cs : forall k, length (snd (narrowAll k cs)) = length cs.
Proof.
  induction cs as [| c cs IH]; intros k; simpl; [reflexivity |]. now rewrite IH.
Qed.

Lemma narrowAll_mines cs : forall k c,
  In c (snd (narrowAll k cs)) -> (0 <= mines c)%Z.
Proof.
  induction cs as [| c0 cs IH]; intros k c H; simpl in *; [contradiction |].
  destruct H as [<- | H]; [| eapply IH, H].
  rewrite processConstraint_snd. simpl. lia.
Qed.

(** X13. A pass never drops a constraint: the constraints present before
    the pass keep their positions, each with a subset of its cells and a
    mine count clamped between 0 and its former value; after the pass
    every constraint of the list has a non-negative mine count, and the
    constraints appended by the pass are not immediately decidable. *)
Theorem pass_narrows_in_place (st : PState) :
  length (constraints st) <= length (constraints (pass st)) /\
  (forall i c, nth_error (constraints st) i = Some c ->
     exists c', nth_error (constraints (pass st)) i = Some c' /\
                incl (cells c') (cells c) /\
                (0 <= mines c' <= Z.max 0 (mines c))%Z) /\
  (forall c, In c (constraints (pass st)) -> (0 <= mines c)%Z) /\
  (forall i c, length (constraints st) <= i ->
     nth_error (constraints (pass st)) i = Some c -> undecided c).
Proof.
  unfold pass.
  set (k0 := mkKnown (knownSafe (known st)) (knownMines (known st)) false).
  set (r1 := narrowAll k0 (constraints st)).
  pose proof (narrowAll_length (constraints st) k0) as L. fold r1 in L.
  pose proof (subsetAnalysis_undecided (snd r1) (fst r1)) as U.
  rewrite Forall_forall in U.
  assert (Dm : forall c, In c (snd (subsetAnalysis (snd r1) (fst r1))) ->
               (0 <= mines c)%Z).
  { apply (subsetAnalysis_invariant
             (fun l => forall c, In c l -> (0 <= mines c)%Z)).
    - intros c [].
    - intros i c1 s j H. unfold subsetPair.
      destruct (i =? j); [assumption |].
      destruct (nth_error (snd r1) j) as [c2 |]; [| assumption].
      destruct (length (cells c2) =? 0); [assumption |].
      destruct (_ && _); [| assumption].
      destruct ((0 <? _) && (0 <=? _)%Z) eqn:G; [| assumption].
      apply andb_true_iff in G. destruct G as [_ G]. apply Z.leb_le in G.
      destruct (_ =? 0)%Z; [assumption |].
      destruct (_ =? _)%Z; [assumption |].
      destruct (existsb _ (snd s)); [assumption |]. simpl.
      intros c Hc. apply in_app_iff in Hc.
      destruct Hc as [Hc | [<- | []]]; [now apply H | exact G]. }
  destruct (0 <? length (snd (subsetAnalysis (snd r1) (fst r1))));
    cbn [constraints known].
  - split; [rewrite length_app; lia |]. split; [| split].
    + intros i c H.
      destruct (narrowAll_nth (constraints st) k0 i c H) as [c' [E R]].
      exists c'. split; [| exact R].
      rewrite nth_error_app1; [exact E |]. apply nth_error_Some.
      unfold r1. rewrite E. discriminate.
    + intros c Hc. apply in_app_iff in Hc. destruct Hc as [Hc | Hc].
      * eapply narrowAll_mines, Hc.
      * now apply Dm.
    + intros i c Hi H. rewrite nth_error_app2 in H by lia.
      apply U. eapply nth_error_In, H.
  - split; [lia |]. split; [| split].
    + intros i c H. now apply narrowAll_nth.
    + intros c Hc. eapply narrowAll_mines, Hc.
    + intros i c Hi H.
      assert (i < length (snd r1)) by (apply nth_error_Some; congruence). lia.
Qed.

(** X14. Every extracted constraint has at least one cell and a
    non-negative mine count; on a board of the declared shape its cells
    are keys of hidden, unflagged cells, and the set of unrevealed cells
    holds each such key exactly once. *)
Theorem extract_contract (b : Board) :
  wfBoard b = true ->
  (forall c, In c (snd (extract b)) -> cells c <> [] /\ (0 <= mines c)%Z) /\
  (forall c key, In c (snd (extract b)) -> In key (cells c) -> unknownKey b key) /\
  NoDup (fst (extract b)) /\
  (forall key, In key (fst (extract b)) <-> unknownKey b key).
Proof.
  intros W. split; [| split; [| split]].
  - unfold extract.
    assert (G : forall ps acc,
               (forall c, In c (snd acc) -> cells c <> [] /\ (0 <= mines c)%Z) ->
               forall c, In c (snd (fold_left
                                      (fun a p => scanCell b a (fst p) (snd p)) ps acc)) ->
                         cells c <> [] /\ (0 <= mines c)%Z).
    { induction ps as [| p ps IH]; intros acc H; simpl; [assumption |].
      apply IH. intros c Hc. unfold scanCell in Hc.
      destruct (getCell b _ _) as [cell |]; [| now apply H].
      cbn [snd] in Hc.
      destruct (isRevealed cell && (0 <? adjacentMines cell)%Z); [| now apply H].
      destruct ((0 <? length _) && (0 <=? _)%Z) eqn:G; [| now apply H].
      apply in_app_iff in Hc. destruct Hc as [Hc | [<- | []]]; [now apply H |].
      apply andb_true_iff in G. destruct G as [G1 G2].
      apply Nat.ltb_lt in G1. apply Z.leb_le in G2. simpl. split; [| exact G2].
      intros F. apply (f_equal (@length string)) in F.
      rewrite length_map in F. simpl in F. lia. }
    apply G. intros c [].
  - intros c key Hc Hk. apply extract_unrevealed.
    now apply (extract_within b W c key).
  - apply extract_unrevealed_nodup.
  - apply extract_unrevealed.
Qed.

Lemma extract_contract_witness : NoDup (fst (extract boardSharedClue)).
Proof.
  destruct (extract_contract boardSharedClue eq_refl) as [_ [_ [H _]]].
  exact H.
Defined.

(** *** Definitive cells, both ways *)

Lemma definitiveOf_complete probabilities key v :
  In (key, v) probabilities ->
  ((v == 0)%Q -> In (parseKey key) (safe (definitiveOf probabilities))) /\
  ((v == 1)%Q -> In (parseKey key) (mineCells (definitiveOf probabilities))).
Proof.
  unfold definitiveOf.
  set (step := fun (d : Definitive) (e : string * Q) =>
                 if Qeq_bool (snd e) 0
                 then mkDefinitive (safe d ++ [parseKey (fst e)]) (mineCells d)
                 else if Qeq_bool (snd e) 1
                      then mkDefinitive (safe d) (mineCells d ++ [parseKey (fst e)])
                      else d).
  assert (StepMono : forall d0 e p,
             (In p (safe d0) -> In p (safe (step d0 e))) /\
             (In p (mineCells d0) -> In p (mineCells (step d0 e)))).
  { intros d0 e p. unfold step.
    destruct (Qeq_bool (snd e) 0); [| destruct (Qeq_bool (snd e) 1)]; simpl;
      split; intros H; try assumption; apply in_app_iff; auto. }
  assert (Mono : forall l d0 p,
             (In p (safe d0) -> In p (safe (fold_left step l d0))) /\
             (In p (mineCells d0) -> In p (mineCells (fold_left step l d0)))).
  { induction l as [| e l IH]; intros d0 p; cbn [fold_left]; [auto |].
    destruct (IH (step d0 e) p) as [I1 I2].
    destruct (StepMono d0 e p) as [S1 S2]. auto. }
  generalize (mkDefinitive [] []).
  induction probabilities as [| e l IH]; intros d0 Hin; [contradiction |].
  destruct Hin as [-> | Hin]; [| cbn [fold_left]; now apply IH].
  cbn [fold_left]. split; intros Hv.
  - apply Mono. unfold step. simpl.
    apply Qeq_bool_iff in Hv. rewrite Hv. simpl.
    apply in_app_iff. right. left. reflexivity.
  - apply Mono. unfold step. simpl.
    assert (H0 : Qeq_bool v 0 = false).
    { destruct (Qeq_bool v 0) eqn:E; [| reflexivity].
      apply Qeq_bool_iff in E. rewrite E in Hv. discriminate. }
    apply Qeq_bool_iff in Hv. rewrite H0, Hv. simpl.
    apply in_app_iff. right. left. reflexivity.
Qed.

(** X15. On a board of the declared shape [getDefinitiveCells] lists a
    cell as safe exactly when its probability is exactly 0 and as a mine
    exactly when it is exactly 1, and no cell is in both lists. *)
Theorem getDefinitiveCells_exact (b : Board) (minesRemaining : Z) :
  wfBoard b = true ->
  exists res d,
    calculateProbabilities b minesRemaining = Some res /\
    getDefinitiveCells b minesRemaining = Some d /\
    (forall r c v, JS.get res (cellKey r c) = Some v ->
       ((v == 0)%Q <-> In (Some r, Some c) (safe d)) /\
       ((v == 1)%Q <-> In (Some r, Some c) (mineCells d))) /\
    (forall p, In p (safe d) -> ~ In p (mineCells d)).
Proof.
  intros W.
  destruct (result_keys_unknown b minesRemaining W) as [res [E [ND K]]].
  exists res, (definitiveOf res). split; [exact E |].
  split; [unfold getDefinitiveCells; now rewrite E |].
  destruct (definitiveOf_spec res) as [S M].
  assert (Back : forall key v r c,
            In (key, v) res -> parseKey key = (Some r, Some c) ->
            JS.get res (cellKey r c) = Some v).
  { intros key v r c Hin Hp.
    assert (Hk : In key (JS.keys res)).
    { apply in_map_iff. exists (key, v). auto. }
    apply K in Hk. destruct Hk as [r' [c' [cell [_ [_ [_ [_ ->]]]]]]].
    rewrite parseKey_cellKey in Hp. injection Hp as <- <-.
    now apply in_entry_get. }
  split.
  - intros r c v G. pose proof (get_in _ _ _ G) as Hin.
    destruct (definitiveOf_complete res _ _ Hin) as [C0 C1].
    rewrite parseKey_cellKey in C0, C1. split; split; auto.
    + intros Hs. destruct (S _ Hs) as [key [v' [Hin' [Hv Hp]]]].
      rewrite (Back key v' r c Hin' (eq_sym Hp)) in G. injection G as <-. exact Hv.
    + intros Hs. destruct (M _ Hs) as [key [v' [Hin' [Hv Hp]]]].
      rewrite (Back key v' r c Hin' (eq_sym Hp)) in G. injection G as <-. exact Hv.
  - intros p Hs Hm.
    destruct (S _ Hs) as [key [v [Hin [Hv Hp]]]].
    destruct (M _ Hm) as [key' [v' [Hin' [Hv' Hp']]]].
    assert (Hk : In key (JS.keys res)).
    { apply in_map_iff. exists (key, v). auto. }
    apply K in Hk. destruct Hk as [r [c [cell [_ [_ [_ [_ ->]]]]]]].
    rewrite parseKey_cellKey in Hp. subst p.
    pose proof (Back key' v' r c Hin' (eq_sym Hp')) as G'.
    pose proof (in_entry_get _ _ _ ND Hin) as G.
    rewrite G in G'. injection G' as <-.
    rewrite Hv in Hv'. discriminate.
Qed.

Lemma getDefinitiveCells_exact_witness :
  exists d, getDefinitiveCells boardSharedClue 1 = Some d.
Proof.
  destruct (getDefinitiveCells_exact boardSharedClue 1 eq_refl)
    as [res [d [_ [E _]]]].
  exists d. exact E.
Defined.

(** *** Cells outside every constraint *)

Lemma frontierOf_in k active key :
  In key (frontierOf k active) -> exists c, In c active /\ In key (cells c).
Proof.
  unfold frontierOf.
  assert (G : forall cs s,
             In key (fold_left
                       (fun s c =>
                          fold_left (fun s' key0 =>
                                       if negb (JS.has (knownSafe k) key0)
                                          && negb (JS.has (knownMines k) key0)
                                       then JS.add s' key0 else s')
                                    (cells c) s) cs s) ->
             In key s \/ exists c, In c cs /\ In key (cells c)).
  { induction cs as [| c cs IH]; intros s H; simpl in *; [auto |].
    destruct (IH _ H) as [H1 | [c' [H1 H2]]]; [| eauto].
    assert (I : forall keys s0,
               In key (fold_left (fun s' key0 =>
                                    if negb (JS.has (knownSafe k) key0)
                                       && negb (JS.has (knownMines k) key0)
                                    then JS.add s' key0 else s') keys s0) ->
               In key s0 \/ In key keys).
    { induction keys as [| a keys IHk]; intros s0 H0; simpl in *; [auto |].
      destruct (IHk _ H0) as [H2 | H2]; [| auto].
      destruct (_ && _); [| auto]. apply in_add in H2. destruct H2 as [H2 | ->]; auto. }
    destruct (I _ _ H1) as [H2 | H2]; eauto. }
  intros H. destruct (G _ _ H) as [[] | H']. exact H'.
Qed.

Lemma cellsOf_in cs key :
  In key (cellsOf cs) <-> exists c, In c cs /\ In key (cells c).
Proof. unfold cellsOf. apply in_flat_map. Qed.

(** X16. All hidden, unflagged cells that no clue covers get one and the
    same probability. *)
Theorem uncovered_cells_uniform (b : Board) (minesRemaining : Z)
        (key1 key2 : string) :
  unknownKey b key1 -> unknownKey b key2 ->
  ~ In key1 (cellsOf (snd (extract b))) ->
  ~ In key2 (cellsOf (snd (extract b))) ->
  exists res p,
    calculateProbabilities b minesRemaining = Some res /\
    JS.get res key1 = Some p /\ JS.get res key2 = Some p.
Proof.
  intros U1 U2 N1 N2.
  apply extract_unrevealed in U1, U2.
  set (cs := snd (extract b)) in *. set (u := fst (extract b)) in *.
  destruct (probabilitiesFrom_shape u cs minesRemaining) as [groups [Eg E]].
  destruct (propagate_within (cellsOf cs) cs) as [Wc [Ws Wm]].
  { intros c key Hc Hk. apply cellsOf_in. eauto. }
  destruct (partition_spec (activeOf (constraints (propagate cs))))
    as [gs [Eg' [Perm _]]].
  assert (gs = groups) by congruence. subst gs.
  set (result := fold_left solveGroup groups (recordKnown (known (propagate cs)))) in *.
  assert (Missing : forall key, ~ In key (cellsOf cs) -> JS.get result key = None).
  { intros key Hn. destruct (JS.get result key) as [v |] eqn:G; [| reflexivity].
    exfalso. apply Hn.
    assert (Hk : In key (JS.keys result)) by (apply get_keys; eauto).
    apply fold_solveGroup_keys in Hk. destruct Hk as [Hk | [g [Hg Hk]]].
    - apply get_keys in Hk. destruct Hk as [v' Hk]. rewrite get_recordKnown in Hk.
      destruct (JS.has (knownMines _) key) eqn:E1; [apply Wm; now apply has_true |].
      destruct (JS.has (knownSafe _) key) eqn:E2; [apply Ws; now apply has_true |].
      discriminate.
    - apply groupCells_spec in Hk. destruct Hk as [c [Hc Hkc]].
      assert (Hin : In c (activeOf (constraints (propagate cs)))).
      { eapply Permutation_in; [exact Perm |]. apply in_concat. eauto. }
      apply activeOf_in in Hin. destruct Hin as [Hin _]. now apply (Wc c key). }
  assert (Outside : forall key, ~ In key (cellsOf cs) ->
            ~ In key (frontierOf (known (propagate cs))
                                 (activeOf (constraints (propagate cs))))).
  { intros key Hn F. apply Hn. apply frontierOf_in in F.
    destruct F as [c [Hc Hk]]. apply activeOf_in in Hc. destruct Hc as [Hc _].
    now apply (Wc c key). }
  destruct (fillRest_shape result (known (propagate cs)) u
              (frontierOf (known (propagate cs))
                          (activeOf (constraints (propagate cs))))
              minesRemaining) as [p [q [r1 [Ef Hr1]]]].
  assert (NF : forall key, In key u -> ~ In key (cellsOf cs) ->
            In key (filter
                      (fun key0 =>
                         negb (JS.has (frontierOf (known (propagate cs))
                                 (activeOf (constraints (propagate cs)))) key0)
                         && match JS.get result key0 with
                            | None => true
                            | Some _ => false
                            end) u)).
  { intros key Hu Hn. apply filter_In. split; [assumption |].
    rewrite (Missing key Hn). apply Outside, has_false in Hn. now rewrite Hn. }
  unfold calculateProbabilities. fold cs u. rewrite E, Ef.
  apply has_true in U1 as Hu1. apply has_true in U2 as Hu2.
  destruct Hr1 as [-> | ->].
  - exists (fold_left (setIfMissing (fun _ => clamp01 q)) u result), (clamp01 q).
    split; [reflexivity |].
    rewrite !get_fold_missing, (Missing key1 N1), (Missing key2 N2), Hu1, Hu2.
    split; reflexivity.
  - eexists. exists (clamp01 p). split; [reflexivity |].
    rewrite !get_fold_missing, !(get_fold_set (fun _ => clamp01 p)).
    pose proof (NF key1 U1 N1) as H1. pose proof (NF key2 U2 N2) as H2.
    apply has_true in H1, H2. rewrite H1, H2. split; reflexivity.
Qed.

Lemma uncovered_cells_uniform_witness :
  exists res p,
    calculateProbabilities (newBoard 1 2 1) 1 = Some res /\
    JS.get res "0,0"%string = Some p /\ JS.get res "0,1"%string = Some p.
Proof.
  apply (uncovered_cells_uniform (newBoard 1 2 1) 1).
  - exists 0, 0, (mkCell 0 0 false 0 false false). simpl. repeat split; lia.
  - exists 0, 1, (mkCell 0 1 false 0 false false). simpl. repeat split; lia.
  - simpl. tauto.
  - simpl. tauto.
Defined.

(** *** Convergence before the cap *)

Lemma quiet_refl k : quiet k k.
Proof. intros H. auto. Qed.

Lemma quiet_trans k1 k2 k3 : quiet k1 k2 -> quiet k2 k3 -> quiet k1 k3.
Proof.
  intros H12 H23 H. destruct (H23 H) as [E1 [E2 E3]].
  destruct (H12 E3) as [F1 [F2 F3]]. repeat split; congruence.
Qed.

Lemma quiet_step (step : Known -> string -> Known) :
  (forall k key, step k key = k \/ changed (step k key) = true) ->
  forall keys k, quiet k (fold_left step keys k).
Proof.
  intros Hs keys k.
  apply (loop_extends quiet step quiet_refl quiet_trans).
  intros s a H. destruct (Hs s a) as [E | E]; [rewrite E in *; auto | congruence].
Qed.

Lemma basicSafe_step k key :
  basicSafe k key = k \/ changed (basicSafe k key) = true.
Proof. unfold basicSafe. destruct (JS.has _ _); auto. Qed.

Lemma basicMine_step k key :
  basicMine k key = k \/ changed (basicMine k key) = true.
Proof. unfold basicMine. destruct (JS.has _ _); auto. Qed.

Lemma subsetSafe_step k key :
  subsetSafe k key = k \/ changed (subsetSafe k key) = true.
Proof. unfold subsetSafe. destruct (_ && _); auto. Qed.

Lemma subsetMine_step k key :
  subsetMine k key = k \/ changed (subsetMine k key) = true.
Proof. unfold subsetMine. destruct (_ && _); auto. Qed.

Lemma processConstraint_quiet k c : quiet k (fst (processConstraint k c)).
Proof.
  unfold processConstraint.
  destruct (length _ =? 0); simpl; [apply quiet_refl |].
  destruct (Z.max 0 _ =? 0)%Z; simpl; [apply quiet_step, basicSafe_step |].
  destruct (_ =? _)%Z; simpl; [apply quiet_step, basicMine_step | apply quiet_refl].
Qed.

Lemma narrowAll_quiet cs : forall k, quiet k (fst (narrowAll k cs)).
Proof.
  induction cs as [| c cs IH]; intros k; simpl; [apply quiet_refl |].
  eapply quiet_trans; [apply processConstraint_quiet | apply IH].
Qed.

Lemma subsetAnalysis_quiet cs k : quiet k (fst (subsetAnalysis cs k)).
Proof.
  unfold subsetAnalysis.
  assert (Tr : forall s1 s2 s3 : Known * list Constraint,
             quiet (fst s1) (fst s2) -> quiet (fst s2) (fst s3) ->
             quiet (fst s1) (fst s3))
    by (intros; eapply quiet_trans; eassumption).
  apply (loop_extends (fun s s' : Known * list Constraint => quiet (fst s) (fst s'))
           (subsetFor cs) (fun s => quiet_refl (fst s)) Tr).
  intros s i. unfold subsetFor.
  destruct (nth_error cs i) as [c1 |]; [| apply quiet_refl].
  destruct (length (cells c1) =? 0); [apply quiet_refl |].
  apply (loop_extends (fun s s' : Known * list Constraint => quiet (fst s) (fst s'))
           (subsetPair cs i c1) (fun s => quiet_refl (fst s)) Tr).
  intros s0 j. unfold subsetPair.
  destruct (i =? j); [apply quiet_refl |].
  destruct (nth_error cs j) as [c2 |]; [| apply quiet_refl].
  destruct (length (cells c2) =? 0); [apply quiet_refl |].
  destruct (_ && _); [| apply quiet_refl].
  destruct (_ && _); [| apply quiet_refl].
  destruct (_ =? 0)%Z; simpl; [apply quiet_step, subsetSafe_step |].
  destruct (_ =? _)%Z; simpl; [apply quiet_step, subsetMine_step |].
  destruct (existsb _ (snd s0)); apply quiet_refl.
Qed.

Lemma fold_keeps_changed (step : Known -> string -> Known) :
  (forall k0 key, changed k0 = true -> changed (step k0 key) = true) ->
  forall keys k, changed k = true -> changed (fold_left step keys k) = true.
Proof.
  intros Keep keys. induction keys as [| a keys IH]; intros k H; simpl; auto.
Qed.

Lemma fold_basic_changes (step : Known -> string -> Known) keys : forall k,
  (forall k0 key, changed k0 = true -> changed (step k0 key) = true) ->
  (forall key, In key keys -> changed (step k key) = true) ->
  keys <> [] -> changed (fold_left step keys k) = true.
Proof.
  intros k Keep Hs Hne. destruct keys as [| a keys]; [congruence |].
  simpl. apply fold_keeps_changed; [assumption |]. apply Hs. left. reflexivity.
Qed.

(** A narrowing that reports no change leaves only undecided constraints
    whose cells are in neither known set. *)
Lemma narrowAll_fixed cs : forall k c key,
  changed (fst (narrowAll k cs)) = false ->
  In c (snd (narrowAll k cs)) -> In key (cells c) ->
  ~ In key (knownSafe k) /\ ~ In key (knownMines k) /\ undecided c.
Proof.
  induction cs as [| c0 cs IH]; intros k c key Hch Hc Hk; simpl in *; [contradiction |].
  destruct (narrowAll_quiet cs (fst (processConstraint k c0)) Hch) as [E1 [E2 E3]].
  destruct (processConstraint_quiet k c0 E3) as [F1 [F2 F3]].
  destruct Hc as [<- | Hc].
  - rewrite processConstraint_snd in Hk. simpl in Hk.
    destruct (remaining_unresolved k c0 key Hk) as [U1 U2].
    split; [assumption |]. split; [assumption |].
    rewrite processConstraint_snd. unfold undecided. simpl.
    unfold processConstraint in E3.
    set (remainingCells := fst (narrow k (cells c0) (mines c0))) in *.
    set (minesLeft := Z.max 0 (snd (narrow k (cells c0) (mines c0)))) in *.
    destruct (Nat.eqb_spec (length remainingCells) 0) as [L0 | L0].
    { destruct remainingCells; [contradiction | discriminate]. }
    assert (Hne : remainingCells <> []).
    { intros F. rewrite F in L0. simpl in L0. congruence. }
    destruct (Z.eqb_spec minesLeft 0) as [Z0 | Z0]; simpl in E3.
    + exfalso. rewrite fold_basic_changes in E3; [discriminate | | | assumption].
      * intros k0 key0 H. unfold basicSafe. destruct (JS.has _ _); auto.
      * intros key0 H0. unfold basicSafe.
        destruct (remaining_unresolved k c0 key0 H0) as [V1 _].
        apply has_false in V1. now rewrite V1.
    + destruct (Z.eqb_spec minesLeft (Z.of_nat (length remainingCells))) as [Z1 | Z1];
        simpl in E3; [| auto].
      exfalso. rewrite fold_basic_changes in E3; [discriminate | | | assumption].
      * intros k0 key0 H. unfold basicMine. destruct (JS.has _ _); auto.
      * intros key0 H0. unfold basicMine.
        destruct (remaining_unresolved k c0 key0 H0) as [_ V2].
        apply has_false in V2. now rewrite V2.
  - destruct (IH _ c key Hch Hc Hk) as [U1 [U2 U3]].
    rewrite <- F1, <- F2. auto.
Qed.

Lemma pass_converged st :
  changed (known (pass st)) = false ->
  knownSafe (known (pass st)) = knownSafe (known st) /\
  knownMines (known (pass st)) = knownMines (known st) /\
  length (constraints (pass st)) = length (constraints st) /\
  forall c key, In c (constraints (pass st)) -> In key (cells c) ->
    ~ In key (knownSafe (known (pass st))) /\
    ~ In key (knownMines (known (pass st))) /\ undecided c.
Proof.
  unfold pass.
  set (k0 := mkKnown (knownSafe (known st)) (knownMines (known st)) false).
  set (r1 := narrowAll k0 (constraints st)).
  pose proof (narrowAll_length (constraints st) k0) as L. fold r1 in L.
  destruct (0 <? length (snd (subsetAnalysis (snd r1) (fst r1)))) eqn:D;
    cbn [constraints known changed]; [discriminate |].
  intros Hch.
  destruct (subsetAnalysis_quiet (snd r1) (fst r1) Hch) as [E1 [E2 E3]].
  destruct (narrowAll_quiet (constraints st) k0 E3) as [F1 [F2 _]].
  fold r1 in F1, F2. simpl in F1, F2.
  split; [congruence |]. split; [congruence |]. split; [assumption |].
  intros c key Hc Hk.
  destruct (narrowAll_fixed (constraints st) k0 c key E3 Hc Hk) as [U1 [U2 U3]].
  simpl in U1, U2. rewrite E1, E2, F1, F2. auto.
Qed.

(** X17. When the propagation stops because a pass changed nothing, the
    last pass left both known sets as they were, every remaining cell of a
    constraint is in neither known set, no remaining constraint is
    immediately decidable, and in the returned map every known mine has
    probability exactly 1 and every known safe cell exactly 0. *)
Theorem converged_known_cells_exact (b : Board) (minesRemaining : Z) :
  let st := propagate (snd (extract b)) in
  changed (known st) = false ->
  (forall c key, In c (constraints st) -> In key (cells c) ->
     ~ In key (knownSafe (known st)) /\ ~ In key (knownMines (known st)) /\
     undecided c) /\
  exists res,
    calculateProbabilities b minesRemaining = Some res /\
    (forall key, In key (knownMines (known st)) -> JS.get res key = Some 1%Q) /\
    (forall key, In key (knownSafe (known st)) -> JS.get res key = Some 0%Q).
Proof.
  intros st Hch. set (cs := snd (extract b)) in *.
  assert (Clean : forall c key, In c (constraints st) -> In key (cells c) ->
            ~ In key (knownSafe (known st)) /\ ~ In key (knownMines (known st)) /\
            undecided c).
  { destruct (propagate_afterPasses cs) as [n [Hn E]].
    destruct n as [| n]; [lia |]. unfold st in *. rewrite E in *.
    unfold afterPasses in *. cbn [Nat.iter nat_rect] in *.
    now apply pass_converged. }
  split; [exact Clean |].
  destruct (probabilitiesFrom_shape (fst (extract b)) cs minesRemaining)
    as [groups [Eg E]].
  destruct (partition_spec (activeOf (constraints (propagate cs))))
    as [gs [Eg' [Perm _]]].
  assert (gs = groups) by congruence. subst gs.
  eexists. split; [exact E |].
  assert (Out : forall key,
            In key (knownSafe (known st)) \/ In key (knownMines (known st)) ->
            forall g, In g groups -> ~ In key (groupCells g)).
  { intros key Hk g Hg F. apply groupCells_spec in F. destruct F as [c [Hc Hkc]].
    assert (Hin : In c (activeOf (constraints (propagate cs)))).
    { eapply Permutation_in; [exact Perm |]. apply in_concat. eauto. }
    apply activeOf_in in Hin. destruct Hin as [Hin _].
    destruct (Clean c key Hin Hkc) as [U1 [U2 _]]. tauto. }
  pose proof (propagate_disjoint cs) as Dis.
  split; intros key Hk; apply fillRest_keep;
    rewrite fold_solveGroup_out by (apply Out; auto);
    rewrite get_recordKnown.
  - apply has_true in Hk. fold st. now rewrite Hk.
  - assert (Hm : JS.has (knownMines (known st)) key = false).
    { apply has_false. intros F. exact (Dis key Hk F). }
    apply has_true in Hk. fold st. now rewrite Hm, Hk.
Qed.

Lemma converged_known_cells_exact_witness :
  exists res,
    calculateProbabilities boardSharedClue 1 = Some res /\
    JS.get res "2,1"%string = Some 0%Q.
Proof.
  destruct (converged_known_cells_exact boardSharedClue 1) as [_ [res [E [_ S]]]].
  - vm_compute. reflexivity.
  - exists res. split; [exact E |]. apply S. vm_compute. left. reflexivity.
Defined.
Lemma propagate_nil :
  propagate [] = mkPState [] (mkKnown [] [] false).
Proof. vm_compute. reflexivity. Qed.

Lemma filter_id {A} (f : A -> bool) l :
  (forall x, In x l -> f x = true) -> filter f l = l.
Proof.
  induction l as [| a l IH]; intros H; simpl; [reflexivity |].
  rewrite (H a (or_introl eq_refl)), IH; [reflexivity |].
  intros x Hx. apply H. now right.
Qed.

Lemma clamp01_compat p q : (p == q)%Q -> (clamp01 p == clamp01 q)%Q.
Proof. intros E. unfold clamp01. now rewrite E. Qed.

(** X18. When no revealed clue touches an unknown cell, every unknown cell
    gets the same probability: the remaining mines (never below zero)
    divided by the number of unknown cells, cut to the unit interval. *)
Theorem no_clue_uniform_density (b : Board) (minesRemaining : Z) :
  snd (extract b) = [] ->
  exists res,
    calculateProbabilities b minesRemaining = Some res /\
    forall key, In key (fst (extract b)) ->
      exists q, JS.get res key = Some q /\
        (q == clamp01 (inject_Z (Z.max 0 minesRemaining)
                       / ofNat (length (fst (extract b)))))%Q.
Proof.
  intros Hcs. unfold calculateProbabilities, probabilitiesFrom. cbv zeta.
  rewrite Hcs, propagate_nil. cbn [constraints known].
  change (activeOf []) with (@nil Constraint).
  change (partitionConstraints []) with (Some (@nil (list Constraint))).
  cbn [obind fold_left].
  set (u := fst (extract b)).
  eexists. split; [reflexivity |].
  intros key Hk.
  change (recordKnown (mkKnown [] [] false)) with (@nil (string * Q)).
  change (frontierOf (mkKnown [] [] false) []) with (@nil string).
  unfold fillRest. cbv zeta. cbn [knownMines length fold_left].
  rewrite (filter_id _ u) by reflexivity.
  assert (Pos : (0 <? length u) = true).
  { apply Nat.ltb_lt. destruct u; [contradiction | simpl; lia]. }
  rewrite Pos.
  eexists. split.
  - match goal with
    | |- JS.get (fold_left (fun res key0 =>
                              match JS.get res key0 with
                              | None => JS.set res key0 ?v
                              | Some _ => res
                              end) u ?r) key = ?rhs =>
        change (JS.get (fold_left (setIfMissing (fun _ => v)) u r) key = rhs)
    end.
    rewrite get_fold_missing.
    rewrite (get_fold_set (fun _ => clamp01 _)).
    apply has_true in Hk. rewrite Hk. reflexivity.
  - apply clamp01_compat.
    assert (Hm : (Qmax 0 (inject_Z (Z.max 0 (minesRemaining - Z.of_nat 0)) - 0)
                  == inject_Z (Z.max 0 minesRemaining))%Q).
    { replace (minesRemaining - Z.of_nat 0)%Z with minesRemaining by (simpl; lia).
      rewrite Q.max_r.
      - unfold Qminus. simpl (- 0)%Q. apply Qplus_0_r.
      - unfold Qminus. simpl (- 0)%Q. rewrite Qplus_0_r.
        change 0%Q with (inject_Z 0). rewrite <- Zle_Qle. lia. }
    now rewrite Hm.
Qed.

Lemma no_clue_uniform_density_witness :
  exists res,
    calculateProbabilities (newBoard 2 2 1) 1%Z = Some res /\
    exists q, JS.get res "0,0"%string = Some q /\ (q == 1 # 4)%Q.
Proof.
  destruct (no_clue_uniform_density (newBoard 2 2 1) 1%Z eq_refl) as [res [E H]].
  exists res. split; [exact E |].
  destruct (H "0,0"%string) as [q [G Q]]; [vm_compute; left; reflexivity |].
  exists q. split; [exact G |]. rewrite Q. vm_compute. reflexivity.
Defined.

(** *** The averaging branch *)

Lemma ofNat_S n : (ofNat (S n) == ofNat n + 1)%Q.
Proof.
  unfold ofNat. rewrite Nat2Z.inj_succ, <- Z.add_1_r, inject_Z_plus. reflexivity.
Qed.

Lemma getOr_set {V} (o : JS.Obj V) k v k' d :
  getOr (JS.set o k v) k' d = if String.eqb k' k then v else getOr o k' d.
Proof. unfold getOr. rewrite get_set. destruct (String.eqb k' k); reflexivity. Qed.

Lemma averageCells_totals (lp : Q) key ks : forall a : JS.Obj Q * JS.Obj nat,
  let a' := fold_left (fun a key =>
                         (JS.set (fst a) key (getOr (fst a) key 0 + lp)%Q,
                          JS.set (snd a) key (S (getOr (snd a) key 0))))
                      ks a in
  let n := count_occ string_dec ks key in
  JS.get (snd a') key
  = (if n =? 0 then JS.get (snd a) key else Some (getOr (snd a) key 0 + n)) /\
  (getOr (fst a') key 0 == getOr (fst a) key 0 + ofNat n * lp)%Q.
Proof.
  induction ks as [| k ks IH]; intros a; cbn zeta.
  - simpl. split; [reflexivity |]. unfold ofNat. simpl. ring.
  - cbn [fold_left count_occ].
    specialize (IH (JS.set (fst a) k (getOr (fst a) k 0 + lp)%Q,
                    JS.set (snd a) k (S (getOr (snd a) k 0)))).
    cbn zeta in IH. cbn [fst snd] in IH. destruct IH as [I1 I2].
    rewrite get_set, getOr_set in I1. rewrite getOr_set in I2.
    destruct (string_dec k key) as [-> | N].
    + rewrite String.eqb_refl in I1, I2. split.
      * rewrite I1.
        destruct (Nat.eqb_spec (count_occ string_dec ks key) 0) as [-> | _];
          cbn [Nat.eqb]; f_equal; lia.
      * rewrite I2, ofNat_S. ring.
    + assert (E : String.eqb key k = false)
        by (apply String.eqb_neq; congruence).
      rewrite E in I1, I2. split; [exact I1 | exact I2].
Qed.

Lemma averageStep_totals key group : forall acc : JS.Obj Q * JS.Obj nat,
  let sums := fold_left averageStep group acc in
  JS.get (snd sums) key
  = (if hits group key =? 0 then JS.get (snd acc) key
     else Some (getOr (snd acc) key 0 + hits group key)) /\
  (getOr (fst sums) key 0 == getOr (fst acc) key 0 + ratioSum group key)%Q.
Proof.
  induction group as [| c group IH]; intros acc; cbn zeta.
  - simpl. split; [reflexivity | ring].
  - cbn [fold_left hits ratioSum fold_right].
    destruct (IH (averageStep acc c)) as [I1 I2].
    destruct (averageCells_totals
                (inject_Z (mines c) / ofNat (length (cells c))) key (cells c) acc)
      as [J1 J2].
    fold (averageStep acc c) in J1, J2.
    fold (hits group key). fold (ratioSum group key).
    split.
    + rewrite I1. unfold getOr at 1. rewrite J1.
      destruct (Nat.eqb_spec (hits group key) 0) as [-> | H0];
        destruct (Nat.eqb_spec (count_occ string_dec (cells c) key) 0) as [-> | H1];
        cbn [Nat.add Nat.eqb]; try reflexivity.
      * rewrite Nat.add_0_r.
        destruct (Nat.eqb_spec (count_occ string_dec (cells c) key) 0); [lia |].
        reflexivity.
      * destruct (Nat.eqb_spec (hits group key) 0); [lia |].
        fold (getOr (snd acc) key 0). reflexivity.
      * destruct (Nat.eqb_spec
                    (count_occ string_dec (cells c) key + hits group key) 0); [lia |].
        f_equal. unfold getOr. lia.
    + rewrite I2, J2. ring.
Qed.

Lemma hits_pos group key :
  In key (groupCells group) -> 0 < hits group key.
Proof.
  intros H. apply groupCells_spec in H. destruct H as [c [Hc Hk]].
  induction group as [| c0 group IH]; [contradiction |].
  cbn [hits fold_right]. destruct Hc as [-> | Hc].
  - apply (count_occ_In string_dec) in Hk. lia.
  - specialize (IH Hc). unfold hits in IH. lia.
Qed.

(** X19. A component of more than 20 cells is not enumerated.  A cell of
    it that already has an entry keeps it; every other cell of it gets the
    mean of the ratios mines / cells of the constraints that contain it
    (each counted once per occurrence), cut to the unit interval.  The
    default 0.5 of that branch is never used: a cell of the component
    occurs in at least one constraint. *)
Theorem large_group_average (result : ProbabilityMap) (group : list Constraint)
        (key : string) :
  20 < length (groupCells group) -> In key (groupCells group) ->
  0 < hits group key /\
  (forall v, JS.get result key = Some v ->
     JS.get (solveGroup result group) key = Some v) /\
  (JS.get result key = None ->
   exists q, JS.get (solveGroup result group) key = Some q /\
     (q == clamp01 (ratioSum group key / ofNat (hits group key)))%Q).
Proof.
  intros Big Hk. pose proof (hits_pos group key Hk) as Pos.
  split; [exact Pos |].
  destruct (solveGroup_cases result group) as [[H _] | [[_ E] | [H _]]];
    [lia | | rewrite H in Big; simpl in Big; lia].
  rewrite E, solveAverage_fold, get_fold_missing.
  split; [intros v Hv; now rewrite Hv |].
  intros Hn. rewrite Hn. apply has_true in Hk. rewrite Hk.
  eexists. split; [reflexivity |].
  unfold averageOf. cbv zeta.
  destruct (averageStep_totals key group ([], [])) as [T1 T2].
  cbn zeta in T1, T2. rewrite T1.
  destruct (Nat.eqb_spec (hits group key) 0) as [F | _]; [lia |].
  unfold getOr at 1. cbn [snd JS.get]. cbn [Nat.add].
  destruct (Nat.ltb_spec 0 (hits group key)) as [_ | F]; [| lia].
  apply clamp01_compat. rewrite T2.
  unfold getOr at 1. cbn [fst JS.get]. rewrite Qplus_0_l. reflexivity.
Qed.

Lemma large_group_average_witness :
  exists q,
    JS.get (solveGroup []
              [mkConstraint (map (cellKey 0) (seq 0 21)) 7;
               mkConstraint [cellKey 0 0; cellKey 1 0] 1])
           (cellKey 0 0) = Some q /\
    (q == 5 # 12)%Q.
Proof.
  destruct (large_group_average []
              [mkConstraint (map (cellKey 0) (seq 0 21)) 7;
               mkConstraint [cellKey 0 0; cellKey 1 0] 1]
              (cellKey 0 0)) as [_ [_ H]].
  - vm_compute. lia.
  - vm_compute. left. reflexivity.
  - destruct (H eq_refl) as [q [G Q]]. exists q. split; [exact G |].
    rewrite Q. vm_compute. reflexivity.
Defined.

(** *** Soundness of the propagation *)

Section Sound.
Variable M : string -> bool.

Lemma minesIn_cons key keys :
  minesIn M (key :: keys) = ((if M key then 1 else 0) + minesIn M keys)%Z.
Proof. unfold minesIn. simpl. destruct (M key); simpl length; lia. Qed.

Lemma minesIn_bounds keys : (0 <= minesIn M keys <= Z.of_nat (length keys))%Z.
Proof.
  unfold minesIn. pose proof (filter_length_le M keys). lia.
Qed.

Lemma minesIn_none keys :
  minesIn M keys = 0%Z -> forall key, In key keys -> M key = false.
Proof.
  induction keys as [| a keys IH]; intros H key Hk; [contradiction |].
  rewrite minesIn_cons in H. pose proof (minesIn_bounds keys).
  destruct (M a) eqn:E; [lia |].
  destruct Hk as [<- | Hk]; [assumption | apply IH; [lia | assumption]].
Qed.

Lemma minesIn_all keys :
  minesIn M keys = Z.of_nat (length keys) ->
  forall key, In key keys -> M key = true.
Proof.
  induction keys as [| a keys IH]; intros H key Hk; [contradiction |].
  rewrite minesIn_cons in H. pose proof (minesIn_bounds keys).
  cbn [length] in H. destruct (M a) eqn:E; [| lia].
  destruct Hk as [<- | Hk]; [assumption | apply IH; [lia | assumption]].
Qed.

Lemma minesIn_perm l1 l2 : Permutation l1 l2 -> minesIn M l1 = minesIn M l2.
Proof.
  intros P. induction P; rewrite ?minesIn_cons; try reflexivity; lia.
Qed.

Lemma minesIn_split (f : string -> bool) keys :
  minesIn M keys
  = (minesIn M (filter f keys) + minesIn M (filter (fun x => negb (f x)) keys))%Z.
Proof.
  induction keys as [| a keys IH]; [reflexivity |].
  simpl filter. destruct (f a); simpl negb; cbv iota;
    rewrite !minesIn_cons, IH; lia.
Qed.

(** The cells of a duplicate-free constraint contained in another carry
    the mines of the larger one that its difference does not. *)
Lemma minesIn_difference c1 c2 :
  NoDup c1 -> NoDup c2 -> incl c1 c2 ->
  minesIn M c2
  = (minesIn M c1
     + minesIn M (filter (fun cell => negb (JS.has c1 cell)) c2))%Z.
Proof.
  intros N1 N2 I. rewrite (minesIn_split (JS.has c1) c2). f_equal.
  apply minesIn_perm. apply NoDup_Permutation; [now apply NoDup_filter | assumption |].
  intros x. rewrite filter_In. split.
  - intros [_ H]. now apply has_true.
  - intros H. split; [now apply I | now apply has_true].
Qed.

Lemma narrow_sound k keys : forall m,
  agrees M k ->
  (snd (narrow k keys m) - minesIn M (fst (narrow k keys m))
   = m - minesIn M keys)%Z.
Proof.
  intros m [Am As]. revert m.
  induction keys as [| key rest IH]; intros m; cbn [narrow].
  - reflexivity.
  - rewrite minesIn_cons.
    destruct (JS.has (knownSafe k) key) eqn:E1.
    + apply has_true in E1. rewrite (As key E1). specialize (IH m). lia.
    + destruct (JS.has (knownMines k) key) eqn:E2.
      * apply has_true in E2. rewrite (Am key E2).
        specialize (IH (m - 1)%Z). lia.
      * cbn [fst snd]. rewrite minesIn_cons. specialize (IH m). lia.
Qed.

Lemma addSafe_agrees k key : agrees M k -> M key = false -> agrees M (addSafe k key).
Proof.
  intros [Am As] H. split; simpl; [exact Am |].
  intros x Hx. apply in_app_iff in Hx. destruct Hx as [Hx | [<- | []]]; auto.
Qed.

Lemma addMine_agrees k key : agrees M k -> M key = true -> agrees M (addMine k key).
Proof.
  intros [Am As] H. split; simpl; [| exact As].
  intros x Hx. apply in_app_iff in Hx. destruct Hx as [Hx | [<- | []]]; auto.
Qed.

Lemma fold_agrees (step : Known -> string -> Known) (v : bool) :
  (forall k key, agrees M k -> M key = v -> agrees M (step k key)) ->
  forall keys k, agrees M k -> (forall key, In key keys -> M key = v) ->
                 agrees M (fold_left step keys k).
Proof.
  intros Hs keys. induction keys as [| a keys IH]; intros k A H; simpl; [assumption |].
  apply IH; [apply Hs; [assumption | apply H; now left] |].
  intros key Hk. apply H. now right.
Qed.

Lemma basicSafe_agrees k key :
  agrees M k -> M key = false -> agrees M (basicSafe k key).
Proof.
  intros A H. unfold basicSafe. destruct (JS.has _ _); [assumption |].
  now apply addSafe_agrees.
Qed.

Lemma basicMine_agrees k key :
  agrees M k -> M key = true -> agrees M (basicMine k key).
Proof.
  intros A H. unfold basicMine. destruct (JS.has _ _); [assumption |].
  now apply addMine_agrees.
Qed.

Lemma subsetSafe_agrees k key :
  agrees M k -> M key = false -> agrees M (subsetSafe k key).
Proof.
  intros A H. unfold subsetSafe. destruct (_ && _); [| assumption].
  now apply addSafe_agrees.
Qed.

Lemma subsetMine_agrees k key :
  agrees M k -> M key = true -> agrees M (subsetMine k key).
Proof.
  intros A H. unfold subsetMine. destruct (_ && _); [| assumption].
  now apply addMine_agrees.
Qed.

Lemma processConstraint_sound k c :
  agrees M k -> NoDup (cells c) -> holds M c ->
  agrees M (fst (processConstraint k c)) /\
  NoDup (cells (snd (processConstraint k c))) /\
  holds M (snd (processConstraint k c)).
Proof.
  intros A N H.
  pose proof (narrow_sound k (cells c) (mines c) A) as S.
  unfold holds in H. rewrite H in S.
  pose proof (minesIn_bounds (fst (narrow k (cells c) (mines c)))) as B.
  assert (E : Z.max 0 (snd (narrow k (cells c) (mines c)))
              = minesIn M (fst (narrow k (cells c) (mines c)))) by lia.
  assert (N' : NoDup (fst (narrow k (cells c) (mines c))))
    by (rewrite narrow_fst; now apply NoDup_filter).
  unfold processConstraint. cbv zeta. rewrite E.
  set (remainingCells := fst (narrow k (cells c) (mines c))) in *.
  assert (G : NoDup (cells (mkConstraint remainingCells (minesIn M remainingCells)))
              /\ holds M (mkConstraint remainingCells (minesIn M remainingCells)))
    by (split; [exact N' | reflexivity]).
  destruct (length remainingCells =? 0); cbn [fst snd]; [tauto |].
  destruct (Z.eqb_spec (minesIn M remainingCells) 0) as [Z0 | _]; cbn [fst snd].
  { split; [| exact G].
    apply (fold_agrees basicSafe false basicSafe_agrees); [assumption |].
    now apply minesIn_none. }
  destruct (Z.eqb_spec (minesIn M remainingCells) (Z.of_nat (length remainingCells)))
    as [Z1 | _]; cbn [fst snd]; [| tauto].
  split; [| exact G].
  apply (fold_agrees basicMine true basicMine_agrees); [assumption |].
  now apply minesIn_all.
Qed.

Lemma narrowAll_sound cs : forall k,
  agrees M k -> soundFor M cs ->
  agrees M (fst (narrowAll k cs)) /\ soundFor M (snd (narrowAll k cs)).
Proof.
  induction cs as [| c cs IH]; intros k A H; cbn [narrowAll].
  - split; [assumption | intros ? []].
  - cbv zeta. cbn [fst snd].
    destruct (H c (or_introl eq_refl)) as [N Hc].
    destruct (processConstraint_sound k c A N Hc) as [A1 [N1 H1]].
    destruct (IH (fst (processConstraint k c)) A1) as [A2 H2].
    { intros c' Hc'. apply H. now right. }
    split; [exact A2 |].
    intros c' [<- | Hc']; [split; assumption | now apply H2].
Qed.

Lemma fold_soundState {A} (f : Known * list Constraint -> A -> Known * list Constraint) :
  (forall st a, soundState M st -> soundState M (f st a)) ->
  forall l st, soundState M st -> soundState M (fold_left f l st).
Proof.
  intros Hf l. induction l as [| a l IH]; intros st H; simpl; auto.
Qed.

Lemma subsetPair_sound cs i c1 :
  soundFor M cs -> In c1 cs ->
  forall st j, soundState M st -> soundState M (subsetPair cs i c1 st j).
Proof.
  intros Hcs H1 st j [A D]. unfold subsetPair.
  destruct (i =? j); [split; assumption |].
  destruct (nth_error cs j) as [c2 |] eqn:E2; [| split; assumption].
  apply nth_error_In in E2.
  destruct (length (cells c2) =? 0); [split; assumption |].
  destruct (forallb (JS.has (cells c2)) (cells c1)) eqn:Sub; cbn [andb];
    [| split; assumption].
  destruct (length (cells c1) <? length (cells c2)); [| split; assumption].
  cbv zeta.
  destruct (Hcs c1 H1) as [N1 Hc1]. destruct (Hcs c2 E2) as [N2 Hc2].
  assert (I : incl (cells c1) (cells c2)).
  { intros x Hx. rewrite forallb_forall in Sub. apply has_true. now apply Sub. }
  pose proof (minesIn_difference (cells c1) (cells c2) N1 N2 I) as Hd.
  unfold holds in Hc1, Hc2. rewrite Hc1, Hc2 in Hd.
  set (difference := filter (fun cell => negb (JS.has (cells c1) cell)) (cells c2)) in *.
  assert (Ed : (mines c2 - mines c1)%Z = minesIn M difference) by lia.
  rewrite Ed.
  destruct ((0 <? length difference) && (0 <=? minesIn M difference)%Z);
    [| split; assumption].
  destruct (Z.eqb_spec (minesIn M difference) 0) as [Z0 | _].
  { split; cbn [fst snd]; [| assumption].
    apply (fold_agrees subsetSafe false subsetSafe_agrees); [assumption |].
    now apply minesIn_none. }
  destruct (Z.eqb_spec (minesIn M difference) (Z.of_nat (length difference)))
    as [Z1 | _].
  { split; cbn [fst snd]; [| assumption].
    apply (fold_agrees subsetMine true subsetMine_agrees); [assumption |].
    now apply minesIn_all. }
  destruct (existsb _ (snd st)); [split; assumption |].
  split; cbn [fst snd]; [assumption |].
  intros c Hc. apply in_app_iff in Hc. destruct Hc as [Hc | [<- | []]]; [now apply D |].
  split; [apply NoDup_filter; assumption | reflexivity].
Qed.

Lemma subsetAnalysis_sound cs k :
  agrees M k -> soundFor M cs -> soundState M (subsetAnalysis cs k).
Proof.
  intros A Hcs. unfold subsetAnalysis.
  apply fold_soundState; [| split; [assumption | intros ? []]].
  intros st i Hst. unfold subsetFor.
  destruct (nth_error cs i) as [c1 |] eqn:E1; [| assumption].
  apply nth_error_In in E1.
  destruct (length (cells c1) =? 0); [assumption |].
  apply fold_soundState; [| assumption].
  intros st' j. now apply subsetPair_sound.
Qed.

Lemma pass_sound st :
  agrees M (known st) -> soundFor M (constraints st) ->
  agrees M (known (pass st)) /\ soundFor M (constraints (pass st)).
Proof.
  intros A H. unfold pass. cbv zeta.
  set (k0 := mkKnown (knownSafe (known st)) (knownMines (known st)) false).
  assert (A0 : agrees M k0) by exact A.
  destruct (narrowAll_sound (constraints st) k0 A0 H) as [A1 H1].
  destruct (subsetAnalysis_sound (snd (narrowAll k0 (constraints st)))
              (fst (narrowAll k0 (constraints st))) A1 H1) as [A2 H2].
  destruct (0 <? length _); cbn [known constraints].
  - split; [exact A2 |]. intros c Hc. apply in_app_iff in Hc.
    destruct Hc as [Hc | Hc]; [now apply H1 | now apply H2].
  - split; assumption.
Qed.

Lemma propagateLoop_sound fuel : forall st,
  agrees M (known st) -> soundFor M (constraints st) ->
  agrees M (known (propagateLoop fuel st)) /\
  soundFor M (constraints (propagateLoop fuel st)).
Proof.
  induction fuel as [| fuel IH]; intros st A H; cbn [propagateLoop]; [tauto |].
  destruct (changed (known st)); [| tauto].
  destruct (pass_sound st A H) as [A1 H1]. now apply IH.
Qed.

End Sound.

(** X20. The propagation is sound for every mine layout that fits the
    constraints it starts from: if no constraint lists a cell twice and
    the layout puts on each constraint's cells exactly the constraint's
    number of mines, then every cell the propagation marks as a known mine
    holds a mine in the layout, every cell it marks as known safe holds
    none, and every constraint of its final list, the derived ones
    included, is still true of the layout. *)
Theorem propagate_sound (M : string -> bool) (cs : list Constraint) :
  (forall c, In c cs -> NoDup (cells c)) ->
  (forall c, In c cs -> holds M c) ->
  (forall key, In key (knownMines (known (propagate cs))) -> M key = true) /\
  (forall key, In key (knownSafe (known (propagate cs))) -> M key = false) /\
  (forall c, In c (constraints (propagate cs)) -> holds M c).
Proof.
  intros N H. unfold propagate.
  destruct (propagateLoop_sound M maxIterations (mkPState cs (mkKnown [] [] true)))
    as [[Am As] Hc].
  - split; intros key [].
  - intros c Hin. split; [now apply N | now apply H].
  - split; [exact Am |]. split; [exact As |]. intros c Hin. now apply Hc.
Qed.

Lemma propagate_sound_witness :
  In "0,0"%string
     (knownMines (known (propagate [mkConstraint ["0,0"; "0,1"]%string 1;
                                    mkConstraint ["0,1"; "0,2"]%string 0]))) /\
  String.eqb "0,0" "0,0" = true.
Proof.
  assert (H : In "0,0"%string
                 (knownMines
                    (known (propagate [mkConstraint ["0,0"; "0,1"]%string 1;
                                       mkConstraint ["0,1"; "0,2"]%string 0]))))
    by (vm_compute; left; reflexivity).
  split; [exact H |].
  refine (proj1 (propagate_sound (fun key => String.eqb key "0,0")
                   [mkConstraint ["0,0"; "0,1"]%string 1;
                    mkConstraint ["0,1"; "0,2"]%string 0] _ _) _ H).
  - intros c [<- | [<- | []]]; repeat constructor; simpl; intuition discriminate.
  - intros c [<- | [<- | []]]; reflexivity.
Defined.

(** *** Deductions on a board that shows the truth *)

Lemma neighbor_cellAt b r c n :
  wfBoard b = true -> In n (getNeighbors b r c) ->
  cellAt b (row n) (col n) = Some n.
Proof.
  intros W H. unfold getNeighbors in H. apply in_flat_map in H.
  destruct H as [d [_ H]]. cbv zeta in H.
  destruct (isValidCell b _ _); [| contradiction].
  destruct (cellAt b _ _) as [n' |] eqn:E; [| contradiction].
  destruct H as [<- | []].
  destruct (wfBoard_cellAt b _ _ n' W E) as [_ [_ [Er Ec]]].
  now rewrite Er, Ec.
Qed.

Lemma NoDup_map_flat_map {A B C} (g : B -> C) (f : A -> list B) l :
  NoDup l ->
  (forall x y a b0, In x l -> In y l -> In a (f x) -> In b0 (f y) ->
                    g a = g b0 -> x = y) ->
  (forall x, In x l -> NoDup (map g (f x))) ->
  NoDup (map g (flat_map f l)).
Proof.
  induction l as [| x l IH]; intros N Sep Each; simpl; [constructor |].
  inversion N as [| ? ? Hx N']. subst.
  rewrite map_app. apply NoDup_app.
  - apply Each. now left.
  - apply IH; [assumption | |].
    + intros x0 y a b0 H1 H2. apply Sep; now right.
    + intros x0 H0. apply Each. now right.
  - intros k Hk1 Hk2. apply in_map_iff in Hk1, Hk2.
    destruct Hk1 as [a [Ea Ha]]. destruct Hk2 as [b0 [Eb Hb]].
    apply in_flat_map in Hb. destruct Hb as [y [Hy Hb]].
    assert (x = y).
    { apply (Sep x y a b0); [now left | now right | assumption | assumption |].
      congruence. }
    subst y. contradiction.
Qed.

Lemma NoDup_map_filter {A B} (g : A -> B) (p : A -> bool) l :
  NoDup (map g l) -> NoDup (map g (filter p l)).
Proof.
  induction l as [| a l IH]; intros N; simpl; [constructor |].
  inversion N as [| ? ? Ha N']. subst.
  destruct (p a); simpl; [| now apply IH].
  constructor; [| now apply IH].
  intros F. apply Ha. apply in_map_iff in F. destruct F as [x [E Hx]].
  apply filter_In in Hx. apply in_map_iff. exists x. tauto.
Qed.

Lemma getNeighbors_keys_nodup b r c :
  wfBoard b = true -> NoDup (map keyOf (getNeighbors b r c)).
Proof.
  intros W. unfold getNeighbors. apply NoDup_map_flat_map.
  - unfold directions. repeat constructor; simpl; intuition discriminate.
  - intros [dr dc] [dr' dc'] a b0 Hd Hd' Ha Hb E. cbn [fst snd] in Ha, Hb.
    destruct (isValidCell b (Z.of_nat r + dr) (Z.of_nat c + dc)) eqn:V;
      [| contradiction].
    destruct (isValidCell b (Z.of_nat r + dr') (Z.of_nat c + dc')) eqn:V';
      [| contradiction].
    destruct (cellAt b (Z.to_nat (Z.of_nat r + dr)) _) as [n |] eqn:E1;
      [| contradiction].
    destruct (cellAt b (Z.to_nat (Z.of_nat r + dr')) _) as [n' |] eqn:E2;
      [| contradiction].
    destruct Ha as [<- | []]. destruct Hb as [<- | []].
    destruct (wfBoard_cellAt b _ _ n W E1) as [_ [_ [Er Ec]]].
    destruct (wfBoard_cellAt b _ _ n' W E2) as [_ [_ [Er' Ec']]].
    unfold keyOf in E. apply cellKey_inj in E. destruct E as [F1 F2].
    unfold isValidCell in V, V'.
    repeat (apply andb_true_iff in V; destruct V as [V ?]).
    repeat (apply andb_true_iff in V'; destruct V' as [V' ?]).
    apply Z.leb_le in V, V', H0, H3.
    f_equal; lia.
  - intros d _. cbv zeta. destruct (isValidCell b _ _); [| constructor].
    destruct (cellAt b _ _); simpl; repeat constructor; auto.
Qed.

Lemma minesIn_map {A} (M : string -> bool) (g : A -> string) l :
  minesIn M (map g l) = Z.of_nat (length (filter (fun x => M (g x)) l)).
Proof.
  unfold minesIn. f_equal.
  induction l as [| a l IH]; simpl; [reflexivity |].
  destruct (M (g a)); simpl; now rewrite IH.
Qed.

Lemma layoutOf_keyOf b n :
  cellAt b (row n) (col n) = Some n -> layoutOf b (keyOf n) = isMine n.
Proof.
  intros E. unfold layoutOf, keyOf. rewrite parseKey_cellKey.
  unfold cellHas. cbn [fst snd]. now rewrite E.
Qed.

Lemma mines_by_kind (l : list Cell) :
  (forall n, In n l ->
     (isFlagged n = true -> isMine n = true) /\
     (isRevealed n = true -> isFlagged n = false -> isMine n = false)) ->
  length (filter isMine l)
  = length (filter isMine (filter isUnknown l)) + length (filter isFlagged l).
Proof.
  induction l as [| n l IH]; intros H; [reflexivity |].
  specialize (IH (fun x Hx => H x (or_intror Hx))).
  destruct (H n (or_introl eq_refl)) as [H1 H2].
  cbn [filter]. unfold isUnknown at 1.
  destruct (isRevealed n), (isFlagged n), (isMine n) eqn:Em; cbn [negb andb filter length];
    rewrite ?Em; cbn [length];
    try (specialize (H1 eq_refl); discriminate);
    try (specialize (H2 eq_refl eq_refl); discriminate); lia.
Qed.

Lemma extract_constraints_from b c :
  In c (snd (extract b)) ->
  exists r c0 cell,
    getCell b (Z.of_nat r) (Z.of_nat c0) = Some cell /\
    isRevealed cell = true /\ (0 < adjacentMines cell)%Z /\
    c = mkConstraint
          (map keyOf (filter isUnknown (getNeighbors b r c0)))
          (adjacentMines cell
           - Z.of_nat (length (filter isFlagged (getNeighbors b r c0)))).
Proof.
  unfold extract.
  assert (G : forall ps acc,
             In c (snd (fold_left (fun a p => scanCell b a (fst p) (snd p)) ps acc)) ->
             In c (snd acc) \/
             exists r c0 cell,
               getCell b (Z.of_nat r) (Z.of_nat c0) = Some cell /\
               isRevealed cell = true /\ (0 < adjacentMines cell)%Z /\
               c = mkConstraint
                     (map keyOf (filter isUnknown (getNeighbors b r c0)))
                     (adjacentMines cell
                      - Z.of_nat (length (filter isFlagged (getNeighbors b r c0))))).
  { induction ps as [| p ps IH]; intros acc H; simpl in H; [now left |].
    destruct (IH _ H) as [Hc | Hc]; [| now right].
    unfold scanCell in Hc.
    destruct (getCell b _ _) as [cell |] eqn:E; [| now left].
    cbn [snd] in Hc.
    destruct (isRevealed cell && (0 <? adjacentMines cell)%Z) eqn:R; [| now left].
    destruct ((0 <? length _) && (0 <=? _)%Z); [| now left].
    apply in_app_iff in Hc. destruct Hc as [Hc | [<- | []]]; [now left |].
    right. apply andb_true_iff in R. destruct R as [R1 R2]. apply Z.ltb_lt in R2.
    exists (fst p), (snd p), cell. repeat split; assumption. }
  intros H. destruct (G _ _ H) as [[] | H']. exact H'.
Qed.

Lemma extract_sound b :
  wfBoard b = true -> truthful b -> soundFor (layoutOf b) (snd (extract b)).
Proof.
  intros W T c Hc. apply extract_constraints_from in Hc.
  destruct Hc as [r [c0 [cell [E [R [P ->]]]]]]. cbn [cells].
  split.
  - apply NoDup_map_filter, getNeighbors_keys_nodup, W.
  - unfold holds. cbn [cells mines]. rewrite minesIn_map.
    unfold getCell in E. destruct (isValidCell b _ _); [| discriminate].
    rewrite !Nat2Z.id in E.
    destruct (T r c0 cell E) as [_ [_ Hn]]. rewrite (Hn R P).
    unfold getAdjacentMineCount.
    rewrite (mines_by_kind (getNeighbors b r c0)).
    + rewrite (filter_ext_in (fun x => layoutOf b (keyOf x)) isMine).
      * lia.
      * intros n Hn'. apply filter_In in Hn'. destruct Hn' as [Hn' _].
        apply layoutOf_keyOf. now apply neighbor_cellAt with (r := r) (c := c0).
    + intros n Hn'.
      pose proof (neighbor_cellAt b r c0 n W Hn') as En.
      destruct (T _ _ n En) as [T1 [T2 _]]. split; assumption.
Qed.

(** X21. On a board that shows the truth the deductions are right.  If
    the board has the declared shape, every flag stands on a mine, no
    revealed unflagged cell holds a mine and every revealed positive number
    counts the mines around its cell, then the board's own mine layout
    satisfies every extracted constraint, so every cell the propagation
    marks as a known mine holds a mine and every cell it marks as known
    safe holds none. *)
Theorem truthful_board_deductions (b : Board) :
  wfBoard b = true -> truthful b ->
  (forall c, In c (snd (extract b)) -> NoDup (cells c) /\ holds (layoutOf b) c) /\
  (forall key, In key (knownMines (known (propagate (snd (extract b))))) ->
               layoutOf b key = true) /\
  (forall key, In key (knownSafe (known (propagate (snd (extract b))))) ->
               layoutOf b key = false).
Proof.
  intros W T.
  pose proof (extract_sound b W T) as S.
  split; [exact S |].
  destruct (propagateLoop_sound (layoutOf b) maxIterations
              (mkPState (snd (extract b)) (mkKnown [] [] true)))
    as [[Am As] _].
  - split; intros key [].
  - exact S.
  - split; [exact Am | exact As].
Qed.

Lemma truthful_board_deductions_witness :
  In "0,1"%string (knownMines (known (propagate (snd (extract boardOneMine))))) /\
  layoutOf boardOneMine "0,1"%string = true.
Proof.
  assert (H : In "0,1"%string
                 (knownMines (known (propagate (snd (extract boardOneMine))))))
    by (vm_compute; left; reflexivity).
  split; [exact H |].
  refine (proj1 (proj2 (truthful_board_deductions boardOneMine eq_refl _)) _ H).
  intros r c cell E.
  destruct r as [| r]; [| destruct r; discriminate].
  destruct c as [| [| c]]; [| | destruct c; discriminate];
    injection E as <-; vm_compute; repeat split; congruence.
Defined.

Lemma layout_satisfies (M : string -> bool) (g : list Constraint) :
  (forall c, In c g -> holds M c) ->
  satisfies (filter M (groupCells g)) g.
Proof.
  intros H c Hc. rewrite <- (H c Hc). unfold minesIn. do 2 f_equal.
  apply filter_ext_in. intros key Hk.
  assert (Hg : In key (groupCells g)) by (apply groupCells_spec; eauto).
  destruct (M key) eqn:E.
  - apply has_true, filter_In. auto.
  - apply has_false. intros F. apply filter_In in F. destruct F as [_ F]. congruence.
Qed.

(** X22. On a board that shows the truth every component that is
    enumerated has a solution, the board's own layout restricted to the
    component's cells: the solver returns at least one assignment, so no
    cell of a component of at most 20 cells gets the fallback 0.5, and its
    probability is the share of the returned assignments with a mine on
    it. *)
Theorem truthful_component_satisfiable (b : Board) (minesRemaining : Z)
        (groups : list (list Constraint)) (g : list Constraint) (key : string) :
  wfBoard b = true -> truthful b ->
  componentsOf (snd (extract b)) = Some groups -> In g groups ->
  In key (groupCells g) -> length (groupCells g) <= 20 ->
  In (filter (layoutOf b) (groupCells g)) (satisfying (groupCells g) g) /\
  0 < length (solveConstraints (groupCells g) g) /\
  exists res,
    calculateProbabilities b minesRemaining = Some res /\
    JS.get res key =
    Some (ofNat (minesOn key (solveConstraints (groupCells g) g))
          / ofNat (length (solveConstraints (groupCells g) g)))%Q.
Proof.
  intros W T E Hg Hk Hn.
  pose proof (extract_sound b W T) as S0.
  destruct (propagateLoop_sound (layoutOf b) maxIterations
              (mkPState (snd (extract b)) (mkKnown [] [] true)))
    as [_ Hc]; [split; intros k [] | exact S0 |].
  fold (propagate (snd (extract b))) in Hc.
  destruct (partition_spec (activeOf (constraints (propagate (snd (extract b))))))
    as [gs [Eg [Perm _]]].
  unfold componentsOf in E. assert (gs = groups) by congruence. subst gs.
  assert (Sat : satisfies (filter (layoutOf b) (groupCells g)) g).
  { apply layout_satisfies. intros c Hin.
    assert (Ha : In c (activeOf (constraints (propagate (snd (extract b)))))).
    { eapply Permutation_in; [exact Perm |]. apply in_concat. eauto. }
    apply activeOf_in in Ha. destruct Ha as [Ha _]. now apply Hc. }
  assert (Mem : In (filter (layoutOf b) (groupCells g)) (satisfying (groupCells g) g)).
  { apply satisfying_spec. split; [apply subsets_complete | exact Sat]. }
  assert (Pos : 0 < length (solveConstraints (groupCells g) g)).
  { destruct (solveConstraints (groupCells g) g) eqn:Es; [| simpl; lia].
    apply (solutions_nil (groupCells g) g Hn) in Es. rewrite Es in Mem.
    contradiction. }
  split; [exact Mem |]. split; [exact Pos |].
  destruct (exact_group_value (snd (extract b)) (fst (extract b)) minesRemaining
              groups g key E Hg Hk Hn) as [res [Er Ev]].
  exists res. split; [exact Er |]. rewrite Ev. cbv zeta.
  apply Nat.ltb_lt in Pos. now rewrite Pos.
Qed.

Lemma truthful_component_satisfiable_witness :
  exists res,
    calculateProbabilities boardTwoHidden 1 = Some res /\
    JS.get res "0,0"%string =
    Some (ofNat (minesOn "0,0"%string
                   (solveConstraints ["0,0"; "0,2"]%string
                      [mkConstraint ["0,0"; "0,2"]%string 1]))
          / ofNat (length (solveConstraints ["0,0"; "0,2"]%string
                             [mkConstraint ["0,0"; "0,2"]%string 1])))%Q.
Proof.
  refine (proj2 (proj2 (truthful_component_satisfiable boardTwoHidden 1
                          [[mkConstraint ["0,0"; "0,2"]%string 1]]
                          [mkConstraint ["0,0"; "0,2"]%string 1] "0,0"%string
                          eq_refl _ _ _ _ _))).
  - intros r c cell E.
    destruct r as [| r]; [| destruct r; discriminate].
    destruct c as [| [| [| c]]]; [| | | destruct c; discriminate];
      injection E as <-; vm_compute; repeat split; congruence.
  - vm_compute. reflexivity.
  - left. reflexivity.
  - vm_compute. left. reflexivity.
  - vm_compute. lia.
Defined.

(** *** Mines around a cell, counted over the positions of the board *)

Lemma NoDup_list_prod {A B} (l1 : list A) (l2 : list B) :
  NoDup l1 -> NoDup l2 -> NoDup (list_prod l1 l2).
Proof.
  intros N1 N2. induction l1 as [| x l1 IH]; simpl; [constructor |].
  inversion N1 as [| ? ? Hx N1']. subst. apply NoDup_app.
  - clear IH. induction N2 as [| y l2 Hy N2 IH2]; simpl; constructor; [| assumption].
    intros F. apply in_map_iff in F. destruct F as [y' [E Hy']].
    injection E as ->. contradiction.
  - now apply IH.
  - intros [a b0] H1 H2. apply in_map_iff in H1. destruct H1 as [y [E _]].
    injection E as <- <-. apply in_prod_iff in H2. tauto.
Qed.

Lemma nextTo_adjacent r c r' c' :
  nextTo r c (r', c') = true <-> adjacent r c r' c'.
Proof.
  unfold nextTo, adjacent. cbn [fst snd].
  rewrite !andb_true_iff, negb_true_iff, andb_false_iff, !Nat.leb_le, !Nat.eqb_neq.
  split.
  - intros [[[[H1 H2] H3] H4] H5]. repeat split; try assumption.
    intros E. injection E as -> ->. tauto.
  - intros [[H1 H2] [[H3 H4] H5]]. repeat split; try assumption.
    destruct (Nat.eq_dec r' r) as [-> | N]; [| now left].
    right. intros ->. now apply H5.
Qed.

Lemma getAdjacentMineCount_minesAround b r c :
  wfBoard b = true -> getAdjacentMineCount b r c = minesAround b r c.
Proof.
  intros W. unfold getAdjacentMineCount, minesAround.
  rewrite <- (length_map (fun n => (row n, col n))).
  apply Permutation_length, NoDup_Permutation.
  - apply (NoDup_map_inv (fun p : nat * nat => cellKey (fst p) (snd p))).
    rewrite map_map. apply (NoDup_map_filter keyOf), getNeighbors_keys_nodup, W.
  - apply NoDup_filter, NoDup_list_prod; apply seq_NoDup.
  - intros [r' c']. rewrite in_map_iff, filter_In, in_positions, andb_true_iff,
      nextTo_adjacent. unfold cellHas. cbn [fst snd]. split.
    + intros [n [E Hn]]. injection E as <- <-. apply filter_In in Hn.
      destruct Hn as [Hn Hm]. apply (getNeighbors_in b r c n W) in Hn.
      destruct Hn as [En Ha].
      destruct (wfBoard_cellAt b _ _ n W En) as [Lr [Lc _]].
      rewrite En. auto.
    + intros [[Lr Lc] [Ha Hm]].
      destruct (cellAt b r' c') as [n |] eqn:En; [| discriminate].
      destruct (wfBoard_cellAt b _ _ n W En) as [_ [_ [Er Ec]]].
      exists n. split; [now rewrite Er, Ec |].
      apply filter_In. split; [| assumption].
      apply (getNeighbors_in b r c n W). rewrite Er, Ec. auto.
Qed.

(** X5. After [calculateAdjacentMines], on a board of the declared shape,
    the count of every mine-free cell is the number of positions of the
    board next to it, diagonals included, that hold a mine; the counts of
    the mines, and the mine, revealed and flag marks of all cells, are
    untouched, and the board keeps its shape. *)
Theorem calculateAdjacentMines_spec (b : Board) :
  wfBoard b = true ->
  let b' := calculateAdjacentMines b in
  wfBoard b' = true /\ rows b' = rows b /\ cols b' = cols b /\
  forall r c cell, cellAt b r c = Some cell ->
    exists cell', cellAt b' r c = Some cell' /\
      row cell' = row cell /\ col cell' = col cell /\
      isMine cell' = isMine cell /\ isRevealed cell' = isRevealed cell /\
      isFlagged cell' = isFlagged cell /\
      adjacentMines cell' =
      if isMine cell then adjacentMines cell
      else Z.of_nat (minesAround b r c).
Proof.
  intros W. unfold calculateAdjacentMines.
  destruct (adjacentLoop b [] (positions b) b (sameMines_refl b) W)
    as [[Hr [Hc _]] [W' H]].
  { intros r c cell E. exists cell. repeat split; auto.
    destruct (isMine cell); [reflexivity | intros []]. }
  split; [assumption |]. split; [assumption |]. split; [assumption |].
  intros r c cell E. destruct (H r c cell E) as [cell' [E' [H1 [H2 [H3 [H4 [H5 H6]]]]]]].
  exists cell'. repeat split; auto.
  destruct (isMine cell); [assumption |].
  rewrite <- (getAdjacentMineCount_minesAround b r c W). apply H6. simpl.
  destruct (wfBoard_cellAt b r c cell W E) as [Lr [Lc _]].
  apply in_positions. auto.
Qed.

Lemma calculateAdjacentMines_spec_witness :
  exists cell',
    cellAt (calculateAdjacentMines (snd (setMine (newBoard 2 2 1) 0 0))) 1 1
    = Some cell' /\
    adjacentMines cell' = 1%Z.
Proof.
  destruct (calculateAdjacentMines_spec (snd (setMine (newBoard 2 2 1) 0 0)) eq_refl)
    as [_ [_ [_ H]]].
  destruct (H 1 1 (mkCell 1 1 false 0 false false) eq_refl)
    as [cell' [E [_ [_ [_ [_ [_ A]]]]]]].
  exists cell'. split; [exact E | exact A].
Defined.

(** *** The deduction of a pair, at the point where the loops reach it *)

Lemma fold_left_seq_split {St} (f : St -> nat -> St) n j s :
  j < n ->
  fold_left f (seq 0 n) s =
  fold_left f (seq (S j) (n - S j)) (f (fold_left f (seq 0 j) s) j).
Proof.
  intros H. replace n with (j + S (n - S j)) at 1 by lia.
  rewrite seq_app, fold_left_app. reflexivity.
Qed.

Lemma fold_subsetSafe_mines keys : forall k,
  knownMines (fold_left subsetSafe keys k) = knownMines k.
Proof.
  induction keys as [| a keys IH]; intros k; simpl; [reflexivity |].
  rewrite IH. unfold subsetSafe. destruct (_ && _); reflexivity.
Qed.

Lemma fold_subsetMine_safe keys : forall k,
  knownSafe (fold_left subsetMine keys k) = knownSafe k.
Proof.
  induction keys as [| a keys IH]; intros k; simpl; [reflexivity |].
  rewrite IH. unfold subsetMine. destruct (_ && _); reflexivity.
Qed.

Lemma deductionApplied_extends c1 c2 before s s' :
  extendsState s s' ->
  deductionApplied c1 c2 before s -> deductionApplied c1 c2 before s'.
Proof.
  intros [[Hs Hm] Hd] [D1 [D2 D3]]. split; [| split].
  - intros Z0 key Hk. destruct (D1 Z0 key Hk); auto.
  - intros N0 Z1 key Hk. destruct (D2 N0 Z1 key Hk); auto.
  - intros N0 N1. destruct (D3 N0 N1) as [dc [H1 H2]]. exists dc. auto.
Qed.

Lemma subsetPair_applies cs i j c1 c2 st :
  i <> j -> nth_error cs j = Some c2 ->
  NoDup (cells c1) -> strictSubset c1 c2 ->
  (0 <= mines c2 - mines c1)%Z ->
  deductionApplied c1 c2 st (subsetPair cs i c1 st j).
Proof.
  intros Hij Hj ND HS Hm.
  destruct (strictSubset_tests c1 c2 ND HS) as [T1 [T2 T3]].
  unfold subsetPair, deductionApplied. rewrite Hj.
  apply Nat.eqb_neq in Hij. rewrite Hij.
  assert (L2 : (length (cells c2) =? 0) = false) by (apply Nat.eqb_neq; lia).
  rewrite L2, T1. apply Nat.ltb_lt in T2. rewrite T2. cbn [andb].
  cbn [differenceOf cells] in T3. unfold differenceOf. cbv zeta. cbn [cells mines].
  set (difference := filter _ (cells c2)) in *.
  assert (L3 : (0 <? length difference) = true).
  { apply Nat.ltb_lt. destruct difference; [congruence | simpl; lia]. }
  rewrite L3. apply Z.leb_le in Hm. rewrite Hm. cbn [andb].
  destruct (Z.eqb_spec (mines c2 - mines c1) 0) as [Z0 | N0].
  { split; [| split]; [| congruence | congruence].
    intros _ key Hk. cbn [fst].
    destruct (fold_subsetSafe_resolves difference (fst st) key Hk) as [H | H];
      [now left |].
    right. now rewrite fold_subsetSafe_mines in H. }
  destruct (Z.eqb_spec (mines c2 - mines c1) (Z.of_nat (length difference)))
    as [Z1 | N1].
  { split; [| split]; [congruence | | congruence].
    intros _ _ key Hk. cbn [fst].
    destruct (fold_subsetMine_resolves difference (fst st) key Hk) as [H | H];
      [now left |].
    right. now rewrite fold_subsetMine_safe in H. }
  split; [congruence |]. split; [congruence |]. intros _ _.
  destruct (existsb _ (snd st)) eqn:E.
  - apply existsb_exists in E. destruct E as [dc [Hdc Hs]].
    exists dc. split; [assumption |]. now apply sameDerived_identical.
  - exists (mkConstraint difference (mines c2 - mines c1)). cbn [snd]. split.
    + apply in_app_iff. right. left. reflexivity.
    + repeat split. apply incl_refl.
Qed.

Lemma subsetAnalysis_applies cs k i j c1 c2 :
  i < Nat.min (length cs) maxCompare -> i <> j ->
  nth_error cs i = Some c1 -> nth_error cs j = Some c2 ->
  cells c1 <> [] -> NoDup (cells c1) -> strictSubset c1 c2 ->
  (mines c1 <= mines c2)%Z ->
  deductionApplied c1 c2 (beforePair cs k i c1 j) (subsetAnalysis cs k).
Proof.
  intros Hi Hij H1 H2 Hne ND HS Hm.
  assert (Tr : forall s1 s2 s3 : Known * list Constraint,
             extendsState s1 s2 -> extendsState s2 s3 -> extendsState s1 s3)
    by (intros; eapply extendsState_trans; eassumption).
  assert (Lj : j < length cs) by (apply nth_error_Some; congruence).
  unfold subsetAnalysis.
  rewrite (fold_left_seq_split (subsetFor cs) _ i) by assumption.
  eapply deductionApplied_extends.
  { apply (loop_extends extendsState (subsetFor cs) extendsState_refl Tr
             (subsetFor_extends cs)). }
  unfold subsetFor at 1. rewrite H1.
  assert (L1 : (length (cells c1) =? 0) = false).
  { apply Nat.eqb_neq. destruct (cells c1); [congruence | simpl; lia]. }
  rewrite L1.
  rewrite (fold_left_seq_split (subsetPair cs i c1) _ j) by assumption.
  eapply deductionApplied_extends.
  { apply (loop_extends extendsState (subsetPair cs i c1) extendsState_refl Tr
             (subsetPair_extends cs i c1)). }
  apply subsetPair_applies; try assumption. lia.
Qed.

(** No pass makes a constraint list a cell twice. *)
Lemma narrowAll_nodup cs : forall k,
  (forall c, In c cs -> NoDup (cells c)) ->
  forall c, In c (snd (narrowAll k cs)) -> NoDup (cells c).
Proof.
  induction cs as [| c0 cs IH]; intros k H c Hc; simpl in Hc; [contradiction |].
  destruct Hc as [<- | Hc].
  - rewrite processConstraint_snd. cbn [cells]. rewrite narrow_fst.
    apply NoDup_filter, H. now left.
  - apply (IH (fst (processConstraint k c0))); [| assumption].
    intros c' Hc'. apply H. now right.
Qed.

Lemma subsetAnalysis_nodup cs k :
  (forall c, In c cs -> NoDup (cells c)) ->
  forall c, In c (snd (subsetAnalysis cs k)) -> NoDup (cells c).
Proof.
  intros H.
  apply (subsetAnalysis_invariant
           (fun l => forall c, In c l -> NoDup (cells c))); [intros c [] |].
  intros i c1 st j Hst c. unfold subsetPair.
  destruct (i =? j); [apply Hst |].
  destruct (nth_error cs j) as [c2 |] eqn:E2; [| apply Hst].
  destruct (length (cells c2) =? 0); [apply Hst |].
  destruct (_ && _); [| apply Hst].
  destruct (_ && _); [| apply Hst].
  destruct (_ =? 0)%Z; [apply Hst |].
  destruct (_ =? _)%Z; [apply Hst |].
  destruct (existsb _ _); [apply Hst |].
  cbn [snd]. intros Hc. apply in_app_iff in Hc.
  destruct Hc as [Hc | [<- | []]]; [now apply Hst |].
  cbn [cells]. apply NoDup_filter, H. eapply nth_error_In, E2.
Qed.

Lemma pass_nodup st :
  (forall c, In c (constraints st) -> NoDup (cells c)) ->
  forall c, In c (constraints (pass st)) -> NoDup (cells c).
Proof.
  intros H c. unfold pass. cbv zeta.
  set (k0 := mkKnown _ _ false).
  pose proof (narrowAll_nodup (constraints st) k0 H) as H1.
  pose proof (subsetAnalysis_nodup (snd (narrowAll k0 (constraints st)))
                (fst (narrowAll k0 (constraints st))) H1) as H2.
  destruct (0 <? length _); cbn [constraints]; [| apply H1].
  intros Hc. apply in_app_iff in Hc. destruct Hc; auto.
Qed.

Lemma afterPasses_nodup cs n :
  (forall c, In c cs -> NoDup (cells c)) ->
  forall c, In c (constraints (afterPasses cs n)) -> NoDup (cells c).
Proof.
  intros H. induction n as [| n IH]; [exact H |].
  unfold afterPasses in *. cbn [Nat.iter nat_rect]. now apply pass_nodup.
Qed.

Lemma extract_nodup b :
  wfBoard b = true -> forall c, In c (snd (extract b)) -> NoDup (cells c).
Proof.
  intros W c Hc. apply extract_constraints_from in Hc.
  destruct Hc as [r [c0 [cell [_ [_ [_ ->]]]]]]. cbn [cells].
  apply NoDup_map_filter, getNeighbors_keys_nodup, W.
Qed.

(** C3 (amended). In every pass on a board of the declared shape, every
    ordered pair (c1, c2) of the narrowed list in which c1 is one of the
    first 50 entries, is not empty, is a strict subset of c2 and has no
    more mines than c2 has its difference derived by the deduction of the
    pair itself: when the loops reach the pair, a difference without mine
    makes every cell of it known safe (unless it already was a known
    mine), a difference with as many mines as cells makes every cell of it
    a known mine (unless it already was known safe), and otherwise a
    structurally identical constraint is among those derived in the
    pass. *)
Theorem C3_pairs_within_limit_derived (b : Board) (n i j : nat)
        (c1 c2 : Constraint) :
  wfBoard b = true ->
  let st := afterPasses (snd (extract b)) n in
  let cs := snd (narrowed st) in
  i < 50 -> i <> j ->
  nth_error cs i = Some c1 -> nth_error cs j = Some c2 ->
  cells c1 <> [] -> strictSubset c1 c2 ->
  (mines c1 <= mines c2)%Z ->
  deductionApplied c1 c2 (beforePair cs (fst (narrowed st)) i c1 j)
                   (subsetPhase (snd (extract b)) n).
Proof.
  intros W st cs Hi Hij H1 H2 Hne HS Hm. unfold subsetPhase. fold st. fold cs.
  apply subsetAnalysis_applies; try assumption.
  - assert (i < length cs) by (apply nth_error_Some; congruence).
    change maxCompare with 50. lia.
  - apply (narrowAll_nodup (constraints st)
             (mkKnown (knownSafe (known st)) (knownMines (known st)) false)).
    + apply afterPasses_nodup, extract_nodup, W.
    + eapply nth_error_In, H1.
Qed.

Lemma C3_pairs_within_limit_derived_witness :
  In "2,1"%string
     (knownSafe (fst (subsetPhase (snd (extract boardSharedClue)) 0))).
Proof.
  destruct (C3_pairs_within_limit_derived boardSharedClue 0 0 1
              (mkConstraint ["1,0"; "1,1"]%string 1)
              (mkConstraint ["1,0"; "1,1"; "2,1"]%string 1)) as [D _].
  - reflexivity.
  - lia.
  - discriminate.
  - reflexivity.
  - reflexivity.
  - discriminate.
  - split.
    + intros x Hx. simpl in *. tauto.
    + intros Hc. specialize (Hc "2,1"%string). simpl in Hc.
      intuition discriminate.
  - simpl. lia.
  - destruct (D eq_refl "2,1"%string (or_introl eq_refl)) as [H | H];
      [exact H | vm_compute in H; contradiction].
Defined.
